(** * teleproto: schema parser, CRC32, IGE chaining and update dispatch

    A shallow embedding of the parts of the teleproto sources that the
    specification's testable properties are about:

    - [Crc32]    teleproto_generator/crc32.ts
    - [Regex]    the backtracking semantics of the JavaScript regular
                 expressions used by the parser
    - [Parser]   teleproto_generator/parser.ts
    - [IGE]      teleproto/crypto/IGE.ts
    - [Crypto]   the node:crypto wrapper (createCipher / createDecipher)
    - [Updates]  the update engine (catchUp, _handleUpdate, _dispatchUpdate)
    - [Words]    the converters between words and bytes (i2abLow, ab2iLow)
    - [Handlers] the registry of event handlers (addEventHandler,
                 removeEventHandler)
    - [Attempts] the retry helper of the update loop (attempts)

    JavaScript strings are lists of characters (code units below 256),
    Buffers are lists of bytes, 32-bit integer arithmetic is written out
    on [Z].  What the code calls but the sources do not contain
    (node:crypto, the entity cache, the session, the server, the event
    builders and callbacks of the user) is a parameter of the model. *)

From Stdlib Require Import String Ascii ZArith List Bool Lia Arith.
From Stdlib Require Import Strings.Byte.
From Stdlib Require Import Sorting.Sorted.
Import ListNotations.

Local Open Scope Z_scope.

(** ** Strings, bytes and numbers as the JavaScript code has them *)

Definition str := list ascii.

(** String literals of the sources are written [s2l "..."]. *)
Definition s2l (s : string) : str := list_ascii_of_string s.

Definition buffer := list byte.

Definition code (c : ascii) : N := N_of_ascii c.

Definition str_eqb (a b : str) : bool :=
  if list_eq_dec ascii_dec a b then true else false.

(** The JavaScript numbers that occur in the modelled code are integers,
    NaN ([parseInt] of a missing group) and, for absurdly long digit
    strings, Infinity. *)
Inductive number : Type :=
| NaN
| Infinity
| Int (z : Z).

Definition number_eqb (a b : number) : bool :=
  match a, b with
  | Int x, Int y => x =? y
  | Infinity, Infinity => true
  | _, _ => false
  end.

(** [!x] on a number: 0 and NaN are falsy. *)
Definition falsy (x : number) : bool :=
  match x with
  | NaN => true
  | Infinity => false
  | Int z => z =? 0
  end.

(** A non-negative mathematical integer converted to the Number type:
    exact below 2^53, otherwise rounded to 53 significant bits (ties to
    even), Infinity from 2^1024 on. *)
Definition toDouble (z : Z) : number :=
  if z <? 2 ^ 53 then Int z
  else
    let e := Z.log2 z - 52 in
    let q := Z.shiftr z e in
    let r := z mod 2 ^ e in
    let half := 2 ^ (e - 1) in
    let q' := if r <? half then q
              else if half <? r then q + 1
              else if Z.even q then q else q + 1 in
    let v := q' * 2 ^ e in
    if v <? 2 ^ 1024 then Int v else Infinity.

Definition isDigit (c : ascii) : bool :=
  ((48 <=? code c) && (code c <=? 57))%N.

Definition isLower (c : ascii) : bool :=
  ((97 <=? code c) && (code c <=? 122))%N.

Definition isUpper (c : ascii) : bool :=
  ((65 <=? code c) && (code c <=? 90))%N.

Definition isHex (c : ascii) : bool :=
  isDigit c || ((97 <=? code c) && (code c <=? 102))%N
            || ((65 <=? code c) && (code c <=? 70))%N.

Definition hexVal (c : ascii) : Z :=
  if isDigit c then Z.of_N (code c) - 48
  else if isLower c then Z.of_N (code c) - 87
  else Z.of_N (code c) - 55.

Definition digitsValue (radix : Z) (s : str) : Z :=
  fold_left (fun acc c => acc * radix + hexVal c) s 0.

Fixpoint takeWhile {A} (p : A -> bool) (l : list A) : list A :=
  match l with
  | x :: t => if p x then x :: takeWhile p t else []
  | [] => []
  end.

(** [Number.parseInt(s, 16)] on a captured group.  [undefined] (the group
    did not take part in the match) reads as the text "undefined", whose
    first character is no hexadecimal digit, hence NaN.  Otherwise the
    longest prefix of hexadecimal digits is read; a group captured by
    [[0-9a-fA-F]+] has no sign, blank or "0x" prefix to strip. *)
Definition parseInt16 (g : option str) : number :=
  match g with
  | None => NaN
  | Some s =>
      match takeWhile isHex s with
      | [] => NaN
      | ds => toDouble (digitsValue 16 ds)
      end
  end.

(** [Number(s)] on a group captured by [\d+]. *)
Definition numberOfDigits (s : str) : number := toDouble (digitsValue 10 s).

(** Outcome of a call that may throw; the payload of [Throw] is the text
    [String(error)] gives. *)
Inductive result (A : Type) : Type :=
| Ok (a : A)
| Throw (e : str).
Arguments Ok {A} a.
Arguments Throw {A} e.

(** * Part I: the programs *)

(** ** crc32.ts *)

Module Crc32.

(** ToInt32 and ToUint32 of the language: bitwise operators work on the
    signed 32-bit reading, [>>>] on the unsigned one. *)
Definition toUint32 (z : Z) : Z := z mod 2 ^ 32.

Definition toInt32 (z : Z) : Z :=
  let u := z mod 2 ^ 32 in if u <? 2 ^ 31 then u else u - 2 ^ 32.

Definition bxor (a b : Z) : Z := toInt32 (Z.lxor (toInt32 a) (toInt32 b)).
Definition band (a b : Z) : Z := toInt32 (Z.land (toInt32 a) (toInt32 b)).
Definition ushr (a k : Z) : Z := Z.shiftr (toUint32 a) k.

Fixpoint iter {A} (n : nat) (f : A -> A) (x : A) : A :=
  match n with
  | O => x
  | S n' => iter n' f (f x)
  end.

(** [c = (c & 1) !== 0 ? 0xedb88320 ^ (c >>> 1) : c >>> 1] *)
Definition tableStep (c : Z) : Z :=
  if negb (band c 1 =? 0) then bxor 0xedb88320 (ushr c 1) else ushr c 1.

Definition makeCrcTable : list Z :=
  map (fun n => iter 8 tableStep (Z.of_nat n)) (seq 0 256).

Definition byteVal (b : byte) : Z := Z.of_N (Byte.to_N b).

Definition crcStep (table : list Z) (crc : Z) (b : byte) : Z :=
  bxor (nth (Z.to_nat (band (bxor crc (byteVal b)) 0xff)) table 0) (ushr crc 8).

(** [crc32] on a Buffer. *)
Definition crc32 (input : buffer) : Z :=
  let crcTable := makeCrcTable in
  let crc := fold_left (crcStep crcTable) input (-1) in
  ushr (bxor crc (-1)) 0.

(** [Buffer.from(s)] / [Buffer.from(s, "utf8")] on a string whose code
    units are below 256: one byte below 128, two bytes from 128 on. *)
Definition byteOfN (n : N) : byte := byte_of_ascii (ascii_of_N n).

Definition utf8 (s : str) : buffer :=
  flat_map (fun c =>
    if (code c <? 128)%N then [byte_of_ascii c]
    else [byteOfN (192 + code c / 64); byteOfN (128 + code c mod 64)]) s.

(** [crc32] on a string argument. *)
Definition crc32_str (s : str) : Z := crc32 (utf8 s).

End Crc32.

(** ** Regular expressions

    The parser is written with JavaScript regular expressions.  Their
    meaning is the backtracking matcher of the language: a sequence
    tries its left part and hands the rest to a continuation, an
    alternative tries its branches left to right, a quantifier is greedy
    and gives back what it took when the continuation fails. *)

Module Regex.

Inductive re : Type :=
| Eps
| Cls (p : ascii -> bool)
| Seq (a b : re)
| Alt (a b : re)
| Star (a : re)
| Grp (i : nat) (a : re)
| Bol
| Eol.

Definition Chr (c : ascii) : re := Cls (Ascii.eqb c).
Definition Opt (a : re) : re := Alt a Eps.
Definition Plus (a : re) : re := Seq a (Star a).
Definition Lit (s : string) : re :=
  fold_right (fun c r => Seq (Chr c) r) Eps (s2l s).

(** Captures: the most recent binding of a group number comes first;
    an absent number is [undefined]. *)
Definition caps := list (nat * str).

Fixpoint group (i : nat) (c : caps) : option str :=
  match c with
  | [] => None
  | (j, v) :: c' => if Nat.eqb i j then Some v else group i c'
  end.

Definition cont := str -> caps -> option (str * caps).

(** One greedy repetition.  An iteration that consumes nothing is not
    taken; [fuel] bounds the iterations by the length of the input. *)
Fixpoint star (fuel : nat) (body : cont -> cont) (k : cont) (s : str) (c : caps)
  : option (str * caps) :=
  match fuel with
  | O => k s c
  | S fuel' =>
      match body (fun s' c' =>
                    if (length s' <? length s)%nat
                    then star fuel' body k s' c' else None) s c with
      | Some v => Some v
      | None => k s c
      end
  end.

(** [m n r k s c]: match [r] at the front of [s], the rest of an input
    of length [n], then continue with [k]. *)
Fixpoint m (n : nat) (r : re) (k : cont) (s : str) (c : caps) {struct r}
  : option (str * caps) :=
  match r with
  | Eps => k s c
  | Cls p =>
      match s with
      | x :: s' => if p x then k s' c else None
      | [] => None
      end
  | Seq a b => m n a (m n b k) s c
  | Alt a b =>
      match m n a k s c with
      | Some v => Some v
      | None => m n b k s c
      end
  | Star a => star (length s) (m n a) k s c
  | Grp i a =>
      m n a (fun s' c' => k s' ((i, firstn (length s - length s') s) :: c')) s c
  | Bol => if (length s =? n)%nat then k s c else None
  | Eol => match s with [] => k s c | _ :: _ => None end
  end.

Definition accept : cont := fun s c => Some (s, c).

(** A match found in a string: the text before it, the matched text, the
    captures and the text after it. *)
Record found : Type := Found {
  before : str;
  matched : str;
  groups : caps;
  after : str
}.

(** The leftmost match at or after the front of [s]. *)
Fixpoint search (n : nat) (r : re) (s : str) : option found :=
  match m n r accept s [] with
  | Some (s', c) => Some (Found [] (firstn (length s - length s') s) c s')
  | None =>
      match s with
      | [] => None
      | x :: t =>
          match search n r t with
          | Some f => Some (Found (x :: before f) (matched f) (groups f) (after f))
          | None => None
          end
      end
  end.

(** [s.match(r)] for a regular expression without the g flag, and
    [r.test(s)]. *)
Definition exec (r : re) (s : str) : option found := search (length s) r s.

Definition test (r : re) (s : str) : bool :=
  match exec r s with Some _ => true | None => false end.

(** [s.replace(r, f)] for [r] without the g flag: the first match only. *)
Definition replaceFirst (r : re) (f : found -> str) (s : str) : str :=
  match exec r s with
  | None => s
  | Some x => before x ++ f x ++ after x
  end.

(** [s.replace(r, f)] for [r] with the g flag.  After an empty match the
    search resumes one character further. *)
Fixpoint replaceFrom (fuel n : nat) (r : re) (f : found -> str) (s : str) : str :=
  match fuel with
  | O => s
  | S fuel' =>
      match search n r s with
      | None => s
      | Some x =>
          before x ++ f x ++
          match matched x, after x with
          | [], [] => []
          | [], y :: t => y :: replaceFrom fuel' n r f t
          | _ :: _, t => replaceFrom fuel' n r f t
          end
      end
  end.

Definition replaceAll (r : re) (f : found -> str) (s : str) : str :=
  replaceFrom (S (length s)) (length s) r f s.

(** The successive results of [r.exec(s)] for [r] with the g flag, as
    [findAll] collects them.  (The loop of [findAll] only ends because
    the expression it is used with cannot match the empty string.) *)
Fixpoint execAll (fuel n : nat) (r : re) (s : str) : list found :=
  match fuel with
  | O => []
  | S fuel' =>
      match search n r s with
      | None => []
      | Some x => x :: execAll fuel' n r (after x)
      end
  end.

(** [s.split(r)]: at each position the expression is tried in place; a
    separator is followed in the result by its captures. *)
Fixpoint splitFrom (fuel n : nat) (r : re) (ng : nat) (p q : str)
  : list (option str) :=
  match fuel with
  | O => [Some p]
  | S fuel' =>
      match q with
      | [] => [Some p]
      | x :: q' =>
          match m n r accept q [] with
          | None => splitFrom fuel' n r ng p q'
          | Some (e, c) =>
              if (length e =? length p)%nat
              then splitFrom fuel' n r ng p q'
              else Some (firstn (length p - length q) p)
                   :: map (fun i => group i c) (seq 1 ng)
                   ++ splitFrom fuel' n r ng e e
          end
      end
  end.

Definition split (r : re) (ng : nat) (s : str) : list (option str) :=
  match s with
  | [] => match m 0 r accept [] [] with Some _ => [] | None => [Some []] end
  | _ => splitFrom (S (length s)) (length s) r ng s s
  end.

(** *** Notions used to state facts about matches *)

Definition stops (p : ascii -> bool) (rest : str) : Prop :=
  match rest with
  | [] => True
  | y :: _ => p y = false
  end.

Definition allIn (p : ascii -> bool) (xs : str) : Prop :=
  Forall (fun x => p x = true) xs.

End Regex.

(** ** parser.ts *)

Module Parser.
Import Regex.

Definition CORE_TYPES : list Z :=
  [0xbc799737; 0x997275b5; 0x3fedd339; 0xc4b9f9bb; 0x56730bcc].

Definition AUTH_KEY_TYPES : list Z :=
  [0x05162463; 0x83c95aec; 0xa9f55f95; 0x3c6a84d4; 0x56fddf88; 0xd0e8075c;
   0xb5890dba; 0x6643b654; 0xd712e4be; 0xf5045f1f; 0x3072cfa1].

(** [Set.prototype.has] on a set of numbers. *)
Definition has (set : list Z) (x : number) : bool :=
  existsb (fun y => number_eqb (Int y) x) set.

Record ArgConfig : Type := mkArgConfig {
  isVector : bool;
  isFlag : bool;
  skipConstructorId : bool;
  flagName : option str;
  flagIndex : number;
  flagIndicator : bool;
  type : option str;
  useVectorId : option bool
}.

(** [Record<string, ArgConfig>]: an object used as a map.  Its keys are
    kept in the order [Object.keys] and [for ... in] give. *)
Definition argsObject := list (str * ArgConfig).

Record TlDefinition : Type := mkTlDefinition {
  name : str;
  constructorId : number;
  argsConfig : argsObject;
  subclassOfId : Z;
  result_ : str;
  isFunction : bool;
  namespace : option str
}.

(** *** Character classes *)

Definition isWord (c : ascii) : bool :=
  isDigit c || isLower c || isUpper c || Ascii.eqb c "_".

(** [\s], and the characters [trim] removes, among code units below 256. *)
Definition isSpace (c : ascii) : bool :=
  ((9 <=? code c) && (code c <=? 13) || (code c =? 32) || (code c =? 160))%N.

(** [.]: anything but a line terminator. *)
Definition isAny (c : ascii) : bool :=
  negb ((code c =? 10) || (code c =? 13))%N.

Definition oneOf (cs : string) (c : ascii) : bool :=
  existsb (Ascii.eqb c) (s2l cs).

(** [[\w.]] *)
Definition isNameChar (c : ascii) : bool := isWord c || oneOf "." c.
(** [[\w\d<>#.?!]] *)
Definition isArgTypeChar (c : ascii) : bool := isWord c || isDigit c || oneOf "<>#.?!" c.
(** [[\w\d<>#.?]] *)
Definition isResultChar (c : ascii) : bool := isWord c || isDigit c || oneOf "<>#.?" c.
(** [[\w<>.]] *)
Definition isFlagTypeChar (c : ascii) : bool := isWord c || oneOf "<>." c.
(** [[\w\d.]] *)
Definition isVectorTypeChar (c : ascii) : bool := isWord c || isDigit c || oneOf "." c.

(** *** The regular expressions of the file *)

(** [/(?:^|_)([a-z])/g] *)
Definition reSnakeHead : re := Seq (Alt Bol (Chr "_")) (Grp 1 (Cls isLower)).
(** [/_/g] *)
Definition reUnderscore : re := Chr "_".
(** [/([-_][a-z])/g] *)
Definition reVariableSnake : re := Grp 1 (Seq (Cls (oneOf "-_")) (Cls isLower)).
(** [/^!+/] *)
Definition reBangs : re := Seq Bol (Plus (Chr "!")).
(** [/(flags(?:\d+)?).(\d+)\?([\w<>.]+)/] *)
Definition reFlag : re :=
  Seq (Grp 1 (Seq (Lit "flags") (Opt (Plus (Cls isDigit)))))
 (Seq (Cls isAny)
 (Seq (Grp 2 (Plus (Cls isDigit)))
 (Seq (Chr "?")
      (Grp 3 (Plus (Cls isFlagTypeChar)))))).
(** [/[Vv]ector<([\w\d.]+)>/] *)
Definition reVector : re :=
  Seq (Cls (oneOf "Vv"))
 (Seq (Lit "ector<")
 (Seq (Grp 1 (Plus (Cls isVectorTypeChar)))
      (Chr ">"))).
(** [/^[a-z]$/] *)
Definition reOneLower : re := Seq Bol (Seq (Cls isLower) Eol).
(** [\s{?\w+:[\w\d<>#.?!]+}?], one field of a definition line *)
Definition reField : re :=
  Seq (Cls isSpace)
 (Seq (Opt (Chr "{"))
 (Seq (Plus (Cls isWord))
 (Seq (Chr ":")
 (Seq (Plus (Cls isArgTypeChar))
      (Opt (Chr "}")))))).
(** [/([\w.]+)(?:#([0-9a-fA-F]+))?(?:\s{?\w+:[\w\d<>#.?!]+}?)*\s=\s([\w\d<>#.?]+);$/] *)
Definition reLine : re :=
  Seq (Grp 1 (Plus (Cls isNameChar)))
 (Seq (Opt (Seq (Chr "#") (Grp 2 (Plus (Cls isHex)))))
 (Seq (Star reField)
 (Seq (Cls isSpace)
 (Seq (Chr "=")
 (Seq (Cls isSpace)
 (Seq (Grp 3 (Plus (Cls isResultChar)))
 (Seq (Chr ";")
      Eol))))))).
(** [/({)?(\w+):([\w\d<>#.?!]+)}?/] *)
Definition reArg : re :=
  Seq (Opt (Grp 1 (Chr "{")))
 (Seq (Grp 2 (Plus (Cls isWord)))
 (Seq (Chr ":")
 (Seq (Grp 3 (Plus (Cls isArgTypeChar)))
      (Opt (Chr "}"))))).
(** [/(:|\?)bytes /g] *)
Definition reBytes : re := Seq (Grp 1 (Alt (Chr ":") (Chr "?"))) (Lit "bytes ").
(** [/</g] *)
Definition reLt : re := Chr "<".
(** [/>|{|}/g] *)
Definition reGtBraces : re := Alt (Chr ">") (Alt (Chr "{") (Chr "}")).
(** [/ \w+:flags(\d+)?\.\d+\?true/g] *)
Definition reTrueFlag : re :=
  Seq (Chr " ")
 (Seq (Plus (Cls isWord))
 (Seq (Lit ":flags")
 (Seq (Opt (Grp 1 (Plus (Cls isDigit))))
 (Seq (Chr ".")
 (Seq (Plus (Cls isDigit))
      (Lit "?true")))))).
(** [/---(\w+)---/] *)
Definition reSection : re :=
  Seq (Lit "---") (Seq (Grp 1 (Plus (Cls isWord))) (Lit "---")).
(** [/\.(.+)/] *)
Definition reDotRest : re := Seq (Chr ".") (Grp 1 (Plus (Cls isAny))).

(** *** String helpers of the language *)

(** [toUpperCase]; only ever applied to text matched by [[-_][a-z]] or
    [[a-z]]. *)
Definition toUpperCase (s : str) : str :=
  map (fun c => if isLower c then ascii_of_N (code c - 32) else c) s.

Definition getOr (o : option str) : str :=
  match o with Some v => v | None => [] end.

Fixpoint join (sep : str) (l : list str) : str :=
  match l with
  | [] => []
  | [x] => x
  | x :: t => x ++ sep ++ join sep t
  end.

Fixpoint startsWith (p s : str) : bool :=
  match p, s with
  | [], _ => true
  | a :: p', b :: s' => Ascii.eqb a b && startsWith p' s'
  | _ :: _, [] => false
  end.

(** [s.includes(p)] *)
Fixpoint includes (p s : str) : bool :=
  startsWith p s || match s with [] => false | _ :: t => includes p t end.

(** [s.split(c)] for a one-character separator. *)
Fixpoint splitChar (sep : ascii) (s : str) : list str :=
  match s with
  | [] => [[]]
  | x :: t =>
      if Ascii.eqb x sep then [] :: splitChar sep t
      else match splitChar sep t with
           | h :: r => (x :: h) :: r
           | [] => [[x]]
           end
  end.

Definition dropWhileEnd (p : ascii -> bool) (s : str) : str :=
  fold_right (fun c acc => match acc with
                           | [] => if p c then [] else [c]
                           | _ => c :: acc
                           end) [] s.

Fixpoint dropWhile (p : ascii -> bool) (s : str) : str :=
  match s with
  | x :: t => if p x then dropWhile p t else s
  | [] => []
  end.

(** [s.trim()] *)
Definition trim (s : str) : str := dropWhileEnd isSpace (dropWhile isSpace s).

(** [commentIndex = line.indexOf("//"); line.slice(0, commentIndex)] when
    the index is not -1. *)
Fixpoint stripComment (s : str) : str :=
  match s with
  | [] => []
  | x :: t => if startsWith (s2l "//") s then [] else x :: stripComment t
  end.

(** *** The functions of the file *)

Definition snakeToCamelCase (name : str) : str :=
  let result := replaceAll reSnakeHead
                  (fun x => toUpperCase (getOr (group 1 (groups x)))) name in
  replaceAll reUnderscore (fun _ => []) result.

Definition variableSnakeToCamelCase (value : str) : str :=
  replaceAll reVariableSnake
    (fun x => replaceFirst (Lit "_") (fun _ => [])
                (replaceFirst (Lit "-") (fun _ => [])
                   (toUpperCase (matched x))))
    value.

(** [findAll]: every result of [exec] with its first element sliced
    off, here for an expression with [ng] groups. *)
Definition findAll (regex : re) (ng : nat) (input : str) : list (list (option str)) :=
  map (fun x => map (fun i => group i (groups x)) (seq 1 ng))
      (execAll (S (length input)) (length input) regex input).

Definition charAt0 (s : str) : str :=
  match s with c :: _ => [c] | [] => [] end.

Definition buildArgConfig (name argType : str) : ArgConfig :=
  let name := if str_eqb name (s2l "self") then s2l "is_self" else name in
  let config := mkArgConfig false false false None (Int (-1)) true None None in
  let config :=
    if negb (str_eqb argType (s2l "#")) then
      let ty := replaceFirst reBangs (fun _ => []) argType in
      let config := mkArgConfig false false false None (Int (-1)) false (Some ty) None in
      let config :=
        match exec reFlag ty with
        | Some flagMatch =>
            mkArgConfig (isVector config) true (skipConstructorId config)
              (group 1 (groups flagMatch))
              (numberOfDigits (getOr (group 2 (groups flagMatch))))
              (flagIndicator config)
              (group 3 (groups flagMatch))
              (useVectorId config)
        | None => config
        end in
      let config :=
        match exec reVector (getOr (type config)) with
        | Some vectorMatch =>
            mkArgConfig true (isFlag config) (skipConstructorId config)
              (flagName config) (flagIndex config) (flagIndicator config)
              (group 1 (groups vectorMatch))
              (Some (str_eqb (charAt0 (getOr (type config))) (s2l "V")))
        | None => config
        end in
      let plain := last (splitChar "." (getOr (type config))) [] in
      if test reOneLower (charAt0 plain)
      then mkArgConfig (isVector config) (isFlag config) true
             (flagName config) (flagIndex config) (flagIndicator config)
             (type config) (useVectorId config)
      else config
    else config in
  match type config with
  | Some t =>
      if str_eqb t (s2l "future_salt")
      then mkArgConfig (isVector config) (isFlag config) (skipConstructorId config)
             (flagName config) (flagIndex config) (flagIndicator config)
             (Some (s2l "FutureSalt")) (useVectorId config)
      else config
  | None => config
  end.

(** Property keys that are array indices ("0", "17", ...) come first in
    an object, in numeric order; the other keys follow in the order of
    their creation. *)
Definition isArrayIndex (k : str) : bool :=
  match k with
  | [] => false
  | c :: t =>
      forallb isDigit k
      && (negb (Ascii.eqb c "0") || match t with [] => true | _ => false end)
      && (digitsValue 10 k <? 2 ^ 32 - 1)
  end.

Fixpoint insertIndex {A} (k : str) (v : A) (o : list (str * A)) : list (str * A) :=
  match o with
  | [] => [(k, v)]
  | (k', v') :: t =>
      if isArrayIndex k' && (digitsValue 10 k' <? digitsValue 10 k)
      then (k', v') :: insertIndex k v t
      else (k, v) :: o
  end.

Fixpoint replaceKey {A} (k : str) (v : A) (o : list (str * A)) : list (str * A) :=
  match o with
  | [] => []
  | (k', v') :: t =>
      if str_eqb k k' then (k', v) :: t else (k', v') :: replaceKey k v t
  end.

(** [o[k] = v] *)
Definition setProp {A} (k : str) (v : A) (o : list (str * A)) : list (str * A) :=
  if existsb (fun kv => str_eqb k (fst kv)) o then replaceKey k v o
  else if isArrayIndex k then insertIndex k v o
  else o ++ [(k, v)].

(** [Object.keys(o)] *)
Definition keys {A} (o : list (str * A)) : list str := map fst o.

(** The text hashed when a line has no usable id: the template string
    and its four replacements. *)
Definition normalize (s : str) : str :=
  replaceAll reTrueFlag (fun _ => [])
    (replaceAll reGtBraces (fun _ => [])
       (replaceAll reLt (fun _ => s2l " ")
          (replaceAll reBytes
             (fun x => getOr (group 1 (groups x)) ++ s2l "string ") s))).

Definition representation (config : TlDefinition) : str :=
  let args := match keys (argsConfig config) with
              | [] => []
              | ks => s2l " " ++ join (s2l " ") ks
              end in
  normalize (name config ++ args ++ s2l " = " ++ result_ config).

Definition withConstructorId (config : TlDefinition) (id : number) : TlDefinition :=
  mkTlDefinition (name config) id (argsConfig config) (subclassOfId config)
    (result_ config) (isFunction config) (namespace config).

Definition withArg (config : TlDefinition) (k : str) (a : ArgConfig) : TlDefinition :=
  mkTlDefinition (name config) (constructorId config)
    (setProp k a (argsConfig config)) (subclassOfId config)
    (result_ config) (isFunction config) (namespace config).

(** The loop over [argsMatch]: an entry whose brace group is undefined
    is stored under the camel-cased name of the field. *)
Definition addArgs (config : TlDefinition) (argsMatch : list (list (option str)))
  : TlDefinition :=
  fold_left (fun config a =>
    match a with
    | [brace; name; argType] =>
        match brace with
        | None => withArg config (variableSnakeToCamelCase (getOr name))
                    (buildArgConfig (getOr name) (getOr argType))
        | Some _ => config
        end
    | _ => config
    end) argsMatch config.

Definition typeErrorReplace : str :=
  s2l "TypeError: Cannot read properties of undefined (reading 'replace')".

(** The record [fromLine] starts from: [argsConfig] is the empty object. *)
Definition initialConfig (mt : found) (isFunction : bool) : TlDefinition :=
  mkTlDefinition (getOr (group 1 (groups mt)))
    (parseInt16 (group 2 (groups mt)))
    []
    (Crc32.crc32_str (getOr (group 3 (groups mt))))
    (getOr (group 3 (groups mt)))
    isFunction
    None.

(** [if (!config.constructorId) { ... }] *)
Definition deriveId (config : TlDefinition) : TlDefinition :=
  if falsy (constructorId config)
  then withConstructorId config
         (Int (Crc32.crc32 (Crc32.utf8 (representation config))))
  else config.

(** The end of [fromLine]: a dotted name is split into namespace and
    name; when the split yields no second element the name is
    [undefined] and [snakeToCamelCase] throws. *)
Definition finishName (config : TlDefinition) : result TlDefinition :=
  let split_name : option (option str * option str) :=
    if includes (s2l ".") (name config) then
      let parts := split reDotRest 1 (name config) in
      Some (nth 0 parts None, nth 1 parts None)
    else None in
  let namespace' := match split_name with
                    | Some (ns, _) => ns
                    | None => namespace config
                    end in
  let name' := match split_name with
               | Some (_, nm) => nm
               | None => Some (name config)
               end in
  match name' with
  | None => Throw typeErrorReplace
  | Some nm =>
      Ok (mkTlDefinition (snakeToCamelCase nm) (constructorId config)
            (argsConfig config) (subclassOfId config) (result_ config)
            (isFunction config) namespace')
  end.

Definition fromLine (line : str) (isFunction : bool) : result TlDefinition :=
  match exec reLine line with
  | None => Throw (s2l "Error: Cannot parse TLObject " ++ line)
  | Some mt =>
      let argsMatch := findAll reArg 3 line in
      let config := initialConfig mt isFunction in
      let config := deriveId config in
      let config := addArgs config argsMatch in
      finishName config
  end.

Definition retype (a : ArgConfig) : ArgConfig :=
  match type a with
  | Some t =>
      if str_eqb t (s2l "string")
      then mkArgConfig (isVector a) (isFlag a) (skipConstructorId a) (flagName a)
             (flagIndex a) (flagIndicator a) (Some (s2l "bytes")) (useVectorId a)
      else a
  | None => a
  end.

Definition patchAuthKey (object : TlDefinition) : TlDefinition :=
  if has AUTH_KEY_TYPES (constructorId object)
  then mkTlDefinition (name object) (constructorId object)
         (map (fun kv => (fst kv, retype (snd kv))) (argsConfig object))
         (subclassOfId object) (result_ object) (isFunction object)
         (namespace object)
  else object.

(** The first loop of [parseTl] over the lines of the schema. *)
Fixpoint parseLines (lines : list str) (isFunction : bool) (parsed : list TlDefinition)
  : result (list TlDefinition) :=
  match lines with
  | [] => Ok parsed
  | line :: rest =>
      let line := trim (stripComment line) in
      match line with
      | [] => parseLines rest isFunction parsed
      | _ =>
          match exec reSection line with
          | Some section =>
              parseLines rest
                (str_eqb (getOr (group 1 (groups section))) (s2l "functions"))
                parsed
          | None =>
              match fromLine line isFunction with
              | Ok parsedLine =>
                  if has CORE_TYPES (constructorId parsedLine)
                  then parseLines rest isFunction parsed
                  else parseLines rest isFunction (parsed ++ [parsedLine])
              | Throw error =>
                  if negb (includes (s2l "vector#1cb5c415") error)
                  then Throw error
                  else parseLines rest isFunction parsed
              end
          end
      end
  end.

Definition parseTl (content : str) : result (list TlDefinition) :=
  match parseLines (splitChar "010" content) false [] with
  | Ok parsed => Ok (map patchAuthKey parsed)
  | Throw e => Throw e
  end.

(** *** The shape of a definition line

    [name[#hexId] (field:type)* = ResultType;] with single blanks, as
    the schema files have it. *)

Record field : Type := mkField {
  fOpen : bool;
  fName : str;
  fType : str;
  fClose : bool
}.

Definition fieldText (f : field) : str :=
  s2l " " ++ (if fOpen f then s2l "{" else []) ++ fName f ++ s2l ":"
          ++ fType f ++ (if fClose f then s2l "}" else []).

Definition wfField (f : field) : Prop :=
  fName f <> [] /\ allIn isWord (fName f) /\
  fType f <> [] /\ allIn isArgTypeChar (fType f).

Definition idText (id : option str) : str :=
  match id with
  | Some h => s2l "#" ++ h
  | None => []
  end.

Definition fieldsText (fields : list field) : str := concat (map fieldText fields).

Definition lineText (name : str) (id : option str) (fields : list field) (res : str) : str :=
  name ++ idText id ++ fieldsText fields ++ s2l " = " ++ res ++ s2l ";".

Definition wfLine (name : str) (id : option str) (fields : list field) (res : str) : Prop :=
  name <> [] /\ allIn isNameChar name /\
  match id with Some h => h <> [] /\ allIn isHex h | None => True end /\
  Forall wfField fields /\
  res <> [] /\ allIn isResultChar res.

Definition lineCaps (name : str) (id : option str) (res : str) : caps :=
  (3%nat, res) :: match id with Some h => [(2%nat, h)] | None => [] end
               ++ [(1%nat, name)].

(** Characters that cannot start a comment, a section marker or a new
    line. *)
Definition plainChar (c : ascii) : bool :=
  negb (Ascii.eqb c "/") && negb (Ascii.eqb c "-") && negb (Ascii.eqb c "010").

End Parser.

(** ** IGE.ts *)

Module IGE.

(** [a[i] ^ b[i]] stored into a Buffer: the exclusive or of two bytes. *)
Definition xorByte (a b : byte) : byte :=
  let '(a0, (a1, (a2, (a3, (a4, (a5, (a6, a7))))))) := Byte.to_bits a in
  let '(b0, (b1, (b2, (b3, (b4, (b5, (b6, b7))))))) := Byte.to_bits b in
  Byte.of_bits (xorb a0 b0, (xorb a1 b1, (xorb a2 b2, (xorb a3 b3,
               (xorb a4 b4, (xorb a5 b5, (xorb a6 b6, xorb a7 b7))))))).

(** [xorBuffers]: the result has the length of [a]; where [b] is
    shorter, [b[i]] is [undefined] and the byte of [a] is kept. *)
Fixpoint xorBuffers (a b : buffer) : buffer :=
  match a with
  | [] => []
  | x :: a' =>
      match b with
      | [] => x :: xorBuffers a' []
      | y :: b' => xorByte x y :: xorBuffers a' b'
      end
  end.

(** [buf.slice(start, end)] for [0 <= start <= end]. *)
Definition slice (buf : buffer) (start end_ : nat) : buffer :=
  firstn (end_ - start) (skipn start buf).

(** [Buffer.alloc(n)] *)
Definition alloc (n : nat) : buffer := repeat "000"%byte n.

(** [src.copy(target, targetStart)]: the bytes of [src] that fit are
    written over [target] from [targetStart] on. *)
Definition copy (src target : buffer) (targetStart : nat) : buffer :=
  firstn targetStart target
  ++ firstn (length target - targetStart) src
  ++ skipn (targetStart + length src) target.

Record IGE : Type := mkIGE { key : buffer; iv : buffer }.

Definition new_IGE (key iv : buffer) : result IGE :=
  if negb (length key =? 32)%nat then Throw (s2l "Error: Key must be 32 bytes (AES-256)")
  else if negb (length iv =? 32)%nat
       then Throw (s2l "Error: IV must be 32 bytes (2 * block size)")
       else Ok (mkIGE key iv).

Definition framingError : str := s2l "Error: Cipher text must be multiple of 16 bytes".

Section Primitives.

(** The two operations of node:crypto the class is built on: AES-256 in
    ECB mode without padding, run on one block ([createCipheriv] /
    [createDecipheriv], [update], [final]); they throw on a key or a
    block of the wrong size.  [generateRandomBytes] is the helper of
    Helpers.ts. *)
Variable aesEncrypt : buffer -> buffer -> result buffer.
Variable aesDecrypt : buffer -> buffer -> result buffer.
Variable generateRandomBytes : nat -> buffer.

Definition aesEncryptBlock (this : IGE) (block : buffer) : result buffer :=
  aesEncrypt (key this) block.

Definition aesDecryptBlock (this : IGE) (block : buffer) : result buffer :=
  aesDecrypt (key this) block.

(** The loop [for (let i = 0; i < plainText.length; i += blockSize)]. *)
Fixpoint encryptLoop (fuel : nat) (this : IGE) (plainText : buffer) (i : nat)
  (prevCipher prevPlain output : buffer) : result buffer :=
  match fuel with
  | O => Ok output
  | S fuel' =>
      if (i <? length plainText)%nat then
        let plainBlock := slice plainText i (i + 16) in
        let xored := xorBuffers plainBlock prevCipher in
        match aesEncryptBlock this xored with
        | Throw e => Throw e
        | Ok encrypted =>
            let cipherBlock := xorBuffers encrypted prevPlain in
            let output := copy cipherBlock output i in
            encryptLoop fuel' this plainText (i + 16) cipherBlock plainBlock output
        end
      else Ok output
  end.

Definition encryptIge (this : IGE) (plainText : buffer) : result buffer :=
  let blockSize := 16%nat in
  let padding := (length plainText mod blockSize)%nat in
  let plainText :=
    if negb (padding =? 0)%nat
    then plainText ++ generateRandomBytes (blockSize - padding)
    else plainText in
  let iv1 := slice (iv this) 0 blockSize in
  let iv2 := slice (iv this) blockSize (2 * blockSize) in
  let output := alloc (length plainText) in
  encryptLoop (length plainText) this plainText 0 iv1 iv2 output.

Fixpoint decryptLoop (fuel : nat) (this : IGE) (cipherText : buffer) (i : nat)
  (prevCipher prevPlain output : buffer) : result buffer :=
  match fuel with
  | O => Ok output
  | S fuel' =>
      if (i <? length cipherText)%nat then
        let cipherBlock := slice cipherText i (i + 16) in
        let xored := xorBuffers cipherBlock prevPlain in
        match aesDecryptBlock this xored with
        | Throw e => Throw e
        | Ok decrypted =>
            let plainBlock := xorBuffers decrypted prevCipher in
            let output := copy plainBlock output i in
            decryptLoop fuel' this cipherText (i + 16) cipherBlock plainBlock output
        end
      else Ok output
  end.

Definition decryptIge (this : IGE) (cipherText : buffer) : result buffer :=
  let blockSize := 16%nat in
  if negb (length cipherText mod blockSize =? 0)%nat then Throw framingError
  else
    let iv1 := slice (iv this) 0 blockSize in
    let iv2 := slice (iv this) blockSize (2 * blockSize) in
    let output := alloc (length cipherText) in
    decryptLoop (length cipherText) this cipherText 0 iv1 iv2 output.

(** The text [encryptIge] works on: the plaintext, followed by random
    bytes up to the next multiple of 16 when it is not block-aligned. *)
Definition paddingTail (plainText : buffer) : buffer :=
  if negb (length plainText mod 16 =? 0)%nat
  then generateRandomBytes (16 - length plainText mod 16)
  else [].

End Primitives.

Definition blocks16 (blocks : list buffer) : Prop :=
  Forall (fun b => length b = 16%nat) blocks.

(** A stand-in for the block cipher, for the examples: a block is
    combined with the key by exclusive or. *)
Definition toyCipher (k b : buffer) : result buffer := Ok (xorBuffers b k).
Definition toyRandom (n : nat) : buffer := repeat "042"%byte n.
Definition sampleKey : buffer := repeat "001"%byte 32.
Definition sampleIv : buffer := repeat "002"%byte 32.

End IGE.

(** ** The node:crypto wrapper: createCipher and createDecipher *)

Module Crypto.

Definition ecbError : str := s2l "Error: ECB mode is not supported".

Section Node.

(** [createCipheriv] and [createDecipheriv] of node:crypto, which return
    a cipher object or throw. *)
Variable handle : Type.
Variable nodeCreateCipheriv : str -> buffer -> buffer -> result handle.
Variable nodeCreateDecipheriv : str -> buffer -> buffer -> result handle.

Record CTR : Type := mkCTR { cipher : handle; decipher : handle }.

Definition new_CTR (key iv : buffer) (algorithm : str) : result CTR :=
  match nodeCreateCipheriv algorithm key iv with
  | Throw e => Throw e
  | Ok c =>
      match nodeCreateDecipheriv algorithm key iv with
      | Throw e => Throw e
      | Ok d => Ok (mkCTR c d)
      end
  end.

Definition createDecipher (algorithm : str) (key iv : buffer) : result CTR :=
  if Parser.includes (s2l "ECB") algorithm then Throw ecbError
  else new_CTR key iv algorithm.

Definition createCipher (algorithm : str) (key iv : buffer) : result CTR :=
  if Parser.includes (s2l "ECB") algorithm then Throw ecbError
  else new_CTR key iv algorithm.

End Node.

(** The class of teleproto/crypto/CTR.ts: the algorithm is fixed, the
    arguments are Buffers by their type. *)
Section FixedCTR.
Variable handle : Type.
Variable nodeCreateCipheriv : str -> buffer -> buffer -> result handle.

Definition new_fixedCTR (key iv : buffer) : result handle :=
  if negb (length iv =? 16)%nat then Throw (s2l "Error: Key and iv need to be a buffer")
  else nodeCreateCipheriv (s2l "AES-256-CTR") key iv.
End FixedCTR.

(** [toLowerCase] on the letters A to Z. *)
Definition toLowerCase (s : str) : str :=
  map (fun c => if isUpper c then ascii_of_N (code c + 32) else c) s.

(** An algorithm name denotes ECB when it contains "ecb" in any case:
    OpenSSL looks cipher names up without regard to case, and IGE.ts
    itself asks for the block cipher as "aes-256-ecb". *)
Definition denotesECB (algorithm : str) : bool :=
  Parser.includes (s2l "ecb") (toLowerCase algorithm).

(** A stand-in for [createCipheriv] and [createDecipheriv], for the
    examples: every request is granted, and the cipher object is
    represented by its parameters. *)
Definition toyNode (algorithm : str) (key iv : buffer)
  : result (str * buffer * buffer) := Ok (algorithm, key, iv).

Definition key32 : buffer := repeat "000"%byte 32.

End Crypto.

(** ** The update engine: catchUp, _handleUpdate, _dispatchUpdate *)

Module Updates.

Record UpdateState : Type := mkState { pts : Z; qts : Z; date : Z; seq : Z }.

(** The three constructors of the type of [diff.newMessages]. *)
Inductive apiMessage : Type :=
| Message (id : Z)
| MessageService (id : Z)
| MessageEmpty (id : Z).

(** A user or chat; [peerId] is what [utils.getPeerId] returns, [None]
    when it throws. *)
Record entity : Type := mkEntity { peerId : option Z; entityId : Z }.

(** Decoded objects that reach the update path. *)
#[warnings="-register-all"]
Inductive object : Type :=
| Updates (users chats : list entity) (updates : list object)
| UpdatesCombined (users chats : list entity) (updates : list object)
| UpdateShort (update : object)
| UpdateNewMessage (message : apiMessage) (pts ptsCount : Z)
| OtherUpdate (id : Z).

(** [Api.updates.TypeDifference] *)
Inductive difference : Type :=
| DifferenceEmpty (date seq : Z)
| Difference (newMessages : list apiMessage) (otherUpdates : list object)
    (chats users : list entity) (state : UpdateState)
| DifferenceSlice (newMessages : list apiMessage) (otherUpdates : list object)
    (chats users : list entity) (intermediateState : UpdateState)
| DifferenceTooLong (pts : Z).

(** The argument of [_handleUpdate]: [Api.TypeUpdate | number]. *)
Inductive jsupdate : Type :=
| Num (n : Z)
| Obj (o : object).

(** What the entity cache and the session are handed. *)
Inductive cached : Type :=
| CUpdate (u : jsupdate)
| CDifference (d : difference).

(** Thrown values. *)
Inductive exn : Type :=
| StopPropagation
| TypeErrorCreateProperty (n : Z)
| TypeErrorCreateClient (n : Z)
| Failure (tag : Z).

Definition isStopPropagation (e : exn) : bool :=
  match e with StopPropagation => true | _ => false end.

Inductive outcome (A : Type) : Type :=
| Return (a : A)
| Raise (e : exn).
Arguments Return {A} a.
Arguments Raise {A} e.

(** A [Map] keyed by peer id: [set] overwrites in place or appends. *)
Definition entityMap := list (Z * entity).

Fixpoint mapSet (k : Z) (v : entity) (mp : entityMap) : entityMap :=
  match mp with
  | [] => [(k, v)]
  | (k', v') :: t => if k =? k' then (k', v) :: t else (k', v') :: mapSet k v t
  end.

(** [try { entities.set(utils.getPeerId(x), x) } catch (e) { }] over a list *)
Definition collectEntities (xs : list entity) (mp : entityMap) : entityMap :=
  fold_left (fun mp x => match peerId x with
                         | Some k => mapSet k x mp
                         | None => mp
                         end) xs mp.

Inductive request : Type :=
| GetState
| GetDifference (pts date qts : Z).

Inductive response : Type :=
| RState (s : UpdateState)
| RDifference (d : difference).

(** The [update] member of the argument of [_dispatchUpdate]: a
    connection-state object or an update carrying its [_entities]. *)
Inductive dispatched : Type :=
| UpdateConnectionState (state : Z)
| WithEntities (o : object) (_entities : entityMap).

Record dispatchArgs : Type := mkArgs {
  update_ : dispatched;
  others : option (list object)
}.

(** What the engine does to its surroundings, in order. *)
Inductive event : Type :=
| Invoke (r : request)
| EntityCacheAdd (x : cached)
| ProcessEntities (x : cached)
| LogDebug (msg : string)
| LogWarn (msg : string)
| LogError (msg : string) (e : exn)
| DispatchUpdate (args : dispatchArgs).

Record client : Type := mkClient {
  _updateState : option UpdateState;
  trace : list event
}.

Definition emit (c : client) (es : list event) : client :=
  mkClient (_updateState c) (trace c ++ es).

Definition setState (c : client) (s : UpdateState) : client :=
  mkClient (Some s) (trace c).

Section Engine.

(** [client._entityCache.add] and [client.session.processEntities]:
    [None] when the call returns, [Some e] when it throws [e]. *)
Variable entityCacheAdd : cached -> option exn.
Variable processEntities : cached -> option exn.

(** [_processUpdate].  The file is a module (it has import and export
    declarations), so its code is strict code, and in strict code the
    assignment [update._entities = ...] to a number throws a TypeError.
    On an object the property is set and [_dispatchUpdate] is called;
    the call is not awaited and its promise has a handler, so nothing is
    thrown from it here.  The order of the [DispatchUpdate] events is
    the order of these calls. *)
Definition _processUpdate (c : client) (update : jsupdate)
  (others : option (list object)) (entities : option entityMap)
  : client * option exn :=
  match update with
  | Num n => (c, Some (TypeErrorCreateProperty n))
  | Obj o =>
      let ents := match entities with Some mp => mp | None => [] end in
      (emit c [DispatchUpdate (mkArgs (WithEntities o ents) others)], None)
  end.

(** A [for ... of] loop whose body may throw. *)
Fixpoint forEach {A} (body : client -> A -> client * option exn)
  (xs : list A) (c : client) : client * option exn :=
  match xs with
  | [] => (c, None)
  | x :: xs' =>
      match body c x with
      | (c', None) => forEach body xs' c'
      | (c', Some e) => (c', Some e)
      end
  end.

Definition isMessageOrService (m : apiMessage) : bool :=
  match m with
  | Message _ | MessageService _ => true
  | MessageEmpty _ => false
  end.

Definition _processDifference (c : client) (diff : difference)
  (newMessages : list apiMessage) (otherUpdates : list object)
  (chats users : list entity) : client * option exn :=
  let entities := collectEntities chats (collectEntities users []) in
  let c := emit c [EntityCacheAdd (CDifference diff)] in
  match entityCacheAdd (CDifference diff) with
  | Some e => (c, Some e)
  | None =>
      let c := emit c [ProcessEntities (CDifference diff)] in
      match processEntities (CDifference diff) with
      | Some e => (c, Some e)
      | None =>
          match forEach (fun c message =>
                    if isMessageOrService message
                    then _processUpdate c (Obj (UpdateNewMessage message 0 0))
                           None (Some entities)
                    else (c, None)) newMessages c with
          | (c, Some e) => (c, Some e)
          | (c, None) =>
              forEach (fun c update =>
                         _processUpdate c (Obj update) (Some otherUpdates)
                           (Some entities)) otherUpdates c
          end
      end
  end.

(** The replies of the server to the successive [client.invoke] calls. *)
Definition script := list (outcome response).

(** The [while (fetching)] loop of [catchUp].  Every iteration consumes
    one reply; the result is [None] when the replies run out before the
    loop ends (or a reply has the wrong type for its request). *)
Fixpoint fetchLoop (replies : script) (c : client)
  : option (client * option exn * script) :=
  match replies with
  | [] => None
  | reply :: replies' =>
      match _updateState c with
      | None => None
      | Some us =>
          let c := emit c [Invoke (GetDifference (pts us) (date us) (qts us))] in
          match reply with
          | Raise e => Some (c, Some e, replies')
          | Return (RState _) => None
          | Return (RDifference diff) =>
              match diff with
              | DifferenceEmpty date seq =>
                  Some (setState c (mkState (pts us) (qts us) date seq), None, replies')
              | Difference newMessages otherUpdates chats users state =>
                  match _processDifference c diff newMessages otherUpdates chats users with
                  | (c, Some e) => Some (c, Some e, replies')
                  | (c, None) =>
                      Some (setState c (mkState (pts state) (qts state)
                                          (date state) (seq state)),
                            None, replies')
                  end
              | DifferenceSlice newMessages otherUpdates chats users intermediateState =>
                  match _processDifference c diff newMessages otherUpdates chats users with
                  | (c, Some e) => Some (c, Some e, replies')
                  | (c, None) =>
                      fetchLoop replies'
                        (setState c (mkState (pts intermediateState)
                                       (qts intermediateState)
                                       (date intermediateState)
                                       (seq intermediateState)))
                  end
              | DifferenceTooLong pts' =>
                  Some (emit (setState c (mkState pts' (qts us) (date us) (seq us)))
                          [LogWarn "Too many updates missed, some may be lost"],
                        None, replies')
              end
          end
      end
  end.

Definition catchUp (c : client) (replies : script) : option (client * script) :=
  match _updateState c with
  | None =>
      match replies with
      | [] => None
      | reply :: replies' =>
          let c := emit c [Invoke GetState] in
          match reply with
          | Raise e => Some (emit c [LogError "Error during catch up: " e], replies')
          | Return (RDifference _) => None
          | Return (RState state) =>
              Some (emit (setState c (mkState (pts state) (qts state)
                                        (date state) (seq state)))
                      [LogDebug "Initialized update state"], replies')
          end
      end
  | Some _ =>
      let c := emit c [LogDebug "Catching up on missed updates..."] in
      match fetchLoop replies c with
      | None => None
      | Some (c, None, replies') =>
          Some (emit c [LogDebug "Catch up complete"], replies')
      | Some (c, Some e, replies') =>
          Some (emit c [LogError "Error during catch up: " e], replies')
      end
  end.

(** [_handleUpdate] *)
Definition _handleUpdate (c : client) (update : jsupdate) : client :=
  let connectionState :=
    match update with
    | Num n => if existsb (Z.eqb n) [-1; 0; 1] then Some n else None
    | Obj _ => None
    end in
  match connectionState with
  | Some n =>
      emit c [DispatchUpdate (mkArgs (UpdateConnectionState n) None)]
  | None =>
      let body : client * option exn :=
        let c := emit c [EntityCacheAdd (CUpdate update)] in
        match entityCacheAdd (CUpdate update) with
        | Some e => (c, Some e)
        | None =>
            let c := emit c [ProcessEntities (CUpdate update)] in
            match processEntities (CUpdate update) with
            | Some e => (c, Some e)
            | None =>
                match update with
                | Obj (Updates users chats updates)
                | Obj (UpdatesCombined users chats updates) =>
                    let entities := collectEntities (users ++ chats) [] in
                    forEach (fun c u =>
                               _processUpdate c (Obj u) (Some updates) (Some entities))
                            updates c
                | Obj (UpdateShort inner) => _processUpdate c (Obj inner) None None
                | _ => _processUpdate c update None None
                end
            end
        end in
      match body with
      | (c, None) => c
      | (c, Some e) => emit c [LogError "Error handling update: " e]
      end
  end.

End Engine.

(** The arguments [_processDifference] hands to [_dispatchUpdate], in
    order: the messages that are a [Message] or a [MessageService],
    each wrapped in an [UpdateNewMessage], then the other updates. *)
Definition fanOut (newMessages : list apiMessage) (otherUpdates : list object)
  (chats users : list entity) : list dispatchArgs :=
  let entities := collectEntities chats (collectEntities users []) in
  map (fun m => mkArgs (WithEntities (UpdateNewMessage m 0 0) entities) None)
      (List.filter isMessageOrService newMessages)
  ++ map (fun u => mkArgs (WithEntities u entities) (Some otherUpdates)) otherUpdates.

Definition fanOutOf (d : difference) : list dispatchArgs :=
  match d with
  | Difference ms us cs users _ | DifferenceSlice ms us cs users _ => fanOut ms us cs users
  | _ => []
  end.

(** The calls of [_dispatchUpdate] recorded in a trace. *)
Definition dispatches (tr : list event) : list dispatchArgs :=
  flat_map (fun e => match e with DispatchUpdate a => [a] | _ => [] end) tr.

(** Caches that never throw. *)
Definition quiet : cached -> option exn := fun _ => None.

Definition sampleState : UpdateState := mkState 1 2 3 4.
Definition sampleSlice1 : difference :=
  DifferenceSlice [Message 7] [OtherUpdate 8] [] [] (mkState 5 6 7 8).
Definition sampleSlice2 : difference :=
  DifferenceSlice [MessageService 9] [OtherUpdate 10] [] [] (mkState 11 12 13 14).
Definition sampleFull : difference :=
  Difference [Message 15] [OtherUpdate 16] [] [] (mkState 20 21 22 23).
Definition sampleReplies : script :=
  [Return (RDifference (DifferenceEmpty 30 40));
   Return (RDifference sampleSlice1);
   Return (RDifference sampleSlice2);
   Return (RDifference sampleFull)].

(** *** One round of [_dispatchUpdate]

    A round is followed on its own, from its first pair to its end; at
    its awaits other rounds may run in between, which is not modelled.
    Builders, events and callbacks are taken by what they return or
    throw. *)

Section Dispatch.

(** The events the builders produce. *)
Variable builtEvent : Type.

(** An object as the statements between [build] and [filter] use it.
    An assignment to a property returns ([None]) or throws ([Some e]:
    the object is frozen, the property has a setter that throws, ...);
    [in_eventName] is the test ["_eventName" in event], which only a
    proxy makes throw; [_setClient] is the call [event._setClient(client)],
    which throws a TypeError when the object has no such method. *)
Record eventObject : Type := mkEventObject {
  set_client : option exn;
  in_eventName : outcome bool;
  _setClient : option exn;
  set_originalUpdate : option exn;
  set_entities : option exn
}.

(** What [build] returns: a falsy value ([undefined], [null], 0, ...),
    a truthy primitive (the number [n], say), or an object, which is the
    event [ev] for the filter and the callback. *)
Inductive built : Type :=
| Falsy
| Primitive (n : Z)
| Object (ev : builtEvent) (o : eventObject).

(** An event builder as the round sees it: its [resolved] flag, what
    [resolve] does ([None]: returns, [Some e]: throws [e]), [build] (a
    value or an exception) and [filter]. *)
Record EventBuilder : Type := mkBuilder {
  resolved : bool;
  resolve : option exn;
  build : dispatched -> option Z -> outcome built;
  filter : builtEvent -> outcome bool
}.

(** A callback: [None] when it returns, [Some e] when it throws [e]. *)
Definition callback := builtEvent -> option exn.

(** An element of [client._eventBuilders]; either member may be missing. *)
Definition handlerPair : Type := (option EventBuilder * option callback)%type.

Record dispatcher : Type := mkDispatcher {
  _eventBuilders : list handlerPair;
  _selfInputPeer : option Z;
  _errorHandler : option (exn -> option exn)
}.

(** What a round does, in order; [i] is the position of the pair. *)
Inductive step : Type :=
| Resolved (i : nat)
| GotMe
| Built (i : nat)
| Filtered (i : nat)
| Called (i : nat) (ev : builtEvent) (thrown : option exn)
| ErrorHandled (e : exn)
| Logged (msg : string) (e : exn).

(** How an iteration of the [for] loop ends. *)
Inductive flow : Type :=
| Next
| Break
| Propagate (e : exn).

(** Modelled from the spec: [EventBuilder.resolve] (events/common is not
    among the sources).  "Lazily resolve each builder exactly once (on
    first use against the live client)": a resolution that returns marks
    the builder resolved, one that throws leaves it as it was. *)
Definition resolveBuilder (b : EventBuilder) : EventBuilder * option exn :=
  match resolve b with
  | None => (mkBuilder true (resolve b) (build b) (filter b), None)
  | Some e => (b, Some e)
  end.

(** [client.getMe(true)] inside [try { } catch { }]: the user id of
    [client._selfInputPeer] after the call, if it has one. *)
Variable getMe : option Z.

(** The statements between [build] and [filter] on an object:
    [event._client = client; if ("_eventName" in event) {
    event._setClient(client); event.originalUpdate = args.update;
    event._entities = args.update._entities; }].  No [try] guards
    them: [Some e] when one of them throws [e], [None] when all return.
    ([args.update] is an object here, so that reading its [_entities]
    does not throw.) *)
Definition attachClient (o : eventObject) : option exn :=
  match set_client o with
  | Some e => Some e
  | None =>
      match in_eventName o with
      | Raise e => Some e
      | Return false => None
      | Return true =>
          match _setClient o with
          | Some e => Some e
          | None =>
              match set_originalUpdate o with
              | Some e => Some e
              | None => set_entities o
              end
          end
      end
  end.

(** The body of the loop for the pair at position [i].  On a truthy
    primitive the assignment [event._client = client] throws a
    TypeError, the code being strict; what the statements after [build]
    throw leaves the function and ends the round. *)
Definition dispatchPair (errorHandler : option (exn -> option exn))
  (i : nat) (entry : handlerPair) (self : option Z) (args : dispatchArgs)
  : handlerPair * option Z * list step * flow :=
  match entry with
  | (Some builder, Some cb) =>
      let '(builder, resolving, failed) :=
        if negb (resolved builder) then
          match resolveBuilder builder with
          | (b, None) => (b, [Resolved i], None)
          | (b, Some e) =>
              (b, [Resolved i; Logged "Error resolving event builder: " e], Some e)
          end
        else (builder, [], None) in
      match failed with
      | Some _ => ((Some builder, Some cb), self, resolving, Next)
      | None =>
          let '(self, gettingMe) :=
            match self with
            | Some _ => (self, [])
            | None => (getMe, [GotMe])
            end in
          let pre := resolving ++ gettingMe ++ [Built i] in
          match build builder (update_ args) self with
          | Raise e =>
              ((Some builder, Some cb), self,
               pre ++ [Logged "Error building event: " e], Next)
          | Return Falsy => ((Some builder, Some cb), self, pre, Next)
          | Return (Primitive n) =>
              ((Some builder, Some cb), self, pre, Propagate (TypeErrorCreateClient n))
          | Return (Object ev o) =>
              match attachClient o with
              | Some e => ((Some builder, Some cb), self, pre, Propagate e)
              | None =>
                  match filter builder ev with
                  | Raise e =>
                      ((Some builder, Some cb), self,
                       pre ++ [Filtered i; Logged "Error in event filter: " e], Next)
                  | Return false =>
                      ((Some builder, Some cb), self, pre ++ [Filtered i], Next)
                  | Return true =>
                      let pre := pre ++ [Filtered i; Called i ev (cb ev)] in
                      match cb ev with
                      | None => ((Some builder, Some cb), self, pre, Next)
                      | Some e =>
                          if isStopPropagation e
                          then ((Some builder, Some cb), self, pre, Break)
                          else
                            match errorHandler with
                            | Some h =>
                                match h e with
                                | Some e' =>
                                    ((Some builder, Some cb), self,
                                     pre ++ [ErrorHandled e], Propagate e')
                                | None =>
                                    ((Some builder, Some cb), self,
                                     pre ++ [ErrorHandled e;
                                             Logged "Error in event handler: " e], Next)
                                end
                            | None =>
                                ((Some builder, Some cb), self,
                                 pre ++ [Logged "Error in event handler: " e], Next)
                            end
                      end
                  end
              end
          end
      end
  | _ => (entry, self, [], Next)
  end.

(** The [for ... of client._eventBuilders] loop from position [i] on. *)
Fixpoint dispatchLoop (errorHandler : option (exn -> option exn))
  (i : nat) (pairs : list handlerPair) (self : option Z) (args : dispatchArgs)
  : list handlerPair * option Z * list step * option exn :=
  match pairs with
  | [] => ([], self, [], None)
  | entry :: rest =>
      match dispatchPair errorHandler i entry self args with
      | (entry', self', steps, Next) =>
          match dispatchLoop errorHandler (S i) rest self' args with
          | (rest', self'', steps', r) => (entry' :: rest', self'', steps ++ steps', r)
          end
      | (entry', self', steps, Break) => (entry' :: rest, self', steps, None)
      | (entry', self', steps, Propagate e) => (entry' :: rest, self', steps, Some e)
      end
  end.

(** [_dispatchUpdate]: the client after the round, what happened, and
    the exception the returned promise is rejected with, if any. *)
Definition _dispatchUpdate (c : dispatcher) (args : dispatchArgs)
  : dispatcher * list step * option exn :=
  match dispatchLoop (_errorHandler c) 0 (_eventBuilders c) (_selfInputPeer c) args with
  | (pairs, self, steps, r) => (mkDispatcher pairs self (_errorHandler c), steps, r)
  end.

(** The builder after the lazy resolution at the head of the loop body. *)
Definition afterResolve (b : EventBuilder) : EventBuilder :=
  if resolved b then b else fst (resolveBuilder b).

(** [client._selfInputPeer] after the attempt to fetch it. *)
Definition selfAfter (self : option Z) : option Z :=
  match self with
  | Some _ => self
  | None => getMe
  end.

(** What happens for a pair before its callback is called. *)
Definition reachSteps (i : nat) (b : EventBuilder) (self : option Z) : list step :=
  (if resolved b then [] else [Resolved i])
  ++ match self with Some _ => [] | None => [GotMe] end
  ++ [Built i; Filtered i].

(** The callback of the pair is called on [ev]: the builder is or
    becomes resolved, builds from the update an object that is the
    event [ev], none of the statements after [build] throws on it, and
    the filter accepts [ev]. *)
Definition reachesCallback (b : EventBuilder) (self : option Z)
  (args : dispatchArgs) (ev : builtEvent) : Prop :=
  (resolved b = true \/ resolve b = None) /\
  (exists o, build b (update_ args) (selfAfter self) = Return (Object ev o) /\
             attachClient o = None) /\
  filter b ev = Return true.

(** One of the statements after [build] throws [e] on the value
    [build] returned. *)
Definition throwsAfterBuild (event : built) (e : exn) : Prop :=
  match event with
  | Falsy => False
  | Primitive n => e = TypeErrorCreateClient n
  | Object _ o => attachClient o = Some e
  end.

(** The pair reaches the statements after [build] with the value
    [event]: the builder is or becomes resolved and builds [event]. *)
Definition reachesBuild (b : EventBuilder) (self : option Z)
  (args : dispatchArgs) (event : built) : Prop :=
  (resolved b = true \/ resolve b = None) /\
  build b (update_ args) (selfAfter self) = Return event.

(** What follows the call of a callback, by what it threw. *)
Definition afterCall (errorHandler : option (exn -> option exn)) (thrown : option exn)
  : list step * flow :=
  match thrown with
  | None => ([], Next)
  | Some e =>
      if isStopPropagation e then ([], Break)
      else match errorHandler with
           | Some h =>
               match h e with
               | Some e' => ([ErrorHandled e], Propagate e')
               | None => ([ErrorHandled e; Logged "Error in event handler: " e], Next)
               end
           | None => ([Logged "Error in event handler: " e], Next)
           end
  end.

(** The handlers of a pair, whatever the [resolved] flag of its builder. *)
Definition handlersOf (p : handlerPair)
  : option (option exn * (dispatched -> option Z -> outcome built)
            * (builtEvent -> outcome bool))
    * option callback :=
  (match fst p with
   | Some b => Some (resolve b, build b, filter b)
   | None => None
   end, snd p).

End Dispatch.

Arguments resolved {builtEvent} _.
Arguments resolve {builtEvent} _.
Arguments build {builtEvent} _ _ _.
Arguments filter {builtEvent} _ _.
Arguments mkBuilder {builtEvent} _ _ _ _.
Arguments Falsy {builtEvent}.
Arguments Primitive {builtEvent} n.
Arguments Object {builtEvent} ev o.
Arguments _eventBuilders {builtEvent} _.
Arguments _selfInputPeer {builtEvent} _.
Arguments _errorHandler {builtEvent} _.
Arguments mkDispatcher {builtEvent} _ _ _.
Arguments Resolved {builtEvent} i.
Arguments GotMe {builtEvent}.
Arguments Built {builtEvent} i.
Arguments Filtered {builtEvent} i.
Arguments Called {builtEvent} i ev thrown.
Arguments ErrorHandled {builtEvent} e.
Arguments Logged {builtEvent} msg e.
Arguments resolveBuilder {builtEvent} b.
Arguments dispatchPair {builtEvent} getMe errorHandler i entry self args.
Arguments dispatchLoop {builtEvent} getMe errorHandler i pairs self args.
Arguments _dispatchUpdate {builtEvent} getMe c args.
Arguments afterResolve {builtEvent} b.
Arguments reachSteps {builtEvent} i b self.
Arguments reachesCallback {builtEvent} getMe b self args ev.
Arguments throwsAfterBuild {builtEvent} event e.
Arguments reachesBuild {builtEvent} getMe b self args event.
Arguments handlersOf {builtEvent} p.

(** An ordinary object without [_eventName]. *)
Definition plainObject : eventObject := mkEventObject None (Return false) None None None.

(** An event of the library: it has [_eventName] and the method
    [_setClient]. *)
Definition libraryEvent : eventObject := mkEventObject None (Return true) None None None.

(** A resolved builder that turns every update into the event [0] and
    filters nothing out. *)
Definition sampleBuilder : EventBuilder Z :=
  mkBuilder true None (fun _ _ => Return (Object 0 libraryEvent)) (fun _ => Return true).

(** A resolved builder whose [build] returns the number 7. *)
Definition primitiveBuilder : EventBuilder Z :=
  mkBuilder true None (fun _ _ => Return (Primitive 7)) (fun _ => Return true).

Definition failingCallback : callback Z := fun _ => Some (Failure 1).
Definition quietCallback : callback Z := fun _ => None.
Definition throwingHandler : exn -> option exn := fun _ => Some (Failure 2).

Definition sampleArgs : dispatchArgs := mkArgs (WithEntities (OtherUpdate 1) []) None.

(** A builder whose event is the id of the update, and a callback that
    stops the propagation of the event 1 only. *)
Definition idBuilder : EventBuilder Z :=
  mkBuilder true None
    (fun u _ => match u with
                | WithEntities (OtherUpdate id) _ => Return (Object id plainObject)
                | _ => Return Falsy
                end)
    (fun _ => Return true).

Definition stoppingCallback : callback Z :=
  fun ev => if ev =? 1 then Some StopPropagation else None.

Definition sampleDispatcher : dispatcher Z :=
  mkDispatcher [(Some idBuilder, Some stoppingCallback);
                (Some idBuilder, Some quietCallback)]
               (Some 42) None.

End Updates.

(** ** The word converters of CTR.ts

    [i2abLow] and [ab2iLow]: a Uint32Array written as bytes, most
    significant byte first, and read back. *)

Module Words.
Import Crc32.

(** A value stored into a Uint8Array. *)
Definition toUint8 (z : Z) : byte := byteOfN (Z.to_N (z mod 256)).

(** [x << k] *)
Definition shl (a k : Z) : Z := toInt32 (Z.shiftl (toInt32 a) k).

Definition rangeError : str := s2l "RangeError: Byte length must be a multiple of 4".

(** [i2abLow]: the four bytes of each word, most significant first. *)
Definition i2abLow (buf : list Z) : buffer :=
  flat_map (fun w =>
    let v := ushr w 0 in
    [toUint8 (band (ushr v 24) 0xff);
     toUint8 (band (ushr v 16) 0xff);
     toUint8 (band (ushr v 8) 0xff);
     toUint8 (band v 0xff)]) buf.

(** The word [ab2iLow] stores for the bytes at [i .. i+3]. *)
Definition wordOf (b0 b1 b2 b3 : byte) : Z :=
  toUint32
    (bxor (bxor (bxor (ushr (shl (byteVal b0) 24) 0) (ushr (shl (byteVal b1) 16) 0))
                (ushr (shl (byteVal b2) 8) 0))
          (ushr (byteVal b3) 0)).

(** The loop of [ab2iLow]; it runs on a length that is a multiple of 4,
    so the last case is not reached. *)
Fixpoint wordsOf (src : buffer) : list Z :=
  match src with
  | b0 :: b1 :: b2 :: b3 :: rest => wordOf b0 b1 b2 b3 :: wordsOf rest
  | _ => []
  end.

Definition ab2iLow (ab : buffer) : result (list Z) :=
  if negb (length ab mod 4 =? 0)%nat then Throw rangeError
  else Ok (wordsOf ab).

(** The values a Uint32Array holds. *)
Definition isUint32 (w : Z) : Prop := 0 <= w < 2 ^ 32.

Definition sampleWords : list Z := [0x01020304; 0xfeedface].

End Words.

(** ** IGE, block by block *)

Module IGEChain.
Import IGE.

(** The chaining of the two loops, block by block: a block is combined
    with [mask] before the primitive [f] and with [unmask] after it; the
    result becomes the next [mask], the block the next [unmask].
    [encryptIge] runs it with the previous cipher block as [mask] and
    the previous plain block as [unmask], [decryptIge] the other way
    round. *)
Fixpoint chain (f : buffer -> buffer -> result buffer) (key mask unmask : buffer)
  (blocks : list buffer) : result (list buffer) :=
  match blocks with
  | [] => Ok []
  | b :: rest =>
      match f key (xorBuffers b mask) with
      | Throw e => Throw e
      | Ok o =>
          match chain f key (xorBuffers o unmask) b rest with
          | Throw e => Throw e
          | Ok out => Ok (xorBuffers o unmask :: out)
          end
      end
  end.

End IGEChain.

(** ** Notions used to state further facts about the update engine *)

Module EngineNotions.
Import Updates.

(** The requests sent to the server, as recorded in a trace. *)
Definition requests (tr : list event) : list request :=
  flat_map (fun e => match e with Invoke r => [r] | _ => [] end) tr.

(** The request of the fetch loop when the stored state is [s]. *)
Definition getDifferenceAt (s : UpdateState) : request :=
  GetDifference (pts s) (date s) (qts s).

Definition isSlice (d : difference) : bool :=
  match d with
  | DifferenceSlice _ _ _ _ _ => true
  | _ => false
  end.

(** The intermediate states of a run of slices. *)
Definition sliceStates (ds : list difference) : list UpdateState :=
  flat_map (fun d => match d with
                     | DifferenceSlice _ _ _ _ s => [s]
                     | _ => []
                     end) ds.

(** A reply that carries messages and updates. *)
Definition hasPayload (d : difference) : bool :=
  match d with
  | Difference _ _ _ _ _ | DifferenceSlice _ _ _ _ _ => true
  | _ => false
  end.

(** [Map.prototype.get] *)
Fixpoint mapGet (k : Z) (mp : entityMap) : option entity :=
  match mp with
  | [] => None
  | (k', v) :: t => if k =? k' then Some v else mapGet k t
  end.

(** The last entity of a list whose peer id is [k]. *)
Definition lastWithPeer (k : Z) (xs : list entity) : option entity :=
  find (fun x => match peerId x with
                 | Some k' => k =? k'
                 | None => false
                 end) (rev xs).

(** A cache that throws on everything. *)
Definition throwingCache : cached -> option exn := fun _ => Some (Failure 3).

(** [c'] is [c] after some more effects, with the stored state of [c]. *)
Definition sameStateLater (c c' : client) : Prop :=
  _updateState c' = _updateState c /\ exists es, trace c' = trace c ++ es.

Definition sampleUsers : list entity := [mkEntity (Some 1) 10; mkEntity None 11].
Definition sampleChats : list entity := [mkEntity (Some 1) 12; mkEntity (Some 2) 13].

(** The positions whose callback a round called, in order. *)
Definition calledAt {builtEvent : Type} (steps : list (step builtEvent)) : list nat :=
  flat_map (fun s => match s with Called i _ _ => [i] | _ => [] end) steps.

(** How often a round asked for the own user. *)
Definition gotMeCount {builtEvent : Type} (steps : list (step builtEvent)) : nat :=
  length (List.filter (fun s => match s with GotMe => true | _ => false end) steps).

End EngineNotions.

(** ** The registry of event handlers *)

Module Handlers.

(** Builders and callbacks are compared by identity ([!==]).  For the
    registry an object is what it is identical to: a number stands for
    it. *)
Definition ref : Type := Z.

(** [client._eventBuilders] *)
Definition registry : Type := list (ref * ref).

(** [addEventHandler]; [raw] is the object [new raw({})] creates when no
    event is given.  (The assignment [event.client = client] changes the
    builder, not the registry.) *)
Definition addEventHandler (_eventBuilders : registry) (callback : ref)
  (event : option ref) (raw : ref) : registry :=
  let event := match event with
               | None => raw
               | Some e => e
               end in
  _eventBuilders ++ [(event, callback)].

(** [removeEventHandler] *)
Definition removeEventHandler (_eventBuilders : registry) (callback event : ref)
  : registry :=
  List.filter (fun item => negb (fst item =? event) && negb (snd item =? callback))
    _eventBuilders.

(** [listEventHandlers] *)
Definition listEventHandlers (_eventBuilders : registry) : registry := _eventBuilders.

(** No handler of the registry has the builder or the callback. *)
Definition unrelated (_eventBuilders : registry) (callback event : ref) : Prop :=
  Forall (fun item => fst item <> event /\ snd item <> callback) _eventBuilders.

End Handlers.

(** ** [attempts] *)

Module Attempts.
Import Updates.

Section Retry.

Variable A : Type.

(** The loop of [attempts] from [i] on.  [calls] holds what the
    successive calls of [cb] do; the result is what [attempts] returns
    or throws ([undefined] is [None]), the pauses slept, and the calls
    left; it is [None] when [calls] runs out.  [times] is a whole number
    at every call of [attempts] in the file. *)
Fixpoint attemptsFrom (calls : list (outcome A)) (i times pause : Z)
  : option (outcome (option A) * list Z * list (outcome A)) :=
  match calls with
  | [] => if i <? times then None else Some (Return None, [], [])
  | call :: rest =>
      if i <? times then
        match call with
        | Return a => Some (Return (Some a), [], rest)
        | Raise err =>
            if i =? times - 1 then Some (Raise err, [], rest)
            else
              match attemptsFrom rest (i + 1) times pause with
              | Some (r, slept, rest') => Some (r, pause :: slept, rest')
              | None => None
              end
        end
      else Some (Return None, [], calls)
  end.

Definition attempts (calls : list (outcome A)) (times pause : Z)
  : option (outcome (option A) * list Z * list (outcome A)) :=
  attemptsFrom calls 0 times pause.

End Retry.

Arguments attemptsFrom {A} calls i times pause.
Arguments attempts {A} calls times pause.

End Attempts.

(** ** Notions used to state further facts about the parser *)

Module SchemaNotions.
Import Regex Parser.

(** [s'] is a rest of [s]: what follows some prefix of it. *)
Definition suffix (s' s : str) : Prop := exists pre, s = pre ++ s'.

(** What [findAll] reports for a field: the brace group, the name and
    the type. *)
Definition fieldGroups (f : field) : list (option str) :=
  [if fOpen f then Some (s2l "{") else None; Some (fName f); Some (fType f)].

(** The object of the arguments after the loop over the fields of a
    line. *)
Definition argsOf (fields : list field) : argsObject :=
  fold_left (fun o f =>
               if fOpen f then o
               else setProp (variableSnakeToCamelCase (fName f))
                      (buildArgConfig (fName f) (fType f)) o)
            fields [].

(** A word with its first letter in upper case. *)
Definition capitalize (w : str) : str :=
  match w with
  | x :: t => (if isLower x then ascii_of_N (code x - 32) else x) :: t
  | [] => []
  end.

(** The text starts with a lower-case letter. *)
Definition startsLower (s : str) : bool :=
  match s with
  | x :: _ => isLower x
  | [] => false
  end.

(** The types of the arguments in a schema: an element type, which may
    stand in a vector (written with "Vector" or "vector"), after an
    optional flag prefix [flags<suffix>.<index>?]. *)
Record argShape : Type := mkArgShape {
  flagged : option (str * str);
  vector : option bool;
  elem : str
}.

Definition flagText (a : argShape) : str :=
  match flagged a with
  | Some (suffix, index) => s2l "flags" ++ suffix ++ s2l "." ++ index ++ s2l "?"
  | None => []
  end.

Definition vectorText (a : argShape) : str :=
  match vector a with
  | Some upper => (if upper then s2l "Vector<" else s2l "vector<") ++ elem a ++ s2l ">"
  | None => elem a
  end.

Definition argTypeText (a : argShape) : str := flagText a ++ vectorText a.

Definition wfArgShape (a : argShape) : Prop :=
  elem a <> [] /\ allIn isVectorTypeChar (elem a) /\
  match flagged a with
  | Some (suffix, index) => allIn isDigit suffix /\ index <> [] /\ allIn isDigit index
  | None => True
  end.

(** The configuration of an argument of that type. *)
Definition shapeConfig (a : argShape) : ArgConfig :=
  mkArgConfig
    (match vector a with Some _ => true | None => false end)
    (match flagged a with Some _ => true | None => false end)
    (startsLower (last (splitChar "." (elem a)) []))
    (match flagged a with
     | Some (suffix, _) => Some (s2l "flags" ++ suffix)
     | None => None
     end)
    (match flagged a with
     | Some (_, index) => numberOfDigits index
     | None => Int (-1)
     end)
    false
    (Some (if str_eqb (elem a) (s2l "future_salt") then s2l "FutureSalt" else elem a))
    (vector a).

(** A part of a field name that follows an underscore: its first letter
    is put in upper case and the underscore goes, unless the part does
    not start with a lower-case letter; then the underscore stays. *)
Definition camelPart (w : str) : str :=
  if startsLower w then capitalize w else "_"%char :: w.

(** The type "flags.2?Vector<long>". *)
Definition sampleShape : argShape :=
  mkArgShape (Some ([], s2l "2")) (Some true) (s2l "long").

Definition sampleNonce : field := mkField false (s2l "nonce") (s2l "int128") false.

(** [s] ends with the character [c]. *)
Definition endsWith (c : ascii) (s : str) : Prop := exists pre, s = pre ++ [c].

(** A line of a schema: a section marker [---w---] or a definition. *)
Inductive schemaLine : Type :=
| MarkerLine (w : str)
| DefinitionLine (name : str) (id : option str) (fields : list field) (res : str).

Definition textOfLine (l : schemaLine) : str :=
  match l with
  | MarkerLine w => s2l "---" ++ w ++ s2l "---"
  | DefinitionLine name id fields res => lineText name id fields res
  end.

Definition wfSchemaLine (l : schemaLine) : Prop :=
  match l with
  | MarkerLine w => w <> [] /\ allIn isWord w
  | DefinitionLine name id fields res => wfLine name id fields res
  end.

(** The lines of a schema, each but the last followed by a line feed. *)
Fixpoint schemaText (ls : list schemaLine) : str :=
  match ls with
  | [] => []
  | l :: rest =>
      match rest with
      | [] => textOfLine l
      | _ => textOfLine l ++ "010"%char :: schemaText rest
      end
  end.

(** The section after the lines [ls], when it was [isF] before them:
    the last marker decides. *)
Definition sectionAfter (isF : bool) (ls : list schemaLine) : bool :=
  fold_left (fun isF l => match l with
                          | MarkerLine w => str_eqb w (s2l "functions")
                          | DefinitionLine _ _ _ _ => isF
                          end) ls isF.

(** The section a line stands in that follows the lines [ls] of a
    schema: "functions" or not. *)
Definition inFunctions (ls : list schemaLine) : bool := sectionAfter false ls.

Definition sampleLine : schemaLine :=
  DefinitionLine (s2l "foo") (Some (s2l "1a2b3c4d"))
    [mkField false (s2l "x") (s2l "int") false] (s2l "Bar").

End SchemaNotions.

(** * Part II: the properties *)

Module BasicFacts.

Lemma str_eqb_eq (a b : str) : str_eqb a b = true <-> a = b.
Proof.
  unfold str_eqb. destruct (list_eq_dec ascii_dec a b); split; congruence.
Qed.

Lemma str_eqb_refl (a : str) : str_eqb a a = true.
Proof. now apply str_eqb_eq. Qed.

End BasicFacts.

(** ** Checks on known values *)

Module Checks.
Import Parser.

(** The standard check value of CRC-32. *)
Lemma crc32_check_value : Crc32.crc32_str (s2l "123456789") = 0xCBF43926.
Proof. vm_compute. reflexivity. Qed.

(** The id of the vector type, as the schema writes it. *)
Lemma parseInt16_vector_id : parseInt16 (Some (s2l "1cb5c415")) = Int 0x1cb5c415.
Proof. vm_compute. reflexivity. Qed.

(** The pseudo-definition of vectors is no definition line; its error
    is swallowed.  A core type is dropped, the section marker switches
    to functions. *)
Lemma parseTl_sample_schema :
  exists d,
    parseTl (s2l "boolTrue#997275b5 = Bool;
vector#1cb5c415 {t:Type} # [ t ] = Vector t;
---functions---
auth.req_pq#60469778 nonce:int128 = ResPQ; // first step") = Ok [d] /\
    name d = s2l "ReqPq" /\ namespace d = Some (s2l "auth") /\
    constructorId d = Int 0x60469778 /\ isFunction d = true /\
    keys (argsConfig d) = [s2l "nonce"].
Proof. eexists. split; [vm_compute; reflexivity|]. repeat split. Qed.

(** An explicit id beyond 2^53 is rounded by [parseInt]. *)
Lemma parseTl_long_id_rounded :
  exists d,
    parseTl (s2l "foo#20000000000001 = Bar;") = Ok [d] /\
    digitsValue 16 (s2l "20000000000001") = 2 ^ 53 + 1 /\
    constructorId d = Int (2 ^ 53).
Proof. eexists. split; [vm_compute; reflexivity|]. split; reflexivity. Qed.

End Checks.

(** ** Facts about the matcher *)

Module RegexFacts.
Import Regex.

Lemma firstn_app_sub {A} (xs rest : list A) :
  firstn (length (xs ++ rest) - length rest) (xs ++ rest) = xs.
Proof.
  rewrite length_app, Nat.add_sub, firstn_app, Nat.sub_diag, firstn_all.
  simpl. apply app_nil_r.
Qed.

Lemma m_seq n a b k s c : m n (Seq a b) k s c = m n a (m n b k) s c.
Proof. reflexivity. Qed.

Lemma m_chr n x k s c : m n (Chr x) k (x :: s) c = k s c.
Proof. simpl. now rewrite Ascii.eqb_refl. Qed.

Lemma m_chr_other n x y k s c : x <> y -> m n (Chr x) k (y :: s) c = None.
Proof.
  intros H. simpl. destruct (Ascii.eqb_spec x y); [contradiction | reflexivity].
Qed.

Lemma m_cls n p x k s c : p x = true -> m n (Cls p) k (x :: s) c = k s c.
Proof. intros H. simpl. now rewrite H. Qed.

Lemma m_opt_take n a k s c v :
  m n a k s c = Some v -> m n (Opt a) k s c = Some v.
Proof. intros H. unfold Opt. simpl. now rewrite H. Qed.

Lemma m_opt_skip n a k s c :
  m n a k s c = None -> m n (Opt a) k s c = k s c.
Proof. intros H. unfold Opt. simpl. now rewrite H. Qed.

Lemma m_star n a k s c : m n (Star a) k s c = star (length s) (m n a) k s c.
Proof. reflexivity. Qed.

Lemma m_grp n i a k s c :
  m n (Grp i a) k s c =
  m n a (fun s' c' => k s' ((i, firstn (length s - length s') s) :: c')) s c.
Proof. reflexivity. Qed.

Lemma star_S fuel body k s c :
  star (S fuel) body k s c =
  match body (fun s' c' => if (length s' <? length s)%nat
                           then star fuel body k s' c' else None) s c with
  | Some v => Some v
  | None => k s c
  end.
Proof. reflexivity. Qed.

(** A greedy run over a character class takes every character of the
    class when the continuation accepts what follows. *)
Lemma star_cls n p k xs : forall fuel rest c v,
  allIn p xs -> stops p rest ->
  (length (xs ++ rest) <= fuel)%nat ->
  k rest c = Some v ->
  star fuel (m n (Cls p)) k (xs ++ rest) c = Some v.
Proof.
  induction xs as [|x xs IH]; intros fuel rest c v Hall Hstop Hfuel Hk.
  - simpl. destruct fuel as [|fuel]; simpl; [exact Hk|].
    destruct rest as [|y rest]; simpl; [now rewrite Hk|].
    simpl in Hstop. rewrite Hstop. now rewrite Hk.
  - inversion Hall as [|? ? Hx Hxs]; subst.
    destruct fuel as [|fuel]; [simpl in Hfuel; lia|].
    rewrite star_S. cbn [app]. rewrite m_cls by assumption.
    replace (length (xs ++ rest) <? length (x :: xs ++ rest))%nat with true
      by (symmetry; apply Nat.ltb_lt; simpl; lia).
    rewrite (IH fuel rest c v); auto.
    simpl in Hfuel. lia.
Qed.

Lemma m_plus_cls n p k xs rest c v :
  xs <> [] -> allIn p xs -> stops p rest ->
  k rest c = Some v ->
  m n (Plus (Cls p)) k (xs ++ rest) c = Some v.
Proof.
  intros Hne Hall Hstop Hk.
  destruct xs as [|x xs]; [contradiction|].
  inversion Hall as [|? ? Hx Hxs]; subst.
  unfold Plus. rewrite m_seq. cbn [app]. rewrite m_cls by assumption.
  rewrite m_star. apply star_cls; auto.
Qed.

Lemma m_grp_plus_cls n i p k xs rest c v :
  xs <> [] -> allIn p xs -> stops p rest ->
  k rest ((i, xs) :: c) = Some v ->
  m n (Grp i (Plus (Cls p))) k (xs ++ rest) c = Some v.
Proof.
  intros Hne Hall Hstop Hk.
  rewrite m_grp.
  apply m_plus_cls; auto.
  now rewrite firstn_app_sub.
Qed.

End RegexFacts.

(** ** The parser *)

Module ParserFacts.
Import Regex RegexFacts Parser.

Lemma class_excludes (p : ascii -> bool) (x y : ascii) :
  p x = true -> p y = false -> y <> x.
Proof. intros Hx Hy E. subst. congruence. Qed.

Lemma stops_cons (p : ascii -> bool) (y : ascii) (rest : str) :
  p y = false -> stops p (y :: rest).
Proof. intros H. exact H. Qed.

Lemma m_field_body n k nm ty (close : bool) rest c v :
  nm <> [] -> allIn isWord nm -> ty <> [] -> allIn isArgTypeChar ty ->
  k (" "%char :: rest) c = Some v ->
  m n (Seq (Plus (Cls isWord))
        (Seq (Chr ":") (Seq (Plus (Cls isArgTypeChar)) (Opt (Chr "}")))))
    k (nm ++ ":"%char :: ty ++ (if close then s2l "}" else []) ++ " "%char :: rest) c
  = Some v.
Proof.
  intros Hn Hnw Ht Htw Hk.
  rewrite m_seq. apply m_plus_cls; auto using stops_cons.
  rewrite m_seq, m_chr, m_seq.
  apply m_plus_cls; auto.
  { destruct close; apply stops_cons; reflexivity. }
  destruct close; cbn [s2l list_ascii_of_string app].
  - apply m_opt_take. now rewrite m_chr.
  - rewrite m_opt_skip; [exact Hk|]. apply m_chr_other. discriminate.
Qed.

Lemma isWord_not (x y : ascii) : isWord x = true -> isWord y = false -> y <> x.
Proof. apply class_excludes. Qed.

Lemma m_field n k f rest c v :
  wfField f ->
  k (" "%char :: rest) c = Some v ->
  m n reField k (fieldText f ++ " "%char :: rest) c = Some v.
Proof.
  intros (Hn & Hnw & Ht & Htw) Hk.
  unfold reField, fieldText. cbn [s2l list_ascii_of_string app].
  rewrite m_seq, m_cls by reflexivity.
  rewrite m_seq.
  repeat first [rewrite <- app_assoc | progress cbn [app]].
  change (if fClose f then ["}"%char] else []) with (if fClose f then s2l "}" else []).
  destruct (fOpen f); cbn [app].
  - apply m_opt_take. rewrite m_chr. now apply m_field_body.
  - rewrite m_opt_skip; [now apply m_field_body|].
    destruct (fName f) as [|x nm]; [contradiction|].
    cbn [app]. apply m_chr_other.
    inversion Hnw; subst. now apply (isWord_not x).
Qed.

(** After the last field the repetition is left: the text " = ..." is no
    field. *)
Lemma m_field_stop n k rest c :
  m n reField k (" "%char :: "="%char :: rest) c = None.
Proof. reflexivity. Qed.

Lemma star_fields n k fields : forall fuel rest c v,
  Forall wfField fields ->
  (length (fieldsText fields ++ " "%char :: "="%char :: rest) <= fuel)%nat ->
  k (" "%char :: "="%char :: rest) c = Some v ->
  star fuel (m n reField) k (fieldsText fields ++ " "%char :: "="%char :: rest) c
  = Some v.
Proof.
  induction fields as [|f fields IH]; intros fuel rest c v Hwf Hfuel Hk.
  - cbn [fieldsText map concat app].
    destruct fuel as [|fuel]; [exact Hk|].
    rewrite star_S, m_field_stop. exact Hk.
  - inversion Hwf as [|? ? Hf Hfs]; subst.
    destruct fuel as [|fuel].
    { exfalso. revert Hfuel. unfold fieldsText, fieldText. cbn.
      lia. }
    rewrite star_S.
    unfold fieldsText in *. cbn [map concat]. rewrite <- app_assoc.
    set (tl := concat (map fieldText fields) ++ " "%char :: "="%char :: rest) in *.
    assert (Htl : exists r, tl = " "%char :: r).
    { unfold tl. destruct fields as [|g gs]; cbn; eauto. }
    destruct Htl as [r Hr].
    rewrite Hr.
    rewrite (m_field n _ f r c v Hf); [reflexivity|].
    rewrite <- Hr.
    replace (length tl <? length (fieldText f ++ tl))%nat with true.
    + apply IH; auto.
      revert Hfuel. cbn [map concat]. rewrite <- app_assoc. fold tl.
      rewrite length_app. unfold fieldText. cbn. lia.
    + symmetry. apply Nat.ltb_lt. rewrite length_app. unfold fieldText. cbn. lia.
Qed.

Lemma fields_head fields rest :
  exists r, fieldsText fields ++ " "%char :: rest = " "%char :: r.
Proof. destruct fields as [|g gs]; cbn; eauto. Qed.

Lemma m_line_tail n fields res c :
  Forall wfField fields -> res <> [] -> allIn isResultChar res ->
  m n (Seq (Star reField)
        (Seq (Cls isSpace) (Seq (Chr "=") (Seq (Cls isSpace)
          (Seq (Grp 3 (Plus (Cls isResultChar))) (Seq (Chr ";") Eol))))))
    accept (fieldsText fields ++ s2l " = " ++ res ++ s2l ";") c
  = Some ([], (3%nat, res) :: c).
Proof.
  intros Hf Hr Hrw.
  rewrite m_seq, m_star. cbn [s2l list_ascii_of_string app].
  apply star_fields; auto.
  rewrite m_seq, m_cls, m_seq, m_chr, m_seq, m_cls by reflexivity.
  rewrite m_seq. apply m_grp_plus_cls; auto.
  now apply stops_cons.
Qed.

Lemma m_line n name id fields res :
  wfLine name id fields res ->
  m n reLine accept (lineText name id fields res) [] =
  Some ([], lineCaps name id res).
Proof.
  intros (Hn & Hnw & Hid & Hf & Hr & Hrw).
  unfold reLine, lineText, lineCaps.
  rewrite m_seq.
  destruct (fields_head fields ("="%char :: " "%char :: res ++ s2l ";")) as [r Hr'].
  apply m_grp_plus_cls; auto.
  { destruct id; cbn [idText s2l list_ascii_of_string app].
    - now apply stops_cons.
    - cbn [s2l list_ascii_of_string app] in *. rewrite Hr'. now apply stops_cons. }
  rewrite m_seq.
  destruct id as [h|]; cbn [idText s2l list_ascii_of_string app].
  - destruct Hid as [Hh Hhw].
    apply m_opt_take. rewrite m_seq, m_chr.
    apply m_grp_plus_cls; auto.
    { cbn [s2l list_ascii_of_string app] in *. rewrite Hr'. now apply stops_cons. }
    now apply m_line_tail.
  - rewrite m_opt_skip.
    + now apply m_line_tail.
    + cbn [s2l list_ascii_of_string app] in *. rewrite Hr'.
      rewrite m_seq. apply m_chr_other. discriminate.
Qed.

Lemma search_hit n r s s' c :
  m n r accept s [] = Some (s', c) ->
  search n r s = Some (Found [] (firstn (length s - length s') s) c s').
Proof. intros H. destruct s; simpl; simpl in H; now rewrite H. Qed.

(** A well-formed definition line is matched from its first character,
    with the name, the id and the result type as the three groups. *)
Lemma exec_line name id fields res :
  wfLine name id fields res ->
  exec reLine (lineText name id fields res) =
  Some (Found [] (lineText name id fields res) (lineCaps name id res) []).
Proof.
  intros H. unfold exec.
  rewrite (search_hit _ _ _ _ _ (m_line _ name id fields res H)).
  cbn [length]. now rewrite Nat.sub_0_r, firstn_all.
Qed.

Lemma takeWhile_all {A} (p : A -> bool) (l : list A) :
  Forall (fun x => p x = true) l -> takeWhile p l = l.
Proof. induction 1 as [|x l Hx _ IH]; simpl; [reflexivity|]. now rewrite Hx, IH. Qed.

Lemma parseInt16_hex h :
  h <> [] -> allIn isHex h -> digitsValue 16 h < 2 ^ 53 ->
  parseInt16 (Some h) = Int (digitsValue 16 h).
Proof.
  intros Hne Hall Hlt. unfold parseInt16. rewrite takeWhile_all by exact Hall.
  destruct h as [|x h]; [contradiction|].
  unfold toDouble. now apply Z.ltb_lt in Hlt; rewrite Hlt.
Qed.

Lemma addArgs_constructorId l : forall config,
  constructorId (addArgs config l) = constructorId config.
Proof.
  unfold addArgs.
  induction l as [|a l IH]; intros config; [reflexivity|].
  cbn [fold_left]. rewrite IH.
  destruct a as [|brace [|nm [|ty [|? ?]]]]; try reflexivity.
  now destruct brace.
Qed.

Lemma finishName_constructorId config def :
  finishName config = Ok def -> constructorId def = constructorId config.
Proof.
  unfold finishName.
  destruct (includes (s2l ".") (name config)).
  - destruct (nth 1 (split reDotRest 1 (name config)) None); [|discriminate].
    intros H; injection H as <-. reflexivity.
  - intros H; injection H as <-. reflexivity.
Qed.

Lemma finishName_plain config :
  includes (s2l ".") (name config) = false ->
  exists def, finishName config = Ok def.
Proof. intros H. unfold finishName. rewrite H. eauto. Qed.

Lemma fromLine_wf name id fields res isF :
  wfLine name id fields res ->
  fromLine (lineText name id fields res) isF =
  finishName
    (addArgs
       (deriveId (initialConfig
          (Found [] (lineText name id fields res) (lineCaps name id res) []) isF))
       (findAll reArg 3 (lineText name id fields res))).
Proof. intros H. unfold fromLine. now rewrite (exec_line _ _ _ _ H). Qed.

Lemma group2_lineCaps name h res : group 2 (lineCaps name (Some h) res) = Some h.
Proof. reflexivity. Qed.

Lemma group1_lineCaps name id res : group 1 (lineCaps name id res) = Some name.
Proof. destruct id; reflexivity. Qed.

Lemma group3_lineCaps name id res : group 3 (lineCaps name id res) = Some res.
Proof. destruct id; reflexivity. Qed.

(** On a well-formed line with a non-zero id that a Number holds
    exactly, [fromLine] keeps the id. *)
Lemma fromLine_explicit_id name h fields res isF def :
  wfLine name (Some h) fields res ->
  0 < digitsValue 16 h < 2 ^ 53 ->
  fromLine (lineText name (Some h) fields res) isF = Ok def ->
  constructorId def = Int (digitsValue 16 h).
Proof.
  intros Hwf [Hpos Hlt] Hfrom.
  rewrite (fromLine_wf _ _ _ _ _ Hwf) in Hfrom.
  apply finishName_constructorId in Hfrom.
  rewrite Hfrom, addArgs_constructorId.
  destruct Hwf as (_ & _ & [Hh Hhw] & _).
  unfold deriveId, initialConfig. cbn [constructorId groups].
  rewrite group2_lineCaps, parseInt16_hex by assumption.
  cbn [falsy]. replace (digitsValue 16 h =? 0) with false by (symmetry; apply Z.eqb_neq; lia).
  reflexivity.
Qed.

Lemma plain_of_class (p : ascii -> bool) :
  p "/"%char = false -> p "-"%char = false -> p "010"%char = false ->
  forall x, p x = true -> plainChar x = true.
Proof.
  intros H1 H2 H3 x Hx. unfold plainChar.
  destruct (Ascii.eqb_spec x "/"); [subst; congruence|].
  destruct (Ascii.eqb_spec x "-"); [subst; congruence|].
  destruct (Ascii.eqb_spec x "010"); [subst; congruence|].
  reflexivity.
Qed.

Lemma allIn_plain (p : ascii -> bool) xs :
  p "/"%char = false -> p "-"%char = false -> p "010"%char = false ->
  allIn p xs -> allIn plainChar xs.
Proof.
  intros H1 H2 H3 H. eapply Forall_impl; [|exact H].
  intros x. now apply plain_of_class.
Qed.

Lemma allIn_app (p : ascii -> bool) a b : allIn p a -> allIn p b -> allIn p (a ++ b).
Proof. intros Ha Hb. apply Forall_app. now split. Qed.

Lemma allIn_cons (p : ascii -> bool) x b : p x = true -> allIn p b -> allIn p (x :: b).
Proof. intros Hx Hb. now constructor. Qed.

Lemma allIn_nil (p : ascii -> bool) : allIn p [].
Proof. constructor. Qed.

Lemma nameChars_plain xs : allIn isNameChar xs -> allIn plainChar xs.
Proof. now apply allIn_plain. Qed.

Lemma wordChars_plain xs : allIn isWord xs -> allIn plainChar xs.
Proof. now apply allIn_plain. Qed.

Lemma argTypeChars_plain xs : allIn isArgTypeChar xs -> allIn plainChar xs.
Proof. now apply allIn_plain. Qed.

Lemma resultChars_plain xs : allIn isResultChar xs -> allIn plainChar xs.
Proof. now apply allIn_plain. Qed.

Lemma hexChars_plain xs : allIn isHex xs -> allIn plainChar xs.
Proof. now apply allIn_plain. Qed.

Lemma field_plain f : wfField f -> allIn plainChar (fieldText f).
Proof.
  intros (_ & Hnw & _ & Htw). unfold fieldText.
  cbn [s2l list_ascii_of_string app].
  apply allIn_cons; [reflexivity|].
  apply allIn_app.
  { destruct (fOpen f); [apply allIn_cons; [reflexivity|]|]; apply allIn_nil. }
  apply allIn_app; [now apply wordChars_plain|].
  apply allIn_cons; [reflexivity|].
  apply allIn_app; [now apply argTypeChars_plain|].
  destruct (fClose f); [apply allIn_cons; [reflexivity|]|]; apply allIn_nil.
Qed.

Lemma fields_plain fields : Forall wfField fields -> allIn plainChar (fieldsText fields).
Proof.
  induction 1 as [|f fields Hf _ IH]; [constructor|].
  unfold fieldsText. cbn [map concat]. apply allIn_app; [now apply field_plain|exact IH].
Qed.

Lemma line_plain name id fields res :
  wfLine name id fields res -> allIn plainChar (lineText name id fields res).
Proof.
  intros (_ & Hnw & Hid & Hf & _ & Hrw). unfold lineText.
  apply allIn_app; [now apply nameChars_plain|].
  apply allIn_app.
  { destruct id as [h|]; [|apply allIn_nil]. destruct Hid as [_ Hh].
    cbn [idText s2l list_ascii_of_string app].
    apply allIn_cons; [reflexivity|]. now apply hexChars_plain. }
  apply allIn_app; [now apply fields_plain|].
  cbn [s2l list_ascii_of_string app].
  do 3 (apply allIn_cons; [reflexivity|]).
  apply allIn_app; [now apply resultChars_plain|].
  apply allIn_cons; [reflexivity|]. apply allIn_nil.
Qed.

Lemma splitChar_plain s : allIn plainChar s -> splitChar "010" s = [s].
Proof.
  induction 1 as [|x s Hx _ IH]; [reflexivity|].
  cbn [splitChar]. rewrite IH.
  destruct (Ascii.eqb_spec x "010"); [subst; discriminate|reflexivity].
Qed.

Lemma stripComment_plain s : allIn plainChar s -> stripComment s = s.
Proof.
  induction 1 as [|x s Hx _ IH]; [reflexivity|].
  cbn [stripComment startsWith s2l list_ascii_of_string]. rewrite IH.
  destruct (Ascii.eqb_spec "/" x); [subst; discriminate|reflexivity].
Qed.

Lemma search_section_plain n s : allIn plainChar s -> search n reSection s = None.
Proof.
  induction 1 as [|x s Hx _ IH]; [reflexivity|].
  cbn [search]. rewrite IH.
  unfold reSection, Lit. cbn [s2l list_ascii_of_string fold_right].
  rewrite !m_seq, m_chr_other; [reflexivity|].
  intros <-. discriminate.
Qed.

Lemma dropWhileEnd_last (p : ascii -> bool) (y : ascii) xs :
  p y = false -> dropWhileEnd p (xs ++ [y]) = xs ++ [y].
Proof.
  intros Hy. induction xs as [|x xs IH].
  - cbn. now rewrite Hy.
  - unfold dropWhileEnd in *. cbn [app fold_right]. rewrite IH.
    destruct xs; reflexivity.
Qed.

Lemma trim_line name id fields res :
  wfLine name id fields res ->
  trim (lineText name id fields res) = lineText name id fields res.
Proof.
  intros (Hn & Hnw & _). unfold trim.
  assert (Hd : dropWhile isSpace (lineText name id fields res)
               = lineText name id fields res).
  { unfold lineText. destruct name as [|x name]; [contradiction|].
    inversion Hnw; subst. cbn [app dropWhile].
    replace (isSpace x) with false; [reflexivity|].
    symmetry. destruct (isSpace x) eqn:E; [|reflexivity].
    exfalso. revert E. 
    assert (Hc : forall y, isNameChar y = true -> isSpace y = false).
    { intros y Hy. destruct y as [[] [] [] [] [] [] [] []]; 
        first [reflexivity | discriminate Hy]. }
    rewrite (Hc x) by assumption. discriminate. }
  rewrite Hd. unfold lineText.
  rewrite !app_assoc. apply dropWhileEnd_last. reflexivity.
Qed.

Lemma patchAuthKey_constructorId d :
  constructorId (patchAuthKey d) = constructorId d.
Proof. unfold patchAuthKey. now destruct (has AUTH_KEY_TYPES (constructorId d)). Qed.

(** [parseTl] on a schema made of one well-formed definition line. *)
Lemma parseTl_one_line name id fields res :
  wfLine name id fields res ->
  parseTl (lineText name id fields res) =
  match fromLine (lineText name id fields res) false with
  | Ok d => if has CORE_TYPES (constructorId d) then Ok [] else Ok [patchAuthKey d]
  | Throw e => if negb (includes (s2l "vector#1cb5c415") e) then Throw e else Ok []
  end.
Proof.
  intros Hwf. pose proof (line_plain _ _ _ _ Hwf) as Hp.
  unfold parseTl. rewrite splitChar_plain by exact Hp.
  cbn [parseLines]. rewrite stripComment_plain, trim_line by assumption.
  assert (Hne : exists a s, lineText name id fields res = a :: s).
  { destruct Hwf as (Hn & _). unfold lineText.
    destruct name as [|a nm]; [contradiction|]. cbn [app]. eauto. }
  destruct Hne as (a & s & E). rewrite E at 1. cbv iota.
  unfold exec. rewrite search_section_plain by exact Hp.
  destruct (fromLine (lineText name id fields res) false) as [d|e].
  - now destruct (has CORE_TYPES (constructorId d)).
  - now destruct (negb (includes (s2l "vector#1cb5c415") e)).
Qed.

Lemma addArgs_name l : forall config, name (addArgs config l) = name config.
Proof.
  unfold addArgs.
  induction l as [|a l IH]; intros config; [reflexivity|].
  cbn [fold_left]. rewrite IH.
  destruct a as [|brace [|nm [|ty [|? ?]]]]; try reflexivity.
  now destruct brace.
Qed.

Lemma deriveId_name config : name (deriveId config) = name config.
Proof. unfold deriveId. now destruct (falsy (constructorId config)). Qed.

(** Without an id in the line, the text that is hashed is made of the
    name and the result type only: at that point of [fromLine] the
    object of the arguments is still empty. *)
Lemma fromLine_derived_id name fields res isF def :
  wfLine name None fields res ->
  fromLine (lineText name None fields res) isF = Ok def ->
  constructorId def =
  Int (Crc32.crc32 (Crc32.utf8 (normalize (name ++ s2l " = " ++ res)))).
Proof.
  intros Hwf Hfrom.
  rewrite (fromLine_wf _ _ _ _ _ Hwf) in Hfrom.
  apply finishName_constructorId in Hfrom.
  rewrite Hfrom, addArgs_constructorId.
  reflexivity.
Qed.

(** C1. The line "foo field:int = Bar;" has no explicit id.  [parseTl]
    gives it the CRC32 of "foo = Bar": the field name is missing from
    the hashed text, so the id is not the CRC32 of "foo field = Bar"
    that the specification asks for. *)
Theorem C1_field_names_missing_from_hashed_text :
  exists d,
    parseTl (s2l "foo field:int = Bar;") = Ok [d] /\
    constructorId d = Int (Crc32.crc32_str (s2l "foo = Bar")) /\
    constructorId d <> Int (Crc32.crc32_str (s2l "foo field = Bar")) /\
    keys (argsConfig d) = [s2l "field"].
Proof.
  eexists. split; [vm_compute; reflexivity|].
  split; [vm_compute; reflexivity|].
  split; [vm_compute; discriminate|reflexivity].
Qed.

(** C5, as stated, fails for the explicit id 0: [!config.constructorId]
    takes 0 for a missing id, and the id is replaced by the derived
    checksum. *)
Lemma C5_explicit_zero_id_replaced :
  exists d,
    parseTl (lineText (s2l "foo") (Some (s2l "0")) [] (s2l "Bar")) = Ok [d] /\
    lineText (s2l "foo") (Some (s2l "0")) [] (s2l "Bar") = s2l "foo#0 = Bar;" /\
    constructorId d = Int (Crc32.crc32_str (s2l "foo = Bar")) /\
    constructorId d <> Int (digitsValue 16 (s2l "0")).
Proof.
  eexists. split; [vm_compute; reflexivity|].
  split; [reflexivity|].
  split; [vm_compute; reflexivity|vm_compute; discriminate].
Qed.

(** C5, amended.  For a definition line [name#hex fields = Result;]
    whose explicit id is not zero and is below 2^53 (so that a Number
    holds it exactly), every definition that [fromLine] or [parseTl]
    produces for the line has exactly that id; and [parseTl] does
    produce one when the name has no dot and the id is not one of the
    core ids that are dropped. *)
Theorem C5_nonzero_explicit_id_kept
  (name h : str) (fields : list field) (res : str) :
  wfLine name (Some h) fields res ->
  0 < digitsValue 16 h < 2 ^ 53 ->
  (forall isF def,
     fromLine (lineText name (Some h) fields res) isF = Ok def ->
     constructorId def = Int (digitsValue 16 h))
  /\
  (forall defs def,
     parseTl (lineText name (Some h) fields res) = Ok defs ->
     In def defs -> constructorId def = Int (digitsValue 16 h))
  /\
  (includes (s2l ".") name = false ->
   has CORE_TYPES (Int (digitsValue 16 h)) = false ->
   exists def,
     parseTl (lineText name (Some h) fields res) = Ok [def] /\
     constructorId def = Int (digitsValue 16 h)).
Proof.
  intros Hwf Hrange.
  assert (Hfrom : forall isF def,
    fromLine (lineText name (Some h) fields res) isF = Ok def ->
    constructorId def = Int (digitsValue 16 h)).
  { intros isF def. now apply fromLine_explicit_id. }
  split; [exact Hfrom|]. split.
  - intros defs def Hparse Hin.
    rewrite (parseTl_one_line _ _ _ _ Hwf) in Hparse.
    destruct (fromLine (lineText name (Some h) fields res) false) as [d|e] eqn:E.
    + destruct (has CORE_TYPES (constructorId d)); injection Hparse as <-.
      * contradiction.
      * destruct Hin as [<-|[]]. rewrite patchAuthKey_constructorId. now apply (Hfrom false).
    + destruct (negb (includes (s2l "vector#1cb5c415") e)); [discriminate|].
      injection Hparse as <-. contradiction.
  - intros Hdot Hcore.
    rewrite (parseTl_one_line _ _ _ _ Hwf).
    destruct (finishName_plain
                (addArgs
                   (deriveId (initialConfig
                      (Found [] (lineText name (Some h) fields res)
                         (lineCaps name (Some h) res) []) false))
                   (findAll reArg 3 (lineText name (Some h) fields res))))
      as [def Hdef].
    { rewrite addArgs_name, deriveId_name. exact Hdot. }
    rewrite (fromLine_wf _ _ _ _ _ Hwf), Hdef.
    rewrite <- (fromLine_wf _ _ _ _ false Hwf) in Hdef.
    rewrite (Hfrom false def Hdef), Hcore.
    eexists. split; [reflexivity|].
    rewrite patchAuthKey_constructorId. now apply (Hfrom false).
Qed.

Lemma sample_wfLine :
  wfLine (s2l "foo") (Some (s2l "1a2b3c4d"))
    [mkField false (s2l "x") (s2l "int") false] (s2l "Bar").
Proof.
  unfold wfLine.
  split; [discriminate|]. split; [repeat constructor|].
  split; [split; [discriminate|repeat constructor]|].
  split.
  - constructor; [|constructor]. unfold wfField. cbn [fName fType].
    split; [discriminate|]. split; [repeat constructor|].
    split; [discriminate|repeat constructor].
  - split; [discriminate|repeat constructor].
Qed.

(** The line "foo#1a2b3c4d x:int = Bar;". *)
Lemma C5_nonzero_explicit_id_kept_witness :
  (forall isF def,
     fromLine (lineText (s2l "foo") (Some (s2l "1a2b3c4d"))
                 [mkField false (s2l "x") (s2l "int") false] (s2l "Bar")) isF = Ok def ->
     constructorId def = Int (digitsValue 16 (s2l "1a2b3c4d")))
  /\
  (forall defs def,
     parseTl (lineText (s2l "foo") (Some (s2l "1a2b3c4d"))
                [mkField false (s2l "x") (s2l "int") false] (s2l "Bar")) = Ok defs ->
     In def defs -> constructorId def = Int (digitsValue 16 (s2l "1a2b3c4d")))
  /\
  (includes (s2l ".") (s2l "foo") = false ->
   has CORE_TYPES (Int (digitsValue 16 (s2l "1a2b3c4d"))) = false ->
   exists def,
     parseTl (lineText (s2l "foo") (Some (s2l "1a2b3c4d"))
                [mkField false (s2l "x") (s2l "int") false] (s2l "Bar")) = Ok [def] /\
     constructorId def = Int (digitsValue 16 (s2l "1a2b3c4d"))).
Proof.
  apply (C5_nonzero_explicit_id_kept (s2l "foo") (s2l "1a2b3c4d")
           [mkField false (s2l "x") (s2l "int") false] (s2l "Bar")).
  - exact sample_wfLine.
  - vm_compute. split; reflexivity.
Defined.

(** The renaming at the head of [buildArgConfig] has no effect: the
    configuration does not depend on the name it is given. *)
Lemma buildArgConfig_ignores_name n1 n2 argType :
  buildArgConfig n1 argType = buildArgConfig n2 argType.
Proof. reflexivity. Qed.

(** C6. A field named "self" is stored in [argsConfig] under the key
    "self": the renaming to "is_self" happens inside [buildArgConfig],
    on a variable that is not used afterwards, while the key is computed
    in [fromLine] from the name as declared. *)
Theorem C6_self_field_keeps_its_key :
  exists d,
    parseTl (s2l "user self:flags.10?true id:long = User;") = Ok [d] /\
    keys (argsConfig d) = [s2l "self"; s2l "id"] /\
    ~ In (s2l "is_self") (keys (argsConfig d)) /\
    variableSnakeToCamelCase (s2l "self") = s2l "self".
Proof.
  eexists. split; [vm_compute; reflexivity|].
  split; [reflexivity|]. split; [|reflexivity].
  cbn. intros [H|[H|[]]]; discriminate.
Qed.

End ParserFacts.

(** ** IGE *)

Module IGEFacts.
Import IGE.

Lemma xorByte_involutive (a b : byte) : xorByte (xorByte a b) b = a.
Proof.
  unfold xorByte.
  destruct (Byte.to_bits a) as (a0 & a1 & a2 & a3 & a4 & a5 & a6 & a7) eqn:Ea.
  destruct (Byte.to_bits b) as (b0 & b1 & b2 & b3 & b4 & b5 & b6 & b7) eqn:Eb.
  rewrite Byte.to_bits_of_bits.
  rewrite !xorb_assoc, !xorb_nilpotent, !xorb_false_r.
  rewrite <- Ea. apply Byte.of_bits_to_bits.
Qed.

Lemma xorBuffers_length (a b : buffer) : length (xorBuffers a b) = length a.
Proof.
  revert b. induction a as [|x a IH]; intros b; [reflexivity|].
  destruct b; simpl; now rewrite IH.
Qed.

Lemma xorBuffers_involutive (a b : buffer) : xorBuffers (xorBuffers a b) b = a.
Proof.
  revert b. induction a as [|x a IH]; intros b; [reflexivity|].
  destruct b as [|y b]; simpl.
  - f_equal. apply (IH []).
  - now rewrite xorByte_involutive, IH.
Qed.

Lemma slice_middle (pre b post : buffer) :
  slice (pre ++ b ++ post) (length pre) (length pre + length b) = b.
Proof.
  unfold slice. rewrite skipn_app, skipn_all, Nat.sub_diag. simpl.
  replace (length pre + length b - length pre)%nat with (length b) by lia.
  rewrite firstn_app, firstn_all, Nat.sub_diag. simpl. apply app_nil_r.
Qed.

Lemma copy_length (src target : buffer) (i : nat) :
  (i <= length target)%nat -> length (copy src target i) = length target.
Proof.
  intros H. unfold copy.
  rewrite !length_app, !length_firstn, length_skipn. lia.
Qed.

Lemma copy_block (done src : buffer) (n : nat) :
  copy src (done ++ alloc (length src + n)) (length done) = done ++ src ++ alloc n.
Proof.
  unfold copy, alloc.
  rewrite firstn_app, firstn_all, Nat.sub_diag. simpl. rewrite app_nil_r.
  rewrite length_app, repeat_length.
  replace (length done + (length src + n) - length done)%nat with (length src + n)%nat by lia.
  rewrite firstn_all2 by lia.
  rewrite skipn_app, skipn_all2 by lia. simpl.
  replace (length done + length src - length done)%nat with (length src) by lia.
  rewrite repeat_app, skipn_app, skipn_all2 by (rewrite repeat_length; lia).
  rewrite repeat_length, Nat.sub_diag. reflexivity.
Qed.

Lemma copy_block_at (done src : buffer) (n i k : nat) :
  i = length done -> k = (length src + n)%nat ->
  copy src (done ++ alloc k) i = done ++ src ++ alloc n.
Proof. intros -> ->. apply copy_block. Qed.

Lemma slice_block (pre b post : buffer) (i : nat) :
  length b = 16%nat -> i = length pre ->
  slice (pre ++ b ++ post) i (i + 16) = b.
Proof. intros <- ->. apply slice_middle. Qed.

Lemma concat_length16 blocks :
  blocks16 blocks -> length (concat blocks) = (16 * length blocks)%nat.
Proof.
  induction 1 as [|b blocks Hb _ IH]; [reflexivity|].
  simpl concat. rewrite length_app, IH, Hb. simpl length. lia.
Qed.

Lemma chunk16 : forall n (l : buffer),
  length l = (16 * n)%nat ->
  exists blocks, l = concat blocks /\ blocks16 blocks /\ length blocks = n.
Proof.
  induction n as [|n IH]; intros l Hl.
  - exists []. destruct l; [repeat split; constructor|simpl in Hl; lia].
  - destruct (IH (skipn 16 l)) as (bs & Hbs & H16 & Hn).
    { rewrite length_skipn. lia. }
    exists (firstn 16 l :: bs). repeat split.
    + cbn [concat]. rewrite <- Hbs. symmetry. apply firstn_skipn.
    + constructor; [|exact H16]. rewrite length_firstn. lia.
    + cbn [length]. now rewrite Hn.
Qed.

Section RoundTrip.

Variable aesEncrypt : buffer -> buffer -> result buffer.
Variable aesDecrypt : buffer -> buffer -> result buffer.
Variable generateRandomBytes : nat -> buffer.

(** What the class relies on from node:crypto: with a 32-byte key a
    16-byte block is encrypted to a 16-byte block, which decrypts to the
    block it came from. *)
Hypothesis aes_roundtrip : forall k b,
  length k = 32%nat -> length b = 16%nat ->
  exists o, aesEncrypt k b = Ok o /\ length o = 16%nat /\ aesDecrypt k o = Ok b.

Hypothesis random_length : forall n, length (generateRandomBytes n) = n.

Variable this : IGE.
Hypothesis key_length : length (key this) = 32%nat.

Lemma loops_blockwise : forall blocks, blocks16 blocks ->
  forall pc pp pre done fuel,
  length pre = length done -> (length blocks <= fuel)%nat ->
  exists cblocks,
    blocks16 cblocks /\ length cblocks = length blocks /\
    encryptLoop aesEncrypt fuel this (pre ++ concat blocks) (length pre) pc pp
      (done ++ alloc (length (concat blocks))) = Ok (done ++ concat cblocks) /\
    forall pre' done' fuel',
      length pre' = length done' -> (length cblocks <= fuel')%nat ->
      decryptLoop aesDecrypt fuel' this (pre' ++ concat cblocks) (length pre') pc pp
        (done' ++ alloc (length (concat cblocks))) = Ok (done' ++ concat blocks).
Proof.
  induction 1 as [|b blocks Hb Hbs IH]; intros pc pp pre done fuel Hlen Hfuel.
  - exists []. repeat split; [constructor| |].
    + cbn [concat length alloc repeat]. rewrite !app_nil_r.
      destruct fuel; cbn [encryptLoop]; [reflexivity|].
      now rewrite Nat.ltb_irrefl.
    + intros pre' done' fuel' _ _. cbn [concat length alloc repeat].
      rewrite !app_nil_r.
      destruct fuel'; cbn [decryptLoop]; [reflexivity|].
      now rewrite Nat.ltb_irrefl.
  - destruct fuel as [|fuel]; [cbn in Hfuel; lia|].
    destruct (aes_roundtrip (key this) (xorBuffers b pc) key_length)
      as (o & Henc & Ho & Hdec).
    { now rewrite xorBuffers_length. }
    set (cb := xorBuffers o pp).
    assert (Hcb : length cb = 16%nat) by (unfold cb; now rewrite xorBuffers_length).
    destruct (IH cb b (pre ++ b) (done ++ cb) fuel) as (cbs & Hc16 & Hclen & Hencl & Hdecl).
    { rewrite !length_app. lia. }
    { cbn [length] in Hfuel. lia. }
    exists (cb :: cbs). split; [now constructor|]. split; [cbn [length]; lia|]. split.
    + cbn [encryptLoop concat].
      replace (length pre <? length (pre ++ b ++ concat blocks))%nat with true
        by (symmetry; apply Nat.ltb_lt; rewrite !length_app; lia).
      rewrite slice_block by auto.
      unfold aesEncryptBlock. rewrite Henc. fold cb.
      rewrite (copy_block_at done cb (length (concat blocks)))
        by (rewrite ?length_app; lia).
      replace (length pre + 16)%nat with (length (pre ++ b)) by (rewrite length_app; lia).
      rewrite (app_assoc pre b), (app_assoc done cb), Hencl.
      now rewrite <- app_assoc.
    + intros pre' done' fuel' Hlen' Hfuel'.
      destruct fuel' as [|fuel']; [cbn in Hfuel'; lia|].
      cbn [decryptLoop concat].
      replace (length pre' <? length (pre' ++ cb ++ concat cbs))%nat with true
        by (symmetry; apply Nat.ltb_lt; rewrite !length_app; lia).
      rewrite slice_block by auto.
      unfold aesDecryptBlock, cb at 1. rewrite xorBuffers_involutive, Hdec.
      rewrite xorBuffers_involutive.
      rewrite (copy_block_at done' b (length (concat cbs)))
        by (rewrite ?length_app; lia).
      replace (length pre' + 16)%nat with (length (pre' ++ cb)) by (rewrite length_app; lia).
      rewrite (app_assoc pre' cb), (app_assoc done' b), Hdecl.
      * now rewrite <- app_assoc.
      * rewrite !length_app. lia.
      * cbn [length] in Hfuel'. lia.
Qed.

Lemma padded_length plainText :
  exists n, length (plainText ++ paddingTail generateRandomBytes plainText) = (16 * n)%nat.
Proof.
  unfold paddingTail.
  pose proof (Nat.div_mod_eq (length plainText) 16) as Hdm.
  pose proof (Nat.mod_upper_bound (length plainText) 16 ltac:(lia)) as Hub.
  destruct (length plainText mod 16 =? 0)%nat eqn:E; cbn [negb].
  - apply Nat.eqb_eq in E. exists (length plainText / 16)%nat.
    rewrite app_nil_r. lia.
  - apply Nat.eqb_neq in E. exists (S (length plainText / 16)).
    rewrite length_app, random_length. lia.
Qed.

Lemma mod16_blocks blocks : blocks16 blocks -> (length (concat blocks) mod 16 =? 0)%nat = true.
Proof.
  intros H. rewrite (concat_length16 _ H), Nat.mul_comm, Nat.Div0.mod_mul.
  reflexivity.
Qed.

Lemma roundtrip_padded plainText :
  exists cipherText,
    encryptIge aesEncrypt generateRandomBytes this plainText = Ok cipherText /\
    length cipherText = length (plainText ++ paddingTail generateRandomBytes plainText) /\
    decryptIge aesDecrypt this cipherText = Ok (plainText ++ paddingTail generateRandomBytes plainText).
Proof.
  destruct (padded_length plainText) as (n & Hn).
  destruct (chunk16 n _ Hn) as (blocks & Hcat & H16 & Hnb).
  destruct (loops_blockwise blocks H16
              (slice (iv this) 0 16) (slice (iv this) 16 (2 * 16)) [] []
              (length (concat blocks)))
    as (cblocks & Hc16 & Hclen & Henc & Hdec); [reflexivity| |].
  { rewrite (concat_length16 _ H16). lia. }
  exists (concat cblocks). split; [|split].
  - unfold encryptIge. fold (paddingTail generateRandomBytes plainText).
    assert (E : (if negb (length plainText mod 16 =? 0)%nat
                 then plainText ++ generateRandomBytes (16 - length plainText mod 16)
                 else plainText) = plainText ++ paddingTail generateRandomBytes plainText).
    { unfold paddingTail. destruct (negb (length plainText mod 16 =? 0)%nat);
        [reflexivity|now rewrite app_nil_r]. }
    rewrite E, Hcat. exact Henc.
  - rewrite Hcat, !concat_length16 by assumption. now rewrite Hclen.
  - unfold decryptIge. rewrite mod16_blocks by assumption. cbn [negb].
    rewrite Hcat.
    apply (Hdec [] [] (length (concat cblocks))); [reflexivity|].
    rewrite (concat_length16 _ Hc16). lia.
Qed.

End RoundTrip.

Section Framing.

Variable aesDecrypt : buffer -> buffer -> result buffer.

(** node:crypto decrypts any 16-byte block under a 32-byte key. *)
Hypothesis aes_decrypts : forall k b,
  length k = 32%nat -> length b = 16%nat -> exists o, aesDecrypt k b = Ok o.

Variable this : IGE.
Hypothesis key_length : length (key this) = 32%nat.

Lemma slice_length16 (buf : buffer) (i : nat) :
  (i + 16 <= length buf)%nat -> length (slice buf i (i + 16)) = 16%nat.
Proof.
  intros H. unfold slice. rewrite length_firstn, length_skipn. lia.
Qed.

Lemma decryptLoop_aligned cipherText n :
  length cipherText = (16 * n)%nat ->
  forall fuel j pc pp output,
  length output = length cipherText ->
  exists out,
    decryptLoop aesDecrypt fuel this cipherText (16 * j) pc pp output = Ok out /\
    length out = length cipherText.
Proof.
  intros Hn. induction fuel as [|fuel IH]; intros j pc pp output Hout.
  - exists output. now split.
  - cbn [decryptLoop].
    destruct (16 * j <? length cipherText)%nat eqn:E.
    + apply Nat.ltb_lt in E.
      destruct (aes_decrypts (key this)
                  (xorBuffers (slice cipherText (16 * j) (16 * j + 16)) pp)
                  key_length) as (o & Ho).
      { rewrite xorBuffers_length. apply slice_length16. lia. }
      unfold aesDecryptBlock. rewrite Ho.
      replace (16 * j + 16)%nat with (16 * S j)%nat by lia.
      apply IH. rewrite copy_length; [exact Hout|lia].
    + exists output. now split.
Qed.

Lemma decryptIge_framing cipherText :
  (length cipherText mod 16 <> 0)%nat ->
  decryptIge aesDecrypt this cipherText = Throw framingError.
Proof.
  intros H. unfold decryptIge. apply Nat.eqb_neq in H. now rewrite H.
Qed.

Lemma decryptIge_aligned cipherText :
  (length cipherText mod 16 = 0)%nat ->
  exists out, decryptIge aesDecrypt this cipherText = Ok out /\
              length out = length cipherText.
Proof.
  intros H. unfold decryptIge. rewrite H. cbn [Nat.eqb negb].
  apply (decryptLoop_aligned cipherText (length cipherText / 16)) with (j := 0%nat).
  - pose proof (Nat.div_mod_eq (length cipherText) 16). lia.
  - unfold alloc. apply repeat_length.
Qed.

End Framing.

Lemma new_IGE_key key iv this : new_IGE key iv = Ok this -> length (IGE.key this) = 32%nat.
Proof.
  unfold new_IGE.
  destruct (length key =? 32)%nat eqn:Ek; cbn [negb]; [|discriminate].
  destruct (length iv =? 32)%nat; cbn [negb]; [|discriminate].
  intros H; injection H as <-. now apply Nat.eqb_eq.
Qed.

(** C2. For every 32-byte key and 32-byte IV (the constructor accepts
    them) and every plaintext, [decryptIge] applied to the result of
    [encryptIge] returns the plaintext followed by the random padding
    that [encryptIge] appended: the plaintext is the prefix of its
    length, and the whole result when the plaintext is block-aligned.
    node:crypto is assumed to encrypt a 16-byte block under a 32-byte
    key to a 16-byte block that decrypts to the original. *)
Theorem C2_ige_roundtrip
  (aesEncrypt aesDecrypt : buffer -> buffer -> result buffer)
  (generateRandomBytes : nat -> buffer)
  (key iv : buffer) (plainText : buffer) :
  (forall k b, length k = 32%nat -> length b = 16%nat ->
     exists o, aesEncrypt k b = Ok o /\ length o = 16%nat /\ aesDecrypt k o = Ok b) ->
  (forall n, length (generateRandomBytes n) = n) ->
  length key = 32%nat -> length iv = 32%nat ->
  new_IGE key iv = Ok (mkIGE key iv) /\
  exists cipherText out,
    encryptIge aesEncrypt generateRandomBytes (mkIGE key iv) plainText = Ok cipherText /\
    decryptIge aesDecrypt (mkIGE key iv) cipherText = Ok out /\
    out = plainText ++ paddingTail generateRandomBytes plainText /\
    firstn (length plainText) out = plainText /\
    ((length plainText mod 16 = 0)%nat -> out = plainText).
Proof.
  intros Haes Hrnd Hkey Hiv.
  split.
  { unfold new_IGE. now rewrite Hkey, Hiv. }
  destruct (roundtrip_padded aesEncrypt aesDecrypt generateRandomBytes Haes Hrnd
              (mkIGE key iv) Hkey plainText) as (ct & Henc & _ & Hdec).
  exists ct, (plainText ++ paddingTail generateRandomBytes plainText).
  split; [exact Henc|]. split; [exact Hdec|]. split; [reflexivity|]. split.
  - rewrite firstn_app, Nat.sub_diag, firstn_all. cbn. apply app_nil_r.
  - intros H. unfold paddingTail. rewrite H. cbn. apply app_nil_r.
Qed.

Lemma toyCipher_roundtrip k b :
  length k = 32%nat -> length b = 16%nat ->
  exists o, toyCipher k b = Ok o /\ length o = 16%nat /\ toyCipher k o = Ok b.
Proof.
  intros _ Hb. exists (xorBuffers b k). unfold toyCipher.
  now rewrite xorBuffers_length, xorBuffers_involutive.
Qed.

(** The round trip on the three bytes "abc" with the stand-in cipher. *)
Lemma C2_ige_roundtrip_witness :
  new_IGE sampleKey sampleIv = Ok (mkIGE sampleKey sampleIv) /\
  exists cipherText out,
    encryptIge toyCipher toyRandom (mkIGE sampleKey sampleIv)
      ["a"%byte; "b"%byte; "c"%byte] = Ok cipherText /\
    decryptIge toyCipher (mkIGE sampleKey sampleIv) cipherText = Ok out /\
    out = ["a"%byte; "b"%byte; "c"%byte]
          ++ paddingTail toyRandom ["a"%byte; "b"%byte; "c"%byte] /\
    firstn (length ["a"%byte; "b"%byte; "c"%byte]) out = ["a"%byte; "b"%byte; "c"%byte] /\
    ((length ["a"%byte; "b"%byte; "c"%byte] mod 16 = 0)%nat ->
     out = ["a"%byte; "b"%byte; "c"%byte]).
Proof.
  apply (C2_ige_roundtrip toyCipher toyCipher toyRandom sampleKey sampleIv).
  - exact toyCipher_roundtrip.
  - intros n. apply repeat_length.
  - reflexivity.
  - reflexivity.
Defined.

(** C4. [decryptIge] throws the framing error exactly when the length
    of the ciphertext is not a multiple of 16, before any byte is
    processed; on a block-aligned ciphertext it returns a buffer of the
    same length.  node:crypto is assumed to decrypt any 16-byte block
    under a 32-byte key. *)
Theorem C4_decryptIge_framing
  (aesDecrypt : buffer -> buffer -> result buffer)
  (key iv : buffer) (this : IGE) (cipherText : buffer) :
  (forall k b, length k = 32%nat -> length b = 16%nat -> exists o, aesDecrypt k b = Ok o) ->
  new_IGE key iv = Ok this ->
  ((length cipherText mod 16 <> 0)%nat ->
     decryptIge aesDecrypt this cipherText = Throw framingError)
  /\
  ((length cipherText mod 16 = 0)%nat ->
     exists out, decryptIge aesDecrypt this cipherText = Ok out /\
                 length out = length cipherText)
  /\
  (decryptIge aesDecrypt this cipherText = Throw framingError
   <-> (length cipherText mod 16 <> 0)%nat).
Proof.
  intros Haes Hnew. pose proof (new_IGE_key _ _ _ Hnew) as Hk.
  split; [apply decryptIge_framing|].
  split; [now apply decryptIge_aligned|].
  split.
  - intros Hthrow Hal.
    destruct (decryptIge_aligned aesDecrypt Haes this Hk cipherText Hal) as (out & Hout & _).
    congruence.
  - apply decryptIge_framing.
Qed.

Lemma toyCipher_total k b :
  length k = 32%nat -> length b = 16%nat -> exists o, toyCipher k b = Ok o.
Proof. intros _ _. eexists. reflexivity. Qed.

(** A 17-byte ciphertext under the stand-in cipher. *)
Lemma C4_decryptIge_framing_witness :
  ((length (repeat "007"%byte 17) mod 16 <> 0)%nat ->
     decryptIge toyCipher (mkIGE sampleKey sampleIv) (repeat "007"%byte 17)
     = Throw framingError)
  /\
  ((length (repeat "007"%byte 17) mod 16 = 0)%nat ->
     exists out, decryptIge toyCipher (mkIGE sampleKey sampleIv) (repeat "007"%byte 17)
                 = Ok out /\
                 length out = length (repeat "007"%byte 17))
  /\
  (decryptIge toyCipher (mkIGE sampleKey sampleIv) (repeat "007"%byte 17)
   = Throw framingError
   <-> (length (repeat "007"%byte 17) mod 16 <> 0)%nat).
Proof.
  apply (C4_decryptIge_framing toyCipher sampleKey sampleIv).
  - exact toyCipher_total.
  - reflexivity.
Defined.

End IGEFacts.

(** ** The cipher entry points *)

Module CryptoFacts.
Import Crypto.

(** Every name that does not contain the upper-case text "ECB" is
    handed to node:crypto as it is. *)
Lemma createCipher_delegates
  (handle : Type)
  (nodeCreateCipheriv nodeCreateDecipheriv : str -> buffer -> buffer -> result handle)
  (algorithm : str) (key iv : buffer) :
  Parser.includes (s2l "ECB") algorithm = false ->
  createCipher handle nodeCreateCipheriv nodeCreateDecipheriv algorithm key iv
    = new_CTR handle nodeCreateCipheriv nodeCreateDecipheriv key iv algorithm /\
  createDecipher handle nodeCreateCipheriv nodeCreateDecipheriv algorithm key iv
    = new_CTR handle nodeCreateCipheriv nodeCreateDecipheriv key iv algorithm.
Proof. unfold createCipher, createDecipher. intros ->. split; reflexivity. Qed.

(** The guard at work: a name with the upper-case text "ECB" is refused
    before node:crypto is asked. *)
Lemma createCipher_refuses_upper_case
  (handle : Type)
  (nodeCreateCipheriv nodeCreateDecipheriv : str -> buffer -> buffer -> result handle)
  (algorithm : str) (key iv : buffer) :
  Parser.includes (s2l "ECB") algorithm = true ->
  createCipher handle nodeCreateCipheriv nodeCreateDecipheriv algorithm key iv
    = Throw ecbError /\
  createDecipher handle nodeCreateCipheriv nodeCreateDecipheriv algorithm key iv
    = Throw ecbError.
Proof. unfold createCipher, createDecipher. intros ->. split; reflexivity. Qed.

(** The constructor of the exported class [CTR] has no guard of its
    own: it takes every algorithm name node:crypto takes. *)
Lemma new_CTR_unguarded
  (handle : Type)
  (nodeCreateCipheriv nodeCreateDecipheriv : str -> buffer -> buffer -> result handle)
  (algorithm : str) (key iv : buffer) (c d : handle) :
  nodeCreateCipheriv algorithm key iv = Ok c ->
  nodeCreateDecipheriv algorithm key iv = Ok d ->
  new_CTR handle nodeCreateCipheriv nodeCreateDecipheriv key iv algorithm
    = Ok (mkCTR handle c d).
Proof. unfold new_CTR. now intros -> ->. Qed.

(** C9 does not hold of the code.  The guard of [createCipher] and
    [createDecipher] is the case-sensitive test [algorithm.includes("ECB")],
    although its message is "ECB mode is not supported".  A name that
    denotes ECB in another spelling -- "aes-256-ecb", as IGE.ts itself
    writes it -- passes the guard, and whenever node:crypto builds the
    cipher and the decipher of that name, the entry points return them
    instead of throwing. *)
Theorem C9_ecb_in_other_spelling_not_refused
  (handle : Type)
  (nodeCreateCipheriv nodeCreateDecipheriv : str -> buffer -> buffer -> result handle)
  (algorithm : str) (key iv : buffer) (c d : handle) :
  denotesECB algorithm = true ->
  Parser.includes (s2l "ECB") algorithm = false ->
  nodeCreateCipheriv algorithm key iv = Ok c ->
  nodeCreateDecipheriv algorithm key iv = Ok d ->
  createCipher handle nodeCreateCipheriv nodeCreateDecipheriv algorithm key iv
    = Ok (mkCTR handle c d) /\
  createDecipher handle nodeCreateCipheriv nodeCreateDecipheriv algorithm key iv
    = Ok (mkCTR handle c d).
Proof.
  intros _ Hguard Hc Hd.
  destruct (createCipher_delegates handle nodeCreateCipheriv nodeCreateDecipheriv
              algorithm key iv Hguard) as (-> & ->).
  split; apply new_CTR_unguarded; assumption.
Qed.

(** The name "aes-256-ecb" with a 32-byte key and an empty IV. *)
Lemma C9_ecb_in_other_spelling_not_refused_witness :
  createCipher _ toyNode toyNode (s2l "aes-256-ecb") key32 []
    = Ok (mkCTR _ (s2l "aes-256-ecb", key32, []) (s2l "aes-256-ecb", key32, [])) /\
  createDecipher _ toyNode toyNode (s2l "aes-256-ecb") key32 []
    = Ok (mkCTR _ (s2l "aes-256-ecb", key32, []) (s2l "aes-256-ecb", key32, [])).
Proof.
  apply (C9_ecb_in_other_spelling_not_refused _ toyNode toyNode (s2l "aes-256-ecb")
           key32 [] (s2l "aes-256-ecb", key32, []) (s2l "aes-256-ecb", key32, []));
    reflexivity.
Defined.

End CryptoFacts.

(** ** The update engine *)

Module UpdatesFacts.
Import Updates.

Lemma emit_emit c a b : emit (emit c a) b = emit c (a ++ b).
Proof. unfold emit. cbn. now rewrite <- app_assoc. Qed.

Lemma emit_nil c : emit c [] = c.
Proof. destruct c. unfold emit. cbn. now rewrite app_nil_r. Qed.

Lemma dispatches_app a b : dispatches (a ++ b) = dispatches a ++ dispatches b.
Proof. unfold dispatches. apply flat_map_app. Qed.

Lemma dispatches_map l : dispatches (map DispatchUpdate l) = l.
Proof.
  induction l as [|x l IH]; [reflexivity|].
  unfold dispatches in *. cbn [map flat_map app]. now rewrite IH.
Qed.

Lemma forEach_messages entities ms : forall c,
  forEach (fun c message =>
             if isMessageOrService message
             then _processUpdate c (Obj (UpdateNewMessage message 0 0)) None (Some entities)
             else (c, None)) ms c =
  (emit c (map (fun m => DispatchUpdate
                  (mkArgs (WithEntities (UpdateNewMessage m 0 0) entities) None))
               (List.filter isMessageOrService ms)), None).
Proof.
  induction ms as [|m ms IH]; intros c; cbn [forEach List.filter map].
  - now rewrite emit_nil.
  - destruct (isMessageOrService m); cbn [_processUpdate map].
    + now rewrite IH, emit_emit.
    + apply IH.
Qed.

Lemma forEach_updates entities others us : forall c,
  forEach (fun c update => _processUpdate c (Obj update) others (Some entities)) us c =
  (emit c (map (fun u => DispatchUpdate (mkArgs (WithEntities u entities) others)) us),
   None).
Proof.
  induction us as [|u us IH]; intros c; cbn [forEach map].
  - now rewrite emit_nil.
  - cbn [_processUpdate]. now rewrite IH, emit_emit.
Qed.

Section CachesReturn.

Variable entityCacheAdd : cached -> option exn.
Variable processEntities : cached -> option exn.
Hypothesis cache_returns : forall x, entityCacheAdd x = None.
Hypothesis session_returns : forall x, processEntities x = None.

Lemma processDifference_trace c diff ms us cs users :
  _processDifference entityCacheAdd processEntities c diff ms us cs users =
  (emit c ([EntityCacheAdd (CDifference diff); ProcessEntities (CDifference diff)]
           ++ map DispatchUpdate (fanOut ms us cs users)), None).
Proof.
  unfold _processDifference. rewrite cache_returns, session_returns.
  rewrite forEach_messages, forEach_updates, !emit_emit.
  unfold fanOut. rewrite map_app, !map_map. reflexivity.
Qed.

Lemma state_eta s : mkState (pts s) (qts s) (date s) (seq s) = s.
Proof. now destruct s. Qed.

(** One iteration of the fetch loop on a slice: the difference is
    processed, the intermediate state adopted, and the loop goes on. *)
Lemma fetchLoop_slice us tr ms us' cs users st rest :
  fetchLoop entityCacheAdd processEntities
    (Return (RDifference (DifferenceSlice ms us' cs users st)) :: rest)
    (mkClient (Some us) tr) =
  fetchLoop entityCacheAdd processEntities rest
    (mkClient (Some st)
       (tr ++ [Invoke (GetDifference (pts us) (date us) (qts us));
               EntityCacheAdd (CDifference (DifferenceSlice ms us' cs users st));
               ProcessEntities (CDifference (DifferenceSlice ms us' cs users st))]
           ++ map DispatchUpdate (fanOut ms us' cs users))).
Proof.
  cbn [fetchLoop _updateState]. rewrite processDifference_trace, emit_emit.
  unfold setState, emit. cbn [_updateState trace]. now rewrite state_eta.
Qed.

(** The iteration on a full difference ends the loop. *)
Lemma fetchLoop_full us tr ms us' cs users st rest :
  fetchLoop entityCacheAdd processEntities
    (Return (RDifference (Difference ms us' cs users st)) :: rest)
    (mkClient (Some us) tr) =
  Some (mkClient (Some st)
          (tr ++ [Invoke (GetDifference (pts us) (date us) (qts us));
                  EntityCacheAdd (CDifference (Difference ms us' cs users st));
                  ProcessEntities (CDifference (Difference ms us' cs users st))]
              ++ map DispatchUpdate (fanOut ms us' cs users)),
        None, rest).
Proof.
  cbn [fetchLoop _updateState]. rewrite processDifference_trace, emit_emit.
  unfold setState, emit. cbn [_updateState trace]. now rewrite state_eta.
Qed.

End CachesReturn.

Lemma dispatches_no_dispatch tr :
  Forall (fun e => match e with DispatchUpdate _ => False | _ => True end) tr ->
  dispatches tr = [].
Proof.
  induction 1 as [|e tr He _ IH]; [reflexivity|].
  unfold dispatches in *. cbn [flat_map]. rewrite IH.
  destruct e; try reflexivity. contradiction.
Qed.

(** C7. In the fetch loop of [catchUp], a [DifferenceTooLong] reply sets
    [pts] to the reply's [pts] and leaves [qts], [date] and [seq] as
    they were; nothing is handed to [_dispatchUpdate] or to the caches
    for it; the warning is logged; the loop stops, so no further request
    is sent and the later replies stay unread.  This holds at whichever
    iteration the reply arrives, and for [catchUp] as a whole when it is
    the first reply. *)
Theorem C7_too_long_adopts_pts_only
  (entityCacheAdd processEntities : cached -> option exn)
  (us : UpdateState) (tr : list event) (p : Z) (rest : script) :
  fetchLoop entityCacheAdd processEntities
    (Return (RDifference (DifferenceTooLong p)) :: rest) (mkClient (Some us) tr)
  = Some (mkClient (Some (mkState p (qts us) (date us) (seq us)))
            (tr ++ [Invoke (GetDifference (pts us) (date us) (qts us));
                    LogWarn "Too many updates missed, some may be lost"]),
          None, rest)
  /\
  catchUp entityCacheAdd processEntities (mkClient (Some us) tr)
    (Return (RDifference (DifferenceTooLong p)) :: rest)
  = Some (mkClient (Some (mkState p (qts us) (date us) (seq us)))
            (tr ++ [LogDebug "Catching up on missed updates...";
                    Invoke (GetDifference (pts us) (date us) (qts us));
                    LogWarn "Too many updates missed, some may be lost";
                    LogDebug "Catch up complete"]),
          rest)
  /\
  dispatches (tr ++ [LogDebug "Catching up on missed updates...";
                     Invoke (GetDifference (pts us) (date us) (qts us));
                     LogWarn "Too many updates missed, some may be lost";
                     LogDebug "Catch up complete"]) = dispatches tr.
Proof.
  split; [|split].
  - cbn [fetchLoop _updateState]. unfold setState, emit. cbn [_updateState trace].
    now rewrite <- app_assoc.
  - unfold catchUp. cbn [_updateState fetchLoop emit trace].
    unfold setState, emit. cbn [_updateState trace].
    now rewrite <- !app_assoc.
  - rewrite dispatches_app. rewrite (dispatches_no_dispatch [_; _; _; _]).
    + apply app_nil_r.
    + repeat constructor.
Qed.

(** C3, as stated, fails: [catchUp] stops at the [DifferenceEmpty]
    reply.  With the replies Empty, Slice, Slice, Full it reads the
    first one only, ends in the old [pts] and [qts] with the date and
    seq of the Empty reply, not in the state of the Full reply, and
    hands nothing to [_dispatchUpdate]. *)
Lemma C3_catchUp_stops_at_empty :
  catchUp quiet quiet (mkClient (Some sampleState) []) sampleReplies
  = Some (mkClient (Some (mkState 1 2 30 40))
            [LogDebug "Catching up on missed updates...";
             Invoke (GetDifference 1 3 2);
             LogDebug "Catch up complete"],
          [Return (RDifference sampleSlice1);
           Return (RDifference sampleSlice2);
           Return (RDifference sampleFull)])
  /\ mkState 1 2 30 40 <> mkState 20 21 22 23
  /\ fanOutOf sampleSlice1 <> [].
Proof. split; [reflexivity|]. split; discriminate. Qed.

(** C3, amended.  When the replies are Empty, Slice, Slice, Full in
    that order and the caches do not throw, the [catchUp] call that
    reads the Empty reply ends there (date and seq adopted, nothing
    fanned out); the next [catchUp] call reads Slice, Slice, Full and
    ends in the state embedded in the Full reply; every [Message] or
    [MessageService] of each slice (wrapped as [UpdateNewMessage]) and
    every other update of each slice is handed to [_dispatchUpdate]
    exactly once, in order, followed by those of the Full reply. *)
Theorem C3_slices_then_full_after_empty
  (entityCacheAdd processEntities : cached -> option exn)
  (cache_returns : forall x, entityCacheAdd x = None)
  (session_returns : forall x, processEntities x = None)
  (us : UpdateState) (tr : list event) (d s : Z)
  (ms1 : list apiMessage) (os1 : list object) (cs1 us1 : list entity) (st1 : UpdateState)
  (ms2 : list apiMessage) (os2 : list object) (cs2 us2 : list entity) (st2 : UpdateState)
  (ms3 : list apiMessage) (os3 : list object) (cs3 us3 : list entity) (st3 : UpdateState) :
  exists c1 c2,
    catchUp entityCacheAdd processEntities (mkClient (Some us) tr)
      [Return (RDifference (DifferenceEmpty d s));
       Return (RDifference (DifferenceSlice ms1 os1 cs1 us1 st1));
       Return (RDifference (DifferenceSlice ms2 os2 cs2 us2 st2));
       Return (RDifference (Difference ms3 os3 cs3 us3 st3))]
    = Some (c1, [Return (RDifference (DifferenceSlice ms1 os1 cs1 us1 st1));
                 Return (RDifference (DifferenceSlice ms2 os2 cs2 us2 st2));
                 Return (RDifference (Difference ms3 os3 cs3 us3 st3))]) /\
    _updateState c1 = Some (mkState (pts us) (qts us) d s) /\
    dispatches (trace c1) = dispatches tr /\
    catchUp entityCacheAdd processEntities c1
      [Return (RDifference (DifferenceSlice ms1 os1 cs1 us1 st1));
       Return (RDifference (DifferenceSlice ms2 os2 cs2 us2 st2));
       Return (RDifference (Difference ms3 os3 cs3 us3 st3))]
    = Some (c2, []) /\
    _updateState c2 = Some st3 /\
    dispatches (trace c2) =
      dispatches tr ++ fanOut ms1 os1 cs1 us1 ++ fanOut ms2 os2 cs2 us2
                    ++ fanOut ms3 os3 cs3 us3.
Proof.
  eexists. eexists.
  split; [reflexivity|]. split; [reflexivity|]. split.
  { unfold emit, setState. cbn [trace _updateState]. rewrite !dispatches_app.
    cbn. now rewrite !app_nil_r. }
  unfold catchUp at 1, emit, setState. cbn [_updateState trace].
  rewrite (fetchLoop_slice _ _ cache_returns session_returns).
  rewrite (fetchLoop_slice _ _ cache_returns session_returns).
  rewrite (fetchLoop_full _ _ cache_returns session_returns).
  split; [reflexivity|]. split; [reflexivity|].
  unfold emit. cbn [trace]. rewrite !dispatches_app, !dispatches_map.
  cbn. now rewrite !app_nil_r, <- !app_assoc.
Qed.

(** The sample replies, with caches that never throw. *)
Lemma C3_slices_then_full_after_empty_witness :
  exists c1 c2,
    catchUp quiet quiet (mkClient (Some sampleState) []) sampleReplies
    = Some (c1, tl sampleReplies) /\
    _updateState c1 = Some (mkState 1 2 30 40) /\
    dispatches (trace c1) = dispatches [] /\
    catchUp quiet quiet c1 (tl sampleReplies) = Some (c2, []) /\
    _updateState c2 = Some (mkState 20 21 22 23) /\
    dispatches (trace c2) =
      dispatches [] ++ fanOut [Message 7] [OtherUpdate 8] [] []
                 ++ fanOut [MessageService 9] [OtherUpdate 10] [] []
                 ++ fanOut [Message 15] [OtherUpdate 16] [] [].
Proof.
  exact (C3_slices_then_full_after_empty quiet quiet
           (fun _ => eq_refl) (fun _ => eq_refl) sampleState [] 30 40
           [Message 7] [OtherUpdate 8] [] [] (mkState 5 6 7 8)
           [MessageService 9] [OtherUpdate 10] [] [] (mkState 11 12 13 14)
           [Message 15] [OtherUpdate 16] [] [] (mkState 20 21 22 23)).
Defined.

(** C10, as stated, fails: the number 5 is handed to the caches, but
    [_processUpdate] throws on it before [_dispatchUpdate] is called;
    [_handleUpdate] logs the error and nothing is dispatched. *)
Lemma C10_number_five_not_dispatched :
  _handleUpdate quiet quiet (mkClient None []) (Num 5)
  = mkClient None
      [EntityCacheAdd (CUpdate (Num 5)); ProcessEntities (CUpdate (Num 5));
       LogError "Error handling update: " (TypeErrorCreateProperty 5)]
  /\ dispatches (trace (_handleUpdate quiet quiet (mkClient None []) (Num 5))) = [].
Proof. split; reflexivity. Qed.

Lemma handleUpdate_number eca pe c n :
  existsb (Z.eqb n) [-1; 0; 1] = false ->
  _handleUpdate eca pe c (Num n) =
  match eca (CUpdate (Num n)) with
  | Some e => emit c [EntityCacheAdd (CUpdate (Num n)); LogError "Error handling update: " e]
  | None =>
      match pe (CUpdate (Num n)) with
      | Some e => emit c [EntityCacheAdd (CUpdate (Num n));
                          ProcessEntities (CUpdate (Num n));
                          LogError "Error handling update: " e]
      | None => emit c [EntityCacheAdd (CUpdate (Num n));
                        ProcessEntities (CUpdate (Num n));
                        LogError "Error handling update: " (TypeErrorCreateProperty n)]
      end
  end.
Proof.
  intros H. unfold _handleUpdate. rewrite H.
  destruct (eca (CUpdate (Num n))); [now rewrite emit_emit|].
  destruct (pe (CUpdate (Num n))); [now rewrite !emit_emit|].
  cbn [_processUpdate]. now rewrite !emit_emit.
Qed.

(** C10, amended.  An integer outside {-1, 0, 1} passed to
    [_handleUpdate] is not wrapped into a connection-state update.  It
    takes the regular path: it is handed to the entity cache and to the
    session and then to [_processUpdate] on its own, without entities;
    there the assignment of [_entities] to a number throws, the error
    is caught and logged by [_handleUpdate], and [_dispatchUpdate] is
    not called. *)
Theorem C10_other_integers_take_regular_path_and_fail
  (entityCacheAdd processEntities : cached -> option exn) (c : client) (n : Z) :
  n <> -1 -> n <> 0 -> n <> 1 ->
  dispatches (trace (_handleUpdate entityCacheAdd processEntities c (Num n)))
    = dispatches (trace c)
  /\ (entityCacheAdd (CUpdate (Num n)) = None ->
      processEntities (CUpdate (Num n)) = None ->
      _handleUpdate entityCacheAdd processEntities c (Num n)
      = emit c [EntityCacheAdd (CUpdate (Num n)); ProcessEntities (CUpdate (Num n));
                LogError "Error handling update: " (TypeErrorCreateProperty n)]).
Proof.
  intros H1 H2 H3.
  assert (H : existsb (Z.eqb n) [-1; 0; 1] = false).
  { cbn [existsb]. rewrite !orb_false_r.
    destruct (Z.eqb_spec n (-1)), (Z.eqb_spec n 0), (Z.eqb_spec n 1);
      try contradiction; reflexivity. }
  rewrite (handleUpdate_number _ _ _ _ H). split.
  - destruct (entityCacheAdd (CUpdate (Num n))); [|destruct (processEntities (CUpdate (Num n)))];
      cbn [emit trace]; rewrite dispatches_app; cbn; apply app_nil_r.
  - intros -> ->. reflexivity.
Qed.

(** The number 5. *)
Lemma C10_other_integers_take_regular_path_and_fail_witness :
  dispatches (trace (_handleUpdate quiet quiet (mkClient None []) (Num 5)))
    = dispatches (trace (mkClient None []))
  /\ (quiet (CUpdate (Num 5)) = None ->
      quiet (CUpdate (Num 5)) = None ->
      _handleUpdate quiet quiet (mkClient None []) (Num 5)
      = emit (mkClient None [])
          [EntityCacheAdd (CUpdate (Num 5)); ProcessEntities (CUpdate (Num 5));
           LogError "Error handling update: " (TypeErrorCreateProperty 5)]).
Proof.
  apply (C10_other_integers_take_regular_path_and_fail quiet quiet (mkClient None []) 5);
    discriminate.
Defined.

Section DispatchRound.

Variable builtEvent : Type.
Variable getMe : option Z.

Lemma dispatchPair_called errorHandler i (b : EventBuilder builtEvent)
  (cb : callback builtEvent) self args ev :
  reachesCallback getMe b self args ev ->
  dispatchPair getMe errorHandler i (Some b, Some cb) self args =
  ((Some (afterResolve b), Some cb), selfAfter getMe self,
   reachSteps i b self ++ [Called i ev (cb ev)] ++ fst (afterCall builtEvent errorHandler (cb ev)),
   snd (afterCall builtEvent errorHandler (cb ev))).
Proof.
  intros (Hres & (o & Hbuild & Hattach) & Hfilter).
  unfold dispatchPair, afterResolve, reachSteps, resolveBuilder, afterCall.
  destruct (resolved b) eqn:Er; cbn [negb].
  - destruct self as [z|]; cbn [selfAfter] in *; rewrite Hbuild, Hattach, Hfilter;
      destruct (cb ev) as [e|]; cbn [fst snd app];
      try destruct (isStopPropagation e); try destruct errorHandler as [h|];
      try destruct (h e); cbn [fst snd app]; rewrite <- ?app_assoc; reflexivity.
  - destruct Hres as [Hres|Hres]; [discriminate|]. rewrite Hres. cbn [fst build filter].
    destruct self as [z|]; cbn [selfAfter] in *; rewrite Hbuild, Hattach, Hfilter;
      destruct (cb ev) as [e|]; cbn [fst snd app];
      try destruct (isStopPropagation e); try destruct errorHandler as [h|];
      try destruct (h e); cbn [fst snd app]; rewrite <- ?app_assoc; reflexivity.
Qed.

Lemma dispatchPair_handlers errorHandler i (p : handlerPair builtEvent) self args :
  handlersOf (fst (fst (fst (dispatchPair getMe errorHandler i p self args))))
  = handlersOf p.
Proof.
  destruct p as [[b|] [cb|]]; try reflexivity.
  unfold dispatchPair, resolveBuilder.
  destruct (resolved b); cbn [negb].
  - destruct self; repeat (match goal with
      | |- context [match ?x with _ => _ end] => destruct x
      end; try reflexivity).
  - destruct (resolve b) eqn:Er; [reflexivity|]. cbn [build filter].
    destruct self; repeat (match goal with
      | |- context [match ?x with _ => _ end] => destruct x
      end; try (unfold handlersOf; cbn; rewrite ?Er; reflexivity)).
Qed.

Lemma dispatchLoop_handlers errorHandler (pairs : list (handlerPair builtEvent)) :
  forall i self args,
  map handlersOf (fst (fst (fst (dispatchLoop getMe errorHandler i pairs self args))))
  = map handlersOf pairs.
Proof.
  induction pairs as [|p pairs IH]; intros i self args; [reflexivity|].
  cbn [dispatchLoop].
  pose proof (dispatchPair_handlers errorHandler i p self args) as Hp.
  destruct (dispatchPair getMe errorHandler i p self args) as [[[p' self'] steps] fl].
  cbn [fst] in Hp.
  destruct fl.
  - specialize (IH (S i) self' args).
    destruct (dispatchLoop getMe errorHandler (S i) pairs self' args)
      as [[[rest' self''] steps'] r].
    cbn [fst map] in *. now rewrite Hp, IH.
  - cbn [fst map]. now rewrite Hp.
  - cbn [fst map]. now rewrite Hp.
Qed.

Lemma no_later_call i (b : EventBuilder builtEvent) self (ev : builtEvent) thrown :
  forall j ev' r,
    In (Called j ev' r) (reachSteps i b self ++ [Called i ev thrown]) -> j = i.
Proof.
  intros j ev' r H. unfold reachSteps in H.
  rewrite !in_app_iff in H.
  destruct H as [[H|[H|H]]|H].
  - destruct (resolved b); [contradiction|].
    destruct H as [H|[]]; discriminate.
  - destruct self; [contradiction|]. destruct H as [H|[]]; discriminate.
  - destruct H as [H|[H|[]]]; discriminate.
  - destruct H as [H|[]]. now injection H.
Qed.


End DispatchRound.

(** Two events in a row: the first callback stops the propagation of the
    first event, so the second callback is not called for it; for the
    second event both callbacks are called again. *)
Lemma stop_propagation_then_next_event :
  _dispatchUpdate None sampleDispatcher (mkArgs (WithEntities (OtherUpdate 1) []) None)
  = (sampleDispatcher,
     [Built 0; Filtered 0; Called 0 1 (Some StopPropagation)], None)
  /\
  _dispatchUpdate None sampleDispatcher (mkArgs (WithEntities (OtherUpdate 2) []) None)
  = (sampleDispatcher,
     [Built 0; Filtered 0; Called 0 2 None; Built 1; Filtered 1; Called 1 2 None], None).
Proof. split; reflexivity. Qed.


(** A round is abandoned as well when [build] returns a truthy
    primitive: the assignment [event._client = client] throws a
    TypeError outside every [try], so the callback of the pair is not
    called, nothing is logged and the later pairs are skipped. *)
Lemma primitive_event_rejects_round :
  _dispatchUpdate None
    (mkDispatcher [(Some primitiveBuilder, Some quietCallback);
                   (Some sampleBuilder, Some quietCallback)]
                  (Some 42) None)
    sampleArgs
  = (mkDispatcher [(Some primitiveBuilder, Some quietCallback);
                   (Some sampleBuilder, Some quietCallback)]
                  (Some 42) None,
     [Built 0], Some (TypeErrorCreateClient 7)).
Proof. reflexivity. Qed.


End UpdatesFacts.

(** ** The word converters *)

Module WordsFacts.
Import Crc32 Words.

Lemma byteVal_range b : 0 <= byteVal b < 256.
Proof.
  unfold byteVal. pose proof (Byte.to_N_bounded b). lia.
Qed.

Lemma byteVal_toUint8 z : byteVal (toUint8 z) = z mod 256.
Proof.
  unfold byteVal, toUint8, byteOfN.
  pose proof (Z.mod_pos_bound z 256 ltac:(lia)) as H.
  pose proof (byte_of_ascii_via_N (ascii_of_N (Z.to_N (z mod 256)))) as E.
  symmetry in E. apply Byte.to_of_N in E. rewrite E.
  rewrite N_ascii_embedding by lia. lia.
Qed.

Lemma toUint8_byteVal b : toUint8 (byteVal b) = b.
Proof.
  unfold toUint8, byteOfN. pose proof (byteVal_range b) as H.
  rewrite Z.mod_small by lia. unfold byteVal. rewrite N2Z.id.
  pose proof (byte_of_ascii_via_N (ascii_of_N (to_N b))) as E.
  rewrite N_ascii_embedding in E by (pose proof (Byte.to_N_bounded b); lia).
  rewrite Byte.of_to_N in E. now injection E.
Qed.

Lemma toUint32_small x : 0 <= x < 2 ^ 32 -> toUint32 x = x.
Proof. intros H. unfold toUint32. now apply Z.mod_small. Qed.

Lemma toUint32_range x : 0 <= toUint32 x < 2 ^ 32.
Proof. unfold toUint32. apply Z.mod_pos_bound. lia. Qed.

Lemma toUint32_toInt32 x : toUint32 (toInt32 x) = toUint32 x.
Proof.
  unfold toUint32, toInt32.
  destruct (x mod 2 ^ 32 <? 2 ^ 31).
  - apply Z.mod_mod. lia.
  - replace (x mod 2 ^ 32 - 2 ^ 32) with (x mod 2 ^ 32 + (-1) * 2 ^ 32) by lia.
    rewrite Z.mod_add by lia. apply Z.mod_mod. lia.
Qed.

Lemma toInt32_small x : 0 <= x < 2 ^ 31 -> toInt32 x = x.
Proof.
  intros H. unfold toInt32. rewrite Z.mod_small by lia.
  destruct (Z.ltb_spec x (2 ^ 31)); lia.
Qed.

Lemma toInt32_mod256 x : toInt32 x mod 256 = x mod 256.
Proof.
  unfold toInt32. change (2 ^ 32) with 4294967296. change (2 ^ 31) with 2147483648.
  destruct (x mod 4294967296 <? 2147483648); Z.div_mod_to_equations; lia.
Qed.

(** [a & 0xff] is the low byte of [a]. *)
Lemma band_255 a : band a 0xff = a mod 256.
Proof.
  unfold band. rewrite (toInt32_small 255) by lia.
  change 255 with (Z.ones 8). rewrite Z.land_ones by lia.
  change (2 ^ 8) with 256. rewrite toInt32_mod256.
  apply toInt32_small. pose proof (Z.mod_pos_bound a 256 ltac:(lia)). lia.
Qed.

Lemma ushr_div v k : 0 <= k -> ushr v k = toUint32 v / 2 ^ k.
Proof. intros H. unfold ushr. now apply Z.shiftr_div_pow2. Qed.

Lemma toUint32_idem x : toUint32 (toUint32 x) = toUint32 x.
Proof. apply toUint32_small, toUint32_range. Qed.

Lemma ushr_0 x : ushr x 0 = toUint32 x.
Proof. unfold ushr. apply Z.shiftr_0_r. Qed.

Lemma toUint32_bxor a b : toUint32 (bxor a b) = Z.lxor (toUint32 a) (toUint32 b).
Proof.
  unfold bxor. rewrite toUint32_toInt32.
  rewrite <- (toUint32_toInt32 a), <- (toUint32_toInt32 b).
  unfold toUint32. rewrite <- !Z.land_ones by lia.
  apply Z.bits_inj'. intros i Hi.
  rewrite !Z.land_spec, !Z.lxor_spec, !Z.land_spec.
  destruct (Z.testbit (Z.ones 32) i); now rewrite ?andb_true_r, ?andb_false_r.
Qed.

Lemma lxor_disjoint x y k :
  0 <= k -> 0 <= y < 2 ^ k -> Z.lxor (x * 2 ^ k) y = x * 2 ^ k + y.
Proof.
  intros Hk Hy. symmetry. apply Z.add_nocarry_lxor.
  apply Z.bits_inj'. intros i Hi.
  rewrite Z.land_spec, Z.bits_0, <- Z.shiftl_mul_pow2 by lia.
  destruct (Z.ltb_spec i k).
  - now rewrite Z.shiftl_spec_low.
  - rewrite <- (Z.mod_small y (2 ^ k)) by lia.
    rewrite Z.mod_pow2_bits_high by lia. apply andb_false_r.
Qed.

Lemma shl_byte b k : 0 <= k <= 24 -> toUint32 (shl (byteVal b) k) = byteVal b * 2 ^ k.
Proof.
  intros Hk. pose proof (byteVal_range b) as Hb.
  unfold shl. rewrite toUint32_toInt32, (toInt32_small (byteVal b)) by lia.
  rewrite Z.shiftl_mul_pow2 by lia. apply toUint32_small.
  assert (2 ^ k <= 2 ^ 24) by (apply Z.pow_le_mono_r; lia).
  assert (0 < 2 ^ k) by (apply Z.pow_pos_nonneg; lia).
  change (2 ^ 32) with (256 * 2 ^ 24). nia.
Qed.

(** The word assembled from four bytes, most significant first. *)
Lemma wordOf_sum b0 b1 b2 b3 :
  wordOf b0 b1 b2 b3 =
  byteVal b0 * 2 ^ 24 + byteVal b1 * 2 ^ 16 + byteVal b2 * 2 ^ 8 + byteVal b3.
Proof.
  pose proof (byteVal_range b0). pose proof (byteVal_range b1).
  pose proof (byteVal_range b2). pose proof (byteVal_range b3).
  unfold wordOf. rewrite !toUint32_bxor, !ushr_0, !toUint32_idem.
  rewrite !shl_byte by lia.
  rewrite (toUint32_small (byteVal b3)) by lia.
  rewrite (lxor_disjoint (byteVal b0) _ 24) by lia.
  replace (byteVal b0 * 2 ^ 24 + byteVal b1 * 2 ^ 16)
    with ((byteVal b0 * 2 ^ 8 + byteVal b1) * 2 ^ 16) by lia.
  rewrite (lxor_disjoint _ _ 16) by lia.
  replace ((byteVal b0 * 2 ^ 8 + byteVal b1) * 2 ^ 16 + byteVal b2 * 2 ^ 8)
    with (((byteVal b0 * 2 ^ 8 + byteVal b1) * 2 ^ 8 + byteVal b2) * 2 ^ 8) by lia.
  rewrite (lxor_disjoint _ _ 8) by lia.
  lia.
Qed.

Lemma wordOf_range b0 b1 b2 b3 : isUint32 (wordOf b0 b1 b2 b3).
Proof. unfold wordOf. apply toUint32_range. Qed.


Lemma byteVal_extract w k :
  0 <= k -> isUint32 w ->
  byteVal (toUint8 (band (ushr (ushr w 0) k) 0xff)) = (w / 2 ^ k) mod 256.
Proof.
  intros Hk Hw. rewrite byteVal_toUint8, band_255, ushr_0, ushr_div by lia.
  rewrite toUint32_idem, toUint32_small by exact Hw.
  apply Z.mod_mod. lia.
Qed.

Lemma byteVal_extract0 w :
  isUint32 w -> byteVal (toUint8 (band (ushr w 0) 0xff)) = w mod 256.
Proof.
  intros Hw. rewrite byteVal_toUint8, band_255, ushr_0.
  rewrite toUint32_small by exact Hw. apply Z.mod_mod. lia.
Qed.

Lemma wordOf_bytesOfWord w :
  isUint32 w ->
  wordOf (toUint8 (band (ushr (ushr w 0) 24) 0xff))
         (toUint8 (band (ushr (ushr w 0) 16) 0xff))
         (toUint8 (band (ushr (ushr w 0) 8) 0xff))
         (toUint8 (band (ushr w 0) 0xff)) = w.
Proof.
  intros Hw. rewrite wordOf_sum, !byteVal_extract, byteVal_extract0 by (lia || exact Hw).
  unfold isUint32 in Hw.
  change (2 ^ 32) with 4294967296 in Hw.
  change (2 ^ 24) with 16777216. change (2 ^ 16) with 65536. change (2 ^ 8) with 256.
  Z.div_mod_to_equations. lia.
Qed.

Lemma i2abLow_length ws : length (i2abLow ws) = (4 * length ws)%nat.
Proof.
  induction ws as [|w ws IH]; [reflexivity|].
  unfold i2abLow in *. cbn [flat_map]. rewrite length_app, IH. cbn [length]. lia.
Qed.

Lemma wordsOf_i2abLow ws : Forall isUint32 ws -> wordsOf (i2abLow ws) = ws.
Proof.
  induction 1 as [|w ws Hw _ IH]; [reflexivity|].
  unfold i2abLow in *. cbn [flat_map app wordsOf].
  now rewrite wordOf_bytesOfWord, IH.
Qed.

Lemma bytes_of_wordOf b0 b1 b2 b3 :
  i2abLow [wordOf b0 b1 b2 b3] = [b0; b1; b2; b3].
Proof.
  pose proof (wordOf_range b0 b1 b2 b3) as Hr.
  pose proof (byteVal_range b0). pose proof (byteVal_range b1).
  pose proof (byteVal_range b2). pose proof (byteVal_range b3).
  unfold i2abLow. cbn [flat_map app].
  assert (E : forall k, 0 <= k ->
     band (ushr (ushr (wordOf b0 b1 b2 b3) 0) k) 0xff
     = (wordOf b0 b1 b2 b3 / 2 ^ k) mod 256).
  { intros k Hk. rewrite band_255, ushr_0, ushr_div, toUint32_idem, toUint32_small by (lia || exact Hr).
    reflexivity. }
  rewrite !E by lia.
  assert (E0 : band (ushr (wordOf b0 b1 b2 b3) 0) 0xff = wordOf b0 b1 b2 b3 mod 256).
  { rewrite band_255, ushr_0, toUint32_small by exact Hr. reflexivity. }
  rewrite E0, wordOf_sum.
  change (2 ^ 24) with 16777216. change (2 ^ 16) with 65536. change (2 ^ 8) with 256.
  set (S := byteVal b0 * 16777216 + byteVal b1 * 65536 + byteVal b2 * 256 + byteVal b3).
  assert (E3 : (S / 16777216) mod 256 = byteVal b0)
    by (unfold S; Z.div_mod_to_equations; lia).
  assert (E2 : (S / 65536) mod 256 = byteVal b1)
    by (unfold S; Z.div_mod_to_equations; lia).
  assert (E1 : (S / 256) mod 256 = byteVal b2)
    by (unfold S; Z.div_mod_to_equations; lia).
  assert (E0' : S mod 256 = byteVal b3)
    by (unfold S; Z.div_mod_to_equations; lia).
  now rewrite E3, E2, E1, E0', !toUint8_byteVal.
Qed.

Lemma i2abLow_wordsOf : forall n bytes,
  length bytes = (4 * n)%nat ->
  i2abLow (wordsOf bytes) = bytes /\ Forall isUint32 (wordsOf bytes) /\
  length (wordsOf bytes) = n.
Proof.
  induction n as [|n IH]; intros bytes Hl.
  - destruct bytes; [repeat split; constructor|cbn in Hl; lia].
  - destruct bytes as [|b0 [|b1 [|b2 [|b3 rest]]]]; try (cbn in Hl; lia).
    destruct (IH rest) as (E & F & L); [cbn in Hl; lia|].
    cbn [wordsOf]. split; [|split].
    + change (wordOf b0 b1 b2 b3 :: wordsOf rest)
        with ([wordOf b0 b1 b2 b3] ++ wordsOf rest).
      unfold i2abLow in *. rewrite flat_map_app. fold (i2abLow [wordOf b0 b1 b2 b3]).
      now rewrite bytes_of_wordOf, E.
    + constructor; [apply wordOf_range|exact F].
    + cbn [length]. now rewrite L.
Qed.



(** X2. Bytes to words and back: [ab2iLow] refuses a length that is not a
    multiple of 4 and otherwise returns one word for every 4 bytes, from
    which [i2abLow] gives the bytes back. *)
Theorem bytes_roundtrip bytes :
  ((length bytes mod 4 <> 0)%nat -> ab2iLow bytes = Throw rangeError) /\
  ((length bytes mod 4 = 0)%nat ->
     exists ws, ab2iLow bytes = Ok ws /\ Forall isUint32 ws /\
                length bytes = (4 * length ws)%nat /\ i2abLow ws = bytes).
Proof.
  unfold ab2iLow. split; intros H.
  - apply Nat.eqb_neq in H. now rewrite H.
  - rewrite H. cbn [Nat.eqb negb].
    destruct (i2abLow_wordsOf (length bytes / 4) bytes) as (E & F & L).
    { pose proof (Nat.div_mod_eq (length bytes) 4). lia. }
    exists (wordsOf bytes). repeat split; auto.
    pose proof (Nat.div_mod_eq (length bytes) 4). lia.
Qed.

End WordsFacts.

(** ** IGE: lengths, the other round trip, prefixes *)

Module IGEChainFacts.
Import IGE IGEChain IGEFacts.

Lemma decryptLoop_swap f fuel this : forall text i pc pp out,
  decryptLoop f fuel this text i pc pp out = encryptLoop f fuel this text i pp pc out.
Proof.
  induction fuel as [|fuel IH]; intros text i pc pp out; [reflexivity|].
  cbn [decryptLoop encryptLoop].
  destruct (i <? length text)%nat; [|reflexivity].
  unfold aesDecryptBlock, aesEncryptBlock.
  destruct (f (key this) _); [|reflexivity].
  apply IH.
Qed.

Section Chained.

Variable f : buffer -> buffer -> result buffer.
Variable this : IGE.

(** The primitive keeps the size of a block. *)
Hypothesis f_length : forall b o,
  length b = 16%nat -> f (key this) b = Ok o -> length o = 16%nat.

Lemma chain_blocks16 : forall blocks mask unmask out,
  blocks16 blocks -> chain f (key this) mask unmask blocks = Ok out ->
  blocks16 out /\ length out = length blocks.
Proof.
  induction blocks as [|b blocks IH]; intros mask unmask out H16 H.
  - injection H as <-. split; [constructor|reflexivity].
  - inversion H16 as [|? ? Hb Hbs]; subst.
    cbn [chain] in H.
    destruct (f (key this) (xorBuffers b mask)) as [o|e] eqn:E; [|discriminate].
    destruct (chain f (key this) (xorBuffers o unmask) b blocks) as [r|e] eqn:Er;
      [|discriminate].
    injection H as <-.
    destruct (IH _ _ _ Hbs Er) as (Hr & Hl).
    split; [|cbn [length]; now rewrite Hl].
    constructor; [|exact Hr].
    rewrite xorBuffers_length. apply (f_length (xorBuffers b mask)); auto.
    now rewrite xorBuffers_length.
Qed.

(** The loop of [encryptIge] on a text made of whole blocks computes the
    chain, and fails where the chain fails. *)
Lemma encryptLoop_chain : forall blocks, blocks16 blocks ->
  forall mask unmask pre done fuel,
  length pre = length done -> (length blocks <= fuel)%nat ->
  encryptLoop f fuel this (pre ++ concat blocks) (length pre) mask unmask
    (done ++ alloc (length (concat blocks)))
  = match chain f (key this) mask unmask blocks with
    | Ok out => Ok (done ++ concat out)
    | Throw e => Throw e
    end.
Proof.
  induction 1 as [|b blocks Hb Hbs IH]; intros mask unmask pre done fuel Hlen Hfuel.
  - cbn [concat length alloc repeat chain]. rewrite !app_nil_r.
    destruct fuel; cbn [encryptLoop]; [reflexivity|].
    now rewrite Nat.ltb_irrefl.
  - destruct fuel as [|fuel]; [cbn in Hfuel; lia|].
    cbn [encryptLoop concat chain].
    replace (length pre <? length (pre ++ b ++ concat blocks))%nat with true
      by (symmetry; apply Nat.ltb_lt; rewrite !length_app; lia).
    rewrite slice_block by auto.
    unfold aesEncryptBlock.
    destruct (f (key this) (xorBuffers b mask)) as [o|e] eqn:E; [|reflexivity].
    assert (Ho : length o = 16%nat).
    { apply (f_length (xorBuffers b mask)); auto.
      now rewrite xorBuffers_length. }
    set (cb := xorBuffers o unmask).
    assert (Hcb : length cb = 16%nat) by (unfold cb; now rewrite xorBuffers_length).
    rewrite (copy_block_at done cb (length (concat blocks)))
      by (rewrite ?length_app; lia).
    replace (length pre + 16)%nat with (length (pre ++ b)) by (rewrite length_app; lia).
    rewrite (app_assoc pre b), (app_assoc done cb).
    rewrite IH; [|rewrite !length_app; lia|cbn [length] in Hfuel; lia].
    destruct (chain f (key this) cb b blocks); [|reflexivity].
    cbn [concat]. now rewrite <- app_assoc.
Qed.

Lemma chain_app : forall bs1 bs2 mask unmask out,
  chain f (key this) mask unmask (bs1 ++ bs2) = Ok out ->
  exists o1 o2, chain f (key this) mask unmask bs1 = Ok o1 /\ out = o1 ++ o2 /\
                length o1 = length bs1.
Proof.
  induction bs1 as [|b bs1 IH]; intros bs2 mask unmask out H.
  - exists [], out. repeat split.
  - cbn [app chain] in H |- *.
    destruct (f (key this) (xorBuffers b mask)) as [o|e]; [|discriminate].
    destruct (chain f (key this) (xorBuffers o unmask) b (bs1 ++ bs2)) as [r|e] eqn:Er;
      [|discriminate].
    injection H as <-.
    destruct (IH _ _ _ _ Er) as (o1 & o2 & E1 & -> & L).
    rewrite E1. exists (xorBuffers o unmask :: o1), o2.
    repeat split. cbn [length]. now rewrite L.
Qed.

End Chained.

Lemma aligned_blocks (text : buffer) :
  (length text mod 16 = 0)%nat ->
  exists blocks, text = concat blocks /\ blocks16 blocks.
Proof.
  intros H.
  destruct (chunk16 (length text / 16) text) as (bs & E & H16 & _).
  - pose proof (Nat.div_mod_eq (length text) 16). lia.
  - now exists bs.
Qed.

Lemma encryptIge_aligned f rnd this blocks :
  blocks16 blocks ->
  encryptIge f rnd this (concat blocks) =
  encryptLoop f (length (concat blocks)) this (concat blocks) 0
    (slice (iv this) 0 16) (slice (iv this) 16 (2 * 16)) (alloc (length (concat blocks))).
Proof.
  intros H. unfold encryptIge.
  pose proof (mod16_blocks _ H) as E. rewrite E. reflexivity.
Qed.

Lemma encryptIge_chain f rnd this blocks :
  (forall b o, length b = 16%nat -> f (key this) b = Ok o -> length o = 16%nat) ->
  blocks16 blocks ->
  encryptIge f rnd this (concat blocks) =
  match chain f (key this) (slice (iv this) 0 16) (slice (iv this) 16 (2 * 16)) blocks with
  | Ok out => Ok (concat out)
  | Throw e => Throw e
  end.
Proof.
  intros Hf H. rewrite encryptIge_aligned by exact H.
  apply (encryptLoop_chain f this Hf blocks H _ _ [] []); [reflexivity|].
  rewrite (concat_length16 _ H). lia.
Qed.

Lemma padded_text rnd (plainText : buffer) :
  (if negb (length plainText mod 16 =? 0)%nat
   then plainText ++ rnd (16 - length plainText mod 16)%nat
   else plainText) = plainText ++ paddingTail rnd plainText.
Proof.
  unfold paddingTail. destruct (negb (length plainText mod 16 =? 0)%nat);
    [reflexivity|now rewrite app_nil_r].
Qed.

(** [encryptIge] on any text is [encryptIge] on the padded text. *)
Lemma encryptIge_padded f rnd this plainText :
  (forall n, length (rnd n) = n) ->
  encryptIge f rnd this plainText =
  encryptIge f rnd this (plainText ++ paddingTail rnd plainText).
Proof.
  intros Hr.
  destruct (padded_length rnd Hr (mkIGE (repeat "000"%byte 32) []) eq_refl plainText)
    as (n & Hn).
  unfold encryptIge at 2.
  replace (length (plainText ++ paddingTail rnd plainText) mod 16 =? 0)%nat with true.
  2:{ symmetry. apply Nat.eqb_eq. rewrite Hn, Nat.mul_comm. apply Nat.Div0.mod_mul. }
  cbn [negb]. unfold encryptIge. now rewrite padded_text.
Qed.

Lemma encrypts_length (aesEncrypt : buffer -> buffer -> result buffer) (this : IGE) :
  (forall k b, length k = 32%nat -> length b = 16%nat ->
     exists o, aesEncrypt k b = Ok o /\ length o = 16%nat) ->
  length (key this) = 32%nat ->
  forall b o, length b = 16%nat -> aesEncrypt (key this) b = Ok o -> length o = 16%nat.
Proof.
  intros Henc Hk b o Hb E. destruct (Henc (key this) b Hk Hb) as (o' & E' & Ho).
  congruence.
Qed.

Lemma chain_total (aesEncrypt : buffer -> buffer -> result buffer) (this : IGE) :
  (forall k b, length k = 32%nat -> length b = 16%nat ->
     exists o, aesEncrypt k b = Ok o /\ length o = 16%nat) ->
  length (key this) = 32%nat ->
  forall blocks mask unmask, blocks16 blocks ->
  exists out, chain aesEncrypt (key this) mask unmask blocks = Ok out.
Proof.
  intros Henc Hk.
  induction blocks as [|b blocks IH]; intros mask unmask H16.
  - now exists [].
  - inversion H16 as [|? ? Hb Hbs]; subst. cbn [chain].
    destruct (Henc (key this) (xorBuffers b mask) Hk) as (o & E & Ho).
    { now rewrite xorBuffers_length. }
    rewrite E. destruct (IH (xorBuffers o unmask) b Hbs) as (r & Er).
    rewrite Er. eauto.
Qed.

(** X3. Under a 32-byte key, when the block primitive encrypts every
    16-byte block to a 16-byte block, [encryptIge] returns a cipher text
    for every plain text; its length is the length of the plain text
    rounded up to the next multiple of 16; and a plain text that is
    already block-aligned is encrypted without a call of the random
    source, so that the result does not depend on it. *)
Theorem encryptIge_length
  (aesEncrypt : buffer -> buffer -> result buffer)
  (generateRandomBytes : nat -> buffer) (this : IGE) (plainText : buffer) :
  (forall k b, length k = 32%nat -> length b = 16%nat ->
     exists o, aesEncrypt k b = Ok o /\ length o = 16%nat) ->
  (forall n, length (generateRandomBytes n) = n) ->
  length (key this) = 32%nat ->
  exists cipherText,
    encryptIge aesEncrypt generateRandomBytes this plainText = Ok cipherText /\
    (length cipherText mod 16 = 0)%nat /\
    (length plainText <= length cipherText < length plainText + 16)%nat /\
    ((length plainText mod 16 = 0)%nat ->
     length cipherText = length plainText /\
     forall otherRandomBytes,
       encryptIge aesEncrypt otherRandomBytes this plainText = Ok cipherText).
Proof.
  intros Henc Hr Hk.
  pose proof (encrypts_length aesEncrypt this Henc Hk) as Hf.
  pose proof (chain_total aesEncrypt this Henc Hk) as Htotal.
  destruct (padded_length generateRandomBytes Hr this Hk plainText) as (n & Hn).
  destruct (chunk16 n _ Hn) as (blocks & Hcat & H16 & Hnb).
  destruct (Htotal blocks (slice (iv this) 0 16) (slice (iv this) 16 (2 * 16)) H16)
    as (out & Hout).
  destruct (chain_blocks16 aesEncrypt this Hf _ _ _ _ H16 Hout) as (Ho16 & Holen).
  assert (Hlen : length (concat out)
                 = length (plainText ++ paddingTail generateRandomBytes plainText)).
  { rewrite Hcat, !concat_length16 by assumption. now rewrite Holen. }
  exists (concat out). split; [|split; [|split]].
  - rewrite encryptIge_padded by exact Hr. rewrite Hcat.
    rewrite encryptIge_chain by assumption. now rewrite Hout.
  - rewrite (concat_length16 _ Ho16), Nat.mul_comm. apply Nat.Div0.mod_mul.
  - rewrite Hlen, length_app. unfold paddingTail.
    pose proof (Nat.mod_upper_bound (length plainText) 16 ltac:(lia)).
    destruct (length plainText mod 16 =? 0)%nat eqn:E; cbn [negb length].
    + lia.
    + apply Nat.eqb_neq in E. rewrite Hr. lia.
  - intros Hal. split.
    + rewrite Hlen, length_app. unfold paddingTail.
      rewrite Hal. cbn. lia.
    + intros other.
      assert (Hp : paddingTail generateRandomBytes plainText = []).
      { unfold paddingTail. now rewrite Hal. }
      rewrite Hp, app_nil_r in Hcat. rewrite Hcat.
      rewrite encryptIge_chain by assumption. now rewrite Hout.
Qed.

Lemma encryptIge_length_witness :
  exists cipherText,
    encryptIge toyCipher toyRandom (mkIGE sampleKey sampleIv) (repeat "007"%byte 5)
      = Ok cipherText /\
    (length cipherText mod 16 = 0)%nat /\
    (length (repeat "007"%byte 5) <= length cipherText
       < length (repeat "007"%byte 5) + 16)%nat /\
    ((length (repeat "007"%byte 5) mod 16 = 0)%nat ->
     length cipherText = length (repeat "007"%byte 5) /\
     forall otherRandomBytes,
       encryptIge toyCipher otherRandomBytes (mkIGE sampleKey sampleIv)
         (repeat "007"%byte 5) = Ok cipherText).
Proof.
  apply (encryptIge_length toyCipher toyRandom (mkIGE sampleKey sampleIv)
           (repeat "007"%byte 5)).
  - intros k b _ Hb. exists (xorBuffers b k). split; [reflexivity|].
    now rewrite xorBuffers_length.
  - intros n. apply repeat_length.
  - reflexivity.
Defined.

(** X4. The other direction of the round trip.  Under a 32-byte key,
    when the block primitives are such that a 16-byte block is decrypted
    to a 16-byte block which encrypts to the block it came from, a
    cipher text whose length is a multiple of 16 is decrypted by
    [decryptIge] to a plain text of the same length, and [encryptIge]
    turns that plain text into the cipher text again, whatever the
    random source. *)
Theorem encryptIge_after_decryptIge
  (aesEncrypt aesDecrypt : buffer -> buffer -> result buffer)
  (generateRandomBytes : nat -> buffer) (this : IGE) (cipherText : buffer) :
  (forall k b, length k = 32%nat -> length b = 16%nat ->
     exists o, aesDecrypt k b = Ok o /\ length o = 16%nat /\ aesEncrypt k o = Ok b) ->
  length (key this) = 32%nat ->
  (length cipherText mod 16 = 0)%nat ->
  exists plainText,
    decryptIge aesDecrypt this cipherText = Ok plainText /\
    length plainText = length cipherText /\
    encryptIge aesEncrypt generateRandomBytes this plainText = Ok cipherText.
Proof.
  intros Hinv Hk Hal.
  destruct (aligned_blocks cipherText Hal) as (blocks & -> & H16).
  destruct (loops_blockwise aesDecrypt aesEncrypt Hinv this Hk blocks H16
              (slice (iv this) 16 (2 * 16)) (slice (iv this) 0 16) [] []
              (length (concat blocks)))
    as (pblocks & Hp16 & Hplen & Hdec & Henc); [reflexivity| |].
  { rewrite (concat_length16 _ H16). lia. }
  exists (concat pblocks). split; [|split].
  - unfold decryptIge. rewrite mod16_blocks by assumption. cbn [negb].
    rewrite decryptLoop_swap. exact Hdec.
  - rewrite !concat_length16 by assumption. now rewrite Hplen.
  - rewrite encryptIge_aligned by assumption.
    rewrite <- decryptLoop_swap.
    apply (Henc [] [] (length (concat pblocks))); [reflexivity|].
    rewrite (concat_length16 _ Hp16). lia.
Qed.

Lemma encryptIge_after_decryptIge_witness :
  exists plainText,
    decryptIge toyCipher (mkIGE sampleKey sampleIv) (repeat "007"%byte 32) = Ok plainText /\
    length plainText = length (repeat "007"%byte 32) /\
    encryptIge toyCipher toyRandom (mkIGE sampleKey sampleIv) plainText
      = Ok (repeat "007"%byte 32).
Proof.
  apply (encryptIge_after_decryptIge toyCipher toyCipher toyRandom
           (mkIGE sampleKey sampleIv) (repeat "007"%byte 32)).
  - intros k b Hk Hb. exact (toyCipher_roundtrip k b Hk Hb).
  - reflexivity.
  - reflexivity.
Defined.

(** X5. In IGE mode a cipher block depends on the blocks before it
    only.  Under a 32-byte key and a block primitive that encrypts every
    16-byte block to a 16-byte block, the cipher text of a block-aligned
    text followed by any further text starts with the cipher text of the
    block-aligned text alone. *)
Theorem encryptIge_prefix
  (aesEncrypt : buffer -> buffer -> result buffer)
  (generateRandomBytes : nat -> buffer) (this : IGE) (head more : buffer) :
  (forall k b, length k = 32%nat -> length b = 16%nat ->
     exists o, aesEncrypt k b = Ok o /\ length o = 16%nat) ->
  (forall n, length (generateRandomBytes n) = n) ->
  length (key this) = 32%nat ->
  (length head mod 16 = 0)%nat ->
  exists c1 c2,
    encryptIge aesEncrypt generateRandomBytes this head = Ok c1 /\
    length c1 = length head /\
    encryptIge aesEncrypt generateRandomBytes this (head ++ more) = Ok (c1 ++ c2).
Proof.
  intros Henc Hr Hk Hal.
  pose proof (encrypts_length aesEncrypt this Henc Hk) as Hf.
  destruct (aligned_blocks head Hal) as (bs1 & E1 & H1).
  destruct (padded_length generateRandomBytes Hr this Hk (head ++ more)) as (n & Hn).
  rewrite <- app_assoc in Hn.
  assert (Hrest : exists bs2,
            more ++ paddingTail generateRandomBytes (head ++ more) = concat bs2 /\
            blocks16 bs2).
  { apply aligned_blocks. rewrite length_app in Hn.
    pose proof (Nat.div_mod_eq (length head) 16).
    rewrite Hal in *.
    replace (length (more ++ paddingTail generateRandomBytes (head ++ more)))
      with (16 * (n - length head / 16))%nat by lia.
    rewrite Nat.mul_comm. apply Nat.Div0.mod_mul. }
  destruct Hrest as (bs2 & E2 & H2).
  assert (H12 : blocks16 (bs1 ++ bs2)) by (apply Forall_app; now split).
  destruct (chain_total aesEncrypt this Henc Hk (bs1 ++ bs2)
              (slice (iv this) 0 16) (slice (iv this) 16 (2 * 16)) H12) as (out & Eout).
  destruct (chain_app aesEncrypt this _ _ _ _ _ Eout) as (o1 & o2 & Eo1 & -> & L1).
  destruct (chain_blocks16 aesEncrypt this Hf _ _ _ _ H1 Eo1) as (Ho16 & _).
  exists (concat o1), (concat o2). split; [|split].
  - rewrite E1, encryptIge_chain by assumption. now rewrite Eo1.
  - rewrite E1, !concat_length16 by assumption. now rewrite L1.
  - rewrite encryptIge_padded by exact Hr.
    rewrite <- app_assoc, E2, E1, <- concat_app.
    rewrite encryptIge_chain by (try assumption; apply Forall_app; now split).
    rewrite Eout. now rewrite concat_app.
Qed.

Lemma encryptIge_prefix_witness :
  exists c1 c2,
    encryptIge toyCipher toyRandom (mkIGE sampleKey sampleIv) (repeat "007"%byte 16)
      = Ok c1 /\
    length c1 = length (repeat "007"%byte 16) /\
    encryptIge toyCipher toyRandom (mkIGE sampleKey sampleIv)
      (repeat "007"%byte 16 ++ repeat "011"%byte 3) = Ok (c1 ++ c2).
Proof.
  apply (encryptIge_prefix toyCipher toyRandom (mkIGE sampleKey sampleIv)
           (repeat "007"%byte 16) (repeat "011"%byte 3)).
  - intros k b _ Hb. exists (xorBuffers b k). split; [reflexivity|].
    now rewrite xorBuffers_length.
  - intros n. apply repeat_length.
  - reflexivity.
  - reflexivity.
Defined.

(** X6. [xorBuffers a b] has the length of [a], whatever the length of
    [b], and combining the result with [b] again gives [a] back. *)
Theorem xorBuffers_self_inverse (a b : buffer) :
  length (xorBuffers a b) = length a /\ xorBuffers (xorBuffers a b) b = a.
Proof.
  split; [apply xorBuffers_length|apply xorBuffers_involutive].
Qed.

End IGEChainFacts.

(** ** The update engine: catching up, handling, dispatching *)

Module EngineFacts.
Import Updates EngineNotions UpdatesFacts.

Lemma requests_app a b : requests (a ++ b) = requests a ++ requests b.
Proof. apply flat_map_app. Qed.

Lemma requests_dispatch l : requests (map DispatchUpdate l) = [].
Proof. induction l; [reflexivity|assumption]. Qed.

Lemma requests_iteration r a b l :
  requests ([Invoke r; EntityCacheAdd a; ProcessEntities b] ++ map DispatchUpdate l) = [r].
Proof. cbn. now rewrite requests_dispatch. Qed.

Lemma dispatches_iteration r a b l :
  dispatches ([Invoke r; EntityCacheAdd a; ProcessEntities b] ++ map DispatchUpdate l) = l.
Proof. cbn. apply dispatches_map. Qed.

Section ReturningCaches.

Variable entityCacheAdd : cached -> option exn.
Variable processEntities : cached -> option exn.
Hypothesis cache_returns : forall x, entityCacheAdd x = None.
Hypothesis session_returns : forall x, processEntities x = None.

Lemma fetchLoop_slices : forall ds, Forall (fun d => isSlice d = true) ds ->
  forall us tr ms os cs users st rest,
  exists c,
    fetchLoop entityCacheAdd processEntities
      (map (fun d => Return (RDifference d)) ds
       ++ Return (RDifference (Difference ms os cs users st)) :: rest)
      (mkClient (Some us) tr) = Some (c, None, rest) /\
    _updateState c = Some st /\
    dispatches (trace c) =
      dispatches tr ++ flat_map fanOutOf ds ++ fanOut ms os cs users /\
    requests (trace c) =
      requests tr ++ map getDifferenceAt (us :: sliceStates ds).
Proof.
  induction 1 as [|d ds Hd Hds IH]; intros us tr ms os cs users st rest.
  - cbn [map app]. rewrite (fetchLoop_full _ _ cache_returns session_returns).
    eexists. split; [reflexivity|]. cbn [_updateState trace].
    split; [reflexivity|]. split.
    + rewrite dispatches_app, dispatches_iteration. reflexivity.
    + rewrite requests_app, requests_iteration. reflexivity.
  - destruct d as [| |ms' os' cs' users' st'|]; try discriminate.
    cbn [map app]. rewrite (fetchLoop_slice _ _ cache_returns session_returns).
    destruct (IH st'
                (tr ++ [Invoke (GetDifference (pts us) (date us) (qts us));
                        EntityCacheAdd (CDifference (DifferenceSlice ms' os' cs' users' st'));
                        ProcessEntities (CDifference (DifferenceSlice ms' os' cs' users' st'))]
                    ++ map DispatchUpdate (fanOut ms' os' cs' users'))
                ms os cs users st rest) as (c & E & Hs & Hd' & Hr).
    exists c. split; [exact E|]. split; [exact Hs|]. split.
    + rewrite Hd', dispatches_app, dispatches_iteration. cbn [flat_map fanOutOf].
      now rewrite <- !app_assoc.
    + rewrite Hr, requests_app, requests_iteration. cbn [sliceStates flat_map map app].
      now rewrite <- app_assoc.
Qed.

End ReturningCaches.

(** X7. [catchUp] on any number of slices followed by a full
    difference, with caches that return: every reply is read, each
    request carries the state the previous slice left (the first one the
    stored state), the messages and updates of every reply are handed to
    [_dispatchUpdate] in order, and the state of the full difference is
    the one that stays. *)
Theorem catchUp_slices_then_full
  (entityCacheAdd processEntities : cached -> option exn)
  (ds : list difference) (us : UpdateState) (tr : list event)
  (ms : list apiMessage) (os : list object) (cs users : list entity)
  (st : UpdateState) (rest : script) :
  (forall x, entityCacheAdd x = None) ->
  (forall x, processEntities x = None) ->
  Forall (fun d => isSlice d = true) ds ->
  exists c,
    catchUp entityCacheAdd processEntities (mkClient (Some us) tr)
      (map (fun d => Return (RDifference d)) ds
       ++ Return (RDifference (Difference ms os cs users st)) :: rest)
    = Some (c, rest) /\
    _updateState c = Some st /\
    dispatches (trace c) =
      dispatches tr ++ flat_map fanOutOf ds ++ fanOut ms os cs users /\
    requests (trace c) = requests tr ++ map getDifferenceAt (us :: sliceStates ds).
Proof.
  intros Hc Hs Hds.
  destruct (fetchLoop_slices entityCacheAdd processEntities Hc Hs ds Hds us
              (tr ++ [LogDebug "Catching up on missed updates..."])
              ms os cs users st rest) as (c & E & Hst & Hd & Hr).
  unfold catchUp, emit. cbn [_updateState trace]. rewrite E.
  eexists. split; [reflexivity|]. cbn [_updateState trace].
  split; [exact Hst|]. split.
  - rewrite dispatches_app, Hd, dispatches_app. cbn [dispatches flat_map app].
    now rewrite !app_nil_r.
  - rewrite requests_app, Hr, requests_app. cbn [requests flat_map app].
    now rewrite !app_nil_r.
Qed.

Lemma catchUp_slices_then_full_witness :
  exists c,
    catchUp quiet quiet (mkClient (Some sampleState) [])
      (map (fun d => Return (RDifference d)) [sampleSlice1; sampleSlice2]
       ++ Return (RDifference (Difference [Message 15] [OtherUpdate 16] [] []
                                 (mkState 20 21 22 23))) :: [])
    = Some (c, []) /\
    _updateState c = Some (mkState 20 21 22 23) /\
    dispatches (trace c) =
      dispatches [] ++ flat_map fanOutOf [sampleSlice1; sampleSlice2]
                 ++ fanOut [Message 15] [OtherUpdate 16] [] [] /\
    requests (trace c) =
      requests [] ++ map getDifferenceAt (sampleState :: sliceStates [sampleSlice1; sampleSlice2]).
Proof.
  apply (catchUp_slices_then_full quiet quiet [sampleSlice1; sampleSlice2] sampleState []
           [Message 15] [OtherUpdate 16] [] [] (mkState 20 21 22 23) []).
  - reflexivity.
  - reflexivity.
  - repeat constructor.
Defined.



(** *** [_handleUpdate] *)

(** X9. A container ([Updates] or [UpdatesCombined]) handed to
    [_handleUpdate], with caches that return: the container goes to the
    entity cache and to the session once, then every update it holds is
    handed to [_dispatchUpdate] once, in order, each with the map of the
    container's users and chats and with the whole list as [others].
    The two kinds of container are treated alike. *)
Theorem handleUpdate_container
  (entityCacheAdd processEntities : cached -> option exn)
  (c : client) (users chats : list entity) (updates : list object) :
  (forall x, entityCacheAdd x = None) ->
  (forall x, processEntities x = None) ->
  let entities := collectEntities (users ++ chats) [] in
  let fanned := map (fun u => mkArgs (WithEntities u entities) (Some updates)) updates in
  _handleUpdate entityCacheAdd processEntities c (Obj (Updates users chats updates))
  = emit c ([EntityCacheAdd (CUpdate (Obj (Updates users chats updates)));
             ProcessEntities (CUpdate (Obj (Updates users chats updates)))]
            ++ map DispatchUpdate fanned)
  /\
  _handleUpdate entityCacheAdd processEntities c (Obj (UpdatesCombined users chats updates))
  = emit c ([EntityCacheAdd (CUpdate (Obj (UpdatesCombined users chats updates)));
             ProcessEntities (CUpdate (Obj (UpdatesCombined users chats updates)))]
            ++ map DispatchUpdate fanned)
  /\
  dispatches (trace (_handleUpdate entityCacheAdd processEntities c
                       (Obj (Updates users chats updates))))
  = dispatches (trace c) ++ fanned.
Proof.
  intros Hc Hs entities fanned.
  assert (E1 : _handleUpdate entityCacheAdd processEntities c (Obj (Updates users chats updates))
               = emit c ([EntityCacheAdd (CUpdate (Obj (Updates users chats updates)));
                          ProcessEntities (CUpdate (Obj (Updates users chats updates)))]
                         ++ map DispatchUpdate fanned)).
  { unfold _handleUpdate. rewrite Hc, Hs, forEach_updates, !emit_emit.
    unfold fanned. now rewrite map_map. }
  split; [exact E1|]. split.
  - unfold _handleUpdate. rewrite Hc, Hs, forEach_updates, !emit_emit.
    unfold fanned. now rewrite map_map.
  - rewrite E1. unfold emit. cbn [trace].
    rewrite dispatches_app. f_equal. cbn [app].
    change (dispatches (?a :: ?b :: ?l)) with (dispatches l).
    apply dispatches_map.
Qed.

Lemma handleUpdate_container_witness :
  let entities := collectEntities (sampleUsers ++ sampleChats) [] in
  let fanned := map (fun u => mkArgs (WithEntities u entities)
                                (Some [OtherUpdate 1; OtherUpdate 2]))
                    [OtherUpdate 1; OtherUpdate 2] in
  _handleUpdate quiet quiet (mkClient None [])
    (Obj (Updates sampleUsers sampleChats [OtherUpdate 1; OtherUpdate 2]))
  = emit (mkClient None [])
      ([EntityCacheAdd (CUpdate (Obj (Updates sampleUsers sampleChats
                                        [OtherUpdate 1; OtherUpdate 2])));
        ProcessEntities (CUpdate (Obj (Updates sampleUsers sampleChats
                                         [OtherUpdate 1; OtherUpdate 2])))]
       ++ map DispatchUpdate fanned)
  /\
  _handleUpdate quiet quiet (mkClient None [])
    (Obj (UpdatesCombined sampleUsers sampleChats [OtherUpdate 1; OtherUpdate 2]))
  = emit (mkClient None [])
      ([EntityCacheAdd (CUpdate (Obj (UpdatesCombined sampleUsers sampleChats
                                        [OtherUpdate 1; OtherUpdate 2])));
        ProcessEntities (CUpdate (Obj (UpdatesCombined sampleUsers sampleChats
                                         [OtherUpdate 1; OtherUpdate 2])))]
       ++ map DispatchUpdate fanned)
  /\
  dispatches (trace (_handleUpdate quiet quiet (mkClient None [])
                       (Obj (Updates sampleUsers sampleChats
                               [OtherUpdate 1; OtherUpdate 2]))))
  = dispatches (trace (mkClient None [])) ++ fanned.
Proof.
  apply (handleUpdate_container quiet quiet (mkClient None []) sampleUsers sampleChats
           [OtherUpdate 1; OtherUpdate 2]); reflexivity.
Defined.

(** X10. The connection signals -1, 0 and 1 never reach the entity
    cache or the session: whatever these would do, the signal is wrapped
    into a connection-state update and handed to [_dispatchUpdate], and
    nothing else happens. *)
Theorem handleUpdate_signal
  (entityCacheAdd processEntities : cached -> option exn) (c : client) (n : Z) :
  n = -1 \/ n = 0 \/ n = 1 ->
  _handleUpdate entityCacheAdd processEntities c (Num n)
  = emit c [DispatchUpdate (mkArgs (UpdateConnectionState n) None)].
Proof.
  intros [-> | [-> | ->]]; reflexivity.
Qed.

Lemma handleUpdate_signal_witness :
  _handleUpdate throwingCache throwingCache (mkClient None []) (Num (-1))
  = emit (mkClient None []) [DispatchUpdate (mkArgs (UpdateConnectionState (-1)) None)].
Proof.
  apply (handleUpdate_signal throwingCache throwingCache (mkClient None []) (-1)).
  left. reflexivity.
Defined.

Lemma sameStateLater_refl c : sameStateLater c c.
Proof. split; [reflexivity|]. exists []. now rewrite app_nil_r. Qed.

Lemma sameStateLater_trans a b c :
  sameStateLater a b -> sameStateLater b c -> sameStateLater a c.
Proof.
  intros (S1 & e1 & T1) (S2 & e2 & T2). split; [congruence|].
  exists (e1 ++ e2). now rewrite T2, T1, app_assoc.
Qed.

Lemma sameStateLater_emit c es : sameStateLater c (emit c es).
Proof. split; [reflexivity|]. now exists es. Qed.

Lemma processUpdate_later c u others entities :
  sameStateLater c (fst (_processUpdate c u others entities)).
Proof.
  destruct u; cbn [_processUpdate fst];
    [apply sameStateLater_refl|apply sameStateLater_emit].
Qed.

Lemma forEach_later {A} (body : client -> A -> client * option exn) :
  (forall c x, sameStateLater c (fst (body c x))) ->
  forall xs c, sameStateLater c (fst (forEach body xs c)).
Proof.
  intros Hb. induction xs as [|x xs IH]; intros c; [apply sameStateLater_refl|].
  cbn [forEach]. pose proof (Hb c x) as H. destruct (body c x) as [c' [e|]].
  - exact H.
  - cbn [fst] in H. eapply sameStateLater_trans; [exact H|apply IH].
Qed.

(** X11. [_handleUpdate] never touches the stored update state, and
    never takes back what was done before it: whatever the update and
    whatever the caches do, the state after the call is the state before
    it, and the effects before the call are still there, in order. *)
Theorem handleUpdate_keeps_state
  (entityCacheAdd processEntities : cached -> option exn) (c : client) (update : jsupdate) :
  sameStateLater c (_handleUpdate entityCacheAdd processEntities c update).
Proof.
  unfold _handleUpdate.
  destruct (match update with
            | Num n => if existsb (Z.eqb n) [-1; 0; 1] then Some n else None
            | Obj _ => None
            end) as [n|]; [apply sameStateLater_emit|].
  set (c1 := emit c [EntityCacheAdd (CUpdate update)]).
  assert (H1 : sameStateLater c c1) by apply sameStateLater_emit.
  destruct (entityCacheAdd (CUpdate update)) as [e|].
  { eapply sameStateLater_trans; [exact H1|apply sameStateLater_emit]. }
  set (c2 := emit c1 [ProcessEntities (CUpdate update)]).
  assert (H2 : sameStateLater c c2).
  { eapply sameStateLater_trans; [exact H1|apply sameStateLater_emit]. }
  destruct (processEntities (CUpdate update)) as [e|].
  { eapply sameStateLater_trans; [exact H2|apply sameStateLater_emit]. }
  assert (Hbody : forall (r : client * option exn),
            sameStateLater c2 (fst r) ->
            sameStateLater c match r with
                             | (c', None) => c'
                             | (c', Some e) => emit c' [LogError "Error handling update: " e]
                             end).
  { intros [c' [e|]] H; cbn [fst] in H.
    - eapply sameStateLater_trans; [exact H2|].
      eapply sameStateLater_trans; [exact H|apply sameStateLater_emit].
    - eapply sameStateLater_trans; [exact H2|exact H]. }
  destruct update as [n|[users chats updates|users chats updates|inner|m p pc|id]];
    apply Hbody;
    try apply processUpdate_later;
    apply forEach_later; intros; apply processUpdate_later.
Qed.

(** *** The map of entities *)

Lemma mapGet_mapSet k v mp k' :
  mapGet k' (mapSet k v mp) = if k' =? k then Some v else mapGet k' mp.
Proof.
  induction mp as [|[k0 v0] mp IH]; cbn [mapSet mapGet].
  - reflexivity.
  - destruct (k =? k0) eqn:E; cbn [mapGet].
    + apply Z.eqb_eq in E. subst k0. destruct (k' =? k); reflexivity.
    + rewrite IH. destruct (k' =? k0) eqn:E0; [|reflexivity].
      apply Z.eqb_eq in E0. subst k0.
      destruct (k' =? k) eqn:E1; [|reflexivity].
      apply Z.eqb_eq in E1. subst. rewrite Z.eqb_refl in E. discriminate.
Qed.

Lemma mapSet_keys k v mp :
  map fst (mapSet k v mp) = if existsb (Z.eqb k) (map fst mp) then map fst mp
                            else map fst mp ++ [k].
Proof.
  induction mp as [|[k0 v0] mp IH]; cbn [mapSet map fst existsb app]; [reflexivity|].
  destruct (k =? k0) eqn:E; cbn [orb map fst]; [reflexivity|].
  rewrite IH. now destruct (existsb (Z.eqb k) (map fst mp)).
Qed.

Lemma mapSet_NoDup k v mp : NoDup (map fst mp) -> NoDup (map fst (mapSet k v mp)).
Proof.
  intros H. rewrite mapSet_keys.
  destruct (existsb (Z.eqb k) (map fst mp)) eqn:E; [exact H|].
  apply NoDup_app; [exact H|repeat constructor; intros []|].
  intros x Hx [Ex|[]]. subst x.
  assert (existsb (Z.eqb k) (map fst mp) = true); [|congruence].
  apply existsb_exists. exists k. split; [exact Hx|apply Z.eqb_refl].
Qed.

Lemma collectEntities_snoc xs x mp :
  collectEntities (xs ++ [x]) mp =
  match peerId x with
  | Some k => mapSet k x (collectEntities xs mp)
  | None => collectEntities xs mp
  end.
Proof. unfold collectEntities. now rewrite fold_left_app. Qed.

(** X12. The map of entities built from a list: the key of an entity
    is its peer id; an entity whose peer id cannot be computed is left
    out; of several entities with one peer id the last one is kept; and
    no key occurs twice.  [_processDifference] goes through the users
    first and the chats after them, as [_handleUpdate] does, so that a
    chat replaces a user with the same peer id. *)
Theorem collectEntities_lookup (xs : list entity) (mp : entityMap) (k : Z) :
  mapGet k (collectEntities xs mp) =
    match lastWithPeer k xs with
    | Some x => Some x
    | None => mapGet k mp
    end
  /\ (NoDup (map fst mp) -> NoDup (map fst (collectEntities xs mp)))
  /\ (forall users chats,
        collectEntities chats (collectEntities users []) = collectEntities (users ++ chats) []).
Proof.
  split; [|split].
  - induction xs as [|x xs IH] using rev_ind; [reflexivity|].
    rewrite collectEntities_snoc. unfold lastWithPeer in *.
    rewrite rev_app_distr. cbn [rev app find].
    destruct (peerId x) as [k'|]; [|exact IH].
    rewrite mapGet_mapSet. destruct (k =? k'); [reflexivity|exact IH].
  - intros H. induction xs as [|x xs IH] using rev_ind; [exact H|].
    rewrite collectEntities_snoc. destruct (peerId x); [|exact IH].
    now apply mapSet_NoDup.
  - intros users chats. unfold collectEntities. now rewrite fold_left_app.
Qed.

(** *** The round of [_dispatchUpdate] *)

Lemma last_app_nonempty {A} (a b : list A) (d : A) :
  b <> [] -> last (a ++ b) d = last b d.
Proof.
  intros Hb. induction a as [|x a IH]; [reflexivity|].
  cbn [app]. rewrite <- IH. cbn [last].
  destruct (a ++ b) eqn:E; [|reflexivity].
  apply app_eq_nil in E. destruct E as (_ & ->). contradiction.
Qed.

Section Round.

Variable builtEvent : Type.
Variable getMe : option Z.

Lemma selfAfter_idem self : selfAfter getMe (selfAfter getMe self) = selfAfter getMe self.
Proof. destruct self; [reflexivity|]. cbn. destruct getMe; reflexivity. Qed.

(** What one pair contributes to a round. *)
Lemma dispatchPair_facts errorHandler i (entry : handlerPair builtEvent) self args :
  forall entry' self' steps fl,
  dispatchPair getMe errorHandler i entry self args = (entry', self', steps, fl) ->
  (self' = self \/ self' = selfAfter getMe self) /\
  (calledAt steps = [] \/ calledAt steps = [i]) /\
  (forall j ev thrown, In (Called j ev thrown) steps ->
     j = i /\ exists b cb, entry = (Some b, Some cb) /\ thrown = cb ev /\
                          reachesCallback getMe b self args ev) /\
  (gotMeCount steps = match self with
                      | Some _ => 0%nat
                      | None => gotMeCount steps
                      end /\ (gotMeCount steps <= 1)%nat /\
   (gotMeCount steps = 1%nat -> self = None /\ self' = getMe) /\
   (gotMeCount steps = 0%nat -> self' = self)) /\
  match fl with
  | Propagate e' =>
      (exists h e ev, errorHandler = Some h /\ h e = Some e' /\
                      isStopPropagation e = false /\
                      In (Called i ev (Some e)) steps /\
                      last steps GotMe = ErrorHandled e)
      \/
      (exists b cb event, entry = (Some b, Some cb) /\
                          reachesBuild getMe b self args event /\
                          throwsAfterBuild event e' /\
                          calledAt steps = [] /\
                          last steps GotMe = Built i)
  | _ => True
  end.
Proof.
  intros entry' self' steps fl H.
  destruct entry as [[b|] [cb|]]; cbn [dispatchPair] in H.
  2,3,4: injection H as <- <- <- <-;
         (split; [auto|]); (split; [cbn; auto|]); (split; [intros j ev thrown []|]);
         (split; [destruct self; cbn; repeat split; auto; try lia; discriminate|exact I]).
  unfold resolveBuilder in H.
  destruct (resolved b) eqn:Er; cbn [negb] in H;
    [|destruct (resolve b) as [e0|] eqn:Ee];
    (destruct self as [z|]; cbn [selfAfter]);
    try (destruct getMe as [me|] eqn:Eme);
    cbn [build filter] in H.
  all: try (destruct (build b (update_ args) _) as [[|n|ev o]|e1] eqn:Eb;
            [ | |destruct (attachClient o) as [ea|] eqn:Ea;
                 [|destruct (filter b ev) as [[|]|e2] eqn:Ef;
                   [destruct (cb ev) as [e|] eqn:Ecb;
                    [destruct (isStopPropagation e) eqn:Estop;
                     [|destruct errorHandler as [h|];
                       [destruct (h e) as [e'|] eqn:Eh|]]|]| |]]|]).
  all: injection H as <- <- <- <-; cbn [app].
  all: split; [auto|].
  all: split; [cbn; auto|].
  all: split;
    [intros j ev' thrown Hin; cbn [In] in Hin;
     repeat (destruct Hin as [D|Hin]; [try discriminate|]); try contradiction;
     try (injection D as <- <- <-; split; [reflexivity|];
          exists b, cb; split; [reflexivity|]; split; [congruence|];
          unfold reachesCallback; cbn [selfAfter]; rewrite ?Eme;
          split; [auto|]; split; [exists o; split; assumption|assumption])|].
  all: split; [cbn; repeat split; auto; try lia; try discriminate|].
  all: try exact I.
  all: first
    [ left; exists h, e, ev; repeat split; auto; cbn [In]; tauto
    | right; exists b, cb; eexists; split; [reflexivity|];
      split; [split; [auto|cbn [selfAfter]; rewrite ?Eme; exact Eb]|];
      split; [cbn; first [reflexivity|assumption]|]; split; reflexivity ].
Qed.

Lemma reachesCallback_self (b : EventBuilder builtEvent) self1 self args ev :
  selfAfter getMe self1 = selfAfter getMe self ->
  reachesCallback getMe b self1 args ev -> reachesCallback getMe b self args ev.
Proof. unfold reachesCallback. now intros ->. Qed.

Lemma calledAt_app (a b : list (step builtEvent)) :
  calledAt (a ++ b) = calledAt a ++ calledAt b.
Proof. apply flat_map_app. Qed.

Lemma gotMeCount_app (a b : list (step builtEvent)) :
  gotMeCount (a ++ b) = (gotMeCount a + gotMeCount b)%nat.
Proof. unfold gotMeCount. now rewrite filter_app, length_app. Qed.

Lemma In_calledAt (steps : list (step builtEvent)) j :
  In j (calledAt steps) <-> exists ev thrown, In (Called j ev thrown) steps.
Proof.
  unfold calledAt. rewrite in_flat_map. split.
  - intros (s0 & Hs & Hj). destruct s0; try contradiction.
    destruct Hj as [<-|[]]. eauto.
  - intros (ev & thrown & H). exists (Called j ev thrown). split; [exact H|now left].
Qed.

(** The calls of a round from position [i] on. *)
Lemma dispatchLoop_calls errorHandler (pairs : list (handlerPair builtEvent)) :
  forall i self args pairs' self' steps r,
  dispatchLoop getMe errorHandler i pairs self args = (pairs', self', steps, r) ->
  selfAfter getMe self' = selfAfter getMe self /\
  forall j ev thrown, In (Called j ev thrown) steps ->
    (i <= j)%nat /\
    exists b cb, nth_error pairs (j - i) = Some (Some b, Some cb) /\ thrown = cb ev /\
                 reachesCallback getMe b self args ev.
Proof.
  induction pairs as [|entry rest IH]; intros i self args pairs' self' steps r H.
  - injection H as <- <- <- <-. split; [reflexivity|]. intros j ev thrown [].
  - cbn [dispatchLoop] in H.
    destruct (dispatchPair getMe errorHandler i entry self args)
      as [[[entry1 self1] steps1] fl] eqn:Ep.
    destruct (dispatchPair_facts errorHandler i entry self args _ _ _ _ Ep)
      as (Hself & _ & Hcalled & _).
    assert (Hs1 : selfAfter getMe self1 = selfAfter getMe self).
    { destruct Hself as [->| ->]; [reflexivity|apply selfAfter_idem]. }
    assert (Hhead : forall j ev thrown, In (Called j ev thrown) steps1 ->
              (i <= j)%nat /\
              exists b cb, nth_error (entry :: rest) (j - i) = Some (Some b, Some cb) /\
                           thrown = cb ev /\ reachesCallback getMe b self args ev).
    { intros j ev thrown Hin. destruct (Hcalled _ _ _ Hin) as (-> & b & cb & -> & Ht & Hr).
      split; [lia|]. exists b, cb. rewrite Nat.sub_diag. auto. }
    destruct fl as [| |e].
    + destruct (dispatchLoop getMe errorHandler (S i) rest self1 args)
        as [[[rest' self2] steps2] r2] eqn:El.
      injection H as <- <- <- <-.
      destruct (IH _ _ _ _ _ _ _ El) as (Hs2 & Hrest).
      split; [congruence|].
      intros j ev thrown Hin. apply in_app_or in Hin. destruct Hin as [Hin|Hin].
      * now apply Hhead.
      * destruct (Hrest _ _ _ Hin) as (Hle & b & cb & Hn & Ht & Hr).
        split; [lia|]. exists b, cb.
        replace (j - i)%nat with (S (j - S i)) by lia.
        split; [exact Hn|]. split; [exact Ht|].
        now apply (reachesCallback_self b self1).
    + injection H as <- <- <- <-. split; [exact Hs1|exact Hhead].
    + injection H as <- <- <- <-. split; [exact Hs1|exact Hhead].
Qed.

Lemma dispatchLoop_order errorHandler (pairs : list (handlerPair builtEvent)) :
  forall i self args,
  StronglySorted lt
    (calledAt (snd (fst (dispatchLoop getMe errorHandler i pairs self args)))) /\
  Forall (fun j => (i <= j)%nat)
    (calledAt (snd (fst (dispatchLoop getMe errorHandler i pairs self args)))).
Proof.
  induction pairs as [|entry rest IH]; intros i self args.
  - cbn. split; constructor.
  - cbn [dispatchLoop].
    destruct (dispatchPair getMe errorHandler i entry self args)
      as [[[entry1 self1] steps1] fl] eqn:Ep.
    destruct (dispatchPair_facts errorHandler i entry self args _ _ _ _ Ep)
      as (_ & Hc & _).
    assert (Hone : StronglySorted lt (calledAt steps1) /\
                   Forall (fun j => (i <= j)%nat) (calledAt steps1)).
    { destruct Hc as [-> | ->]; split; repeat constructor. }
    destruct fl as [| |e]; cbn [fst snd]; try exact Hone.
    specialize (IH (S i) self1 args).
    destruct (dispatchLoop getMe errorHandler (S i) rest self1 args)
      as [[[rest' self2] steps2] r2].
    cbn [fst snd] in *. destruct IH as (Hsorted & Hge).
    rewrite calledAt_app.
    destruct Hc as [-> | ->]; cbn [app].
    + split; [exact Hsorted|]. eapply Forall_impl; [|exact Hge]. cbn. intros; lia.
    + split.
      * constructor; [exact Hsorted|]. eapply Forall_impl; [|exact Hge]. cbn. intros; lia.
      * constructor; [lia|]. eapply Forall_impl; [|exact Hge]. cbn. intros; lia.
Qed.

Lemma dispatchLoop_rejection errorHandler (pairs : list (handlerPair builtEvent)) :
  forall i self args pairs' self' steps e',
  dispatchLoop getMe errorHandler i pairs self args = (pairs', self', steps, Some e') ->
  (exists h e j ev, errorHandler = Some h /\ h e = Some e' /\
                    isStopPropagation e = false /\
                    In (Called j ev (Some e)) steps /\
                    last steps GotMe = ErrorHandled e)
  \/
  (exists j b cb event, (i <= j)%nat /\
                        nth_error pairs (j - i) = Some (Some b, Some cb) /\
                        reachesBuild getMe b self args event /\
                        throwsAfterBuild event e' /\
                        ~ In j (calledAt steps) /\
                        last steps GotMe = Built j).
Proof.
  induction pairs as [|entry rest IH]; intros i self args pairs' self' steps e' H.
  - discriminate.
  - cbn [dispatchLoop] in H.
    destruct (dispatchPair getMe errorHandler i entry self args)
      as [[[entry1 self1] steps1] fl] eqn:Ep.
    destruct (dispatchPair_facts errorHandler i entry self args _ _ _ _ Ep)
      as (Hself & Hc & Hcalled & _ & Hfl).
    destruct fl as [| |e0].
    + destruct (dispatchLoop getMe errorHandler (S i) rest self1 args)
        as [[[rest' self2] steps2] r2] eqn:El.
      injection H as <- <- <- ->.
      destruct (IH _ _ _ _ _ _ _ El)
        as [(h & e & j & ev & Hh & He & Hs & Hin & Hlast)
           |(j & b & cb & event & Hle & Hn & Hr & Ht & Hnot & Hlast)].
      * assert (Hne : steps2 <> []) by (intros ->; cbn in Hlast; discriminate).
        left. exists h, e, j, ev. repeat split; auto.
        -- apply in_or_app. now right.
        -- rewrite last_app_nonempty by exact Hne. exact Hlast.
      * assert (Hne : steps2 <> []) by (intros ->; cbn in Hlast; discriminate).
        right. exists j, b, cb, event. split; [lia|].
        replace (j - i)%nat with (S (j - S i)) by lia.
        split; [exact Hn|]. split.
        { destruct Hr as (Hres & Hb). split; [exact Hres|].
          rewrite <- Hb. f_equal.
          destruct Hself as [->| ->]; [reflexivity|symmetry; apply selfAfter_idem]. }
        split; [exact Ht|]. split.
        -- rewrite calledAt_app. intros Hin. apply in_app_or in Hin.
           destruct Hin as [Hin|Hin]; [|contradiction].
           destruct Hc as [Hc|Hc]; rewrite Hc in Hin; [contradiction|].
           destruct Hin as [Hin|[]]. lia.
        -- rewrite last_app_nonempty by exact Hne. exact Hlast.
    + discriminate.
    + injection H as <- <- <- ->.
      destruct Hfl as [(h & e & ev & Hh & He & Hs & Hin & Hlast)
                      |(b & cb & event & -> & Hr & Ht & Hc0 & Hlast)].
      * left. now exists h, e, i, ev.
      * right. exists i, b, cb, event. rewrite Nat.sub_diag.
        repeat split; auto; try apply Hr.
        rewrite Hc0. intros [].
Qed.

Lemma dispatchLoop_gotMe errorHandler (pairs : list (handlerPair builtEvent)) :
  forall i self args pairs' self' steps r,
  dispatchLoop getMe errorHandler i pairs self args = (pairs', self', steps, r) ->
  (self <> None -> gotMeCount steps = 0%nat) /\
  (getMe <> None -> (gotMeCount steps <= 1)%nat) /\
  (gotMeCount steps = 0%nat -> self' = self) /\
  ((0 < gotMeCount steps)%nat -> self = None /\ self' = getMe).
Proof.
  induction pairs as [|entry rest IH]; intros i self args pairs' self' steps r H.
  - injection H as <- <- <- <-. cbn. repeat split; auto; lia.
  - cbn [dispatchLoop] in H.
    destruct (dispatchPair getMe errorHandler i entry self args)
      as [[[entry1 self1] steps1] fl] eqn:Ep.
    destruct (dispatchPair_facts errorHandler i entry self args _ _ _ _ Ep)
      as (_ & _ & _ & (Hsome & Hle & Hone & Hzero) & _).
    assert (Hpair : (self <> None -> gotMeCount steps1 = 0%nat) /\
                    (getMe <> None -> (gotMeCount steps1 <= 1)%nat) /\
                    (gotMeCount steps1 = 0%nat -> self1 = self) /\
                    ((0 < gotMeCount steps1)%nat -> self = None /\ self1 = getMe)).
    { repeat split; auto.
      - intros Hn. destruct self; [exact Hsome|contradiction].
      - apply Hone. lia.
      - apply Hone. lia. }
    destruct fl as [| |e0].
    + destruct (dispatchLoop getMe errorHandler (S i) rest self1 args)
        as [[[rest' self2] steps2] r2] eqn:El.
      injection H as <- <- <- <-.
      destruct (IH _ _ _ _ _ _ _ El) as (I1 & I2 & I3 & I4).
      destruct Hpair as (P1 & P2 & P3 & P4).
      rewrite gotMeCount_app.
      assert (Hcases : gotMeCount steps1 = 0%nat \/ gotMeCount steps1 = 1%nat) by lia.
      split; [|split; [|split]].
      * intros Hn. rewrite (P1 Hn). rewrite I1; [reflexivity|].
        rewrite (P3 (P1 Hn)). exact Hn.
      * intros Hg. destruct Hcases as [E|E]; rewrite E.
        -- cbn. now apply I2.
        -- rewrite I1; [lia|]. destruct (P4 ltac:(lia)) as (_ & ->). exact Hg.
      * intros Hz. rewrite I3 by lia. apply P3. lia.
      * intros Hpos. destruct Hcases as [E|E].
        -- rewrite E in Hpos. cbn in Hpos. destruct (I4 Hpos) as (Hn & ->).
           split; [|reflexivity]. rewrite (P3 E) in Hn. exact Hn.
        -- destruct (P4 ltac:(lia)) as (Hn & Hs1). split; [exact Hn|].
           destruct (Nat.eq_dec (gotMeCount steps2) 0) as [Z0|Z0].
           ++ now rewrite (I3 Z0).
           ++ now destruct (I4 ltac:(lia)).
    + injection H as <- <- <- <-. exact Hpair.
    + injection H as <- <- <- <-. exact Hpair.
Qed.

End Round.

Arguments dispatchLoop_calls {builtEvent} getMe errorHandler pairs i self args.
Arguments dispatchLoop_order {builtEvent} getMe errorHandler pairs i self args.
Arguments dispatchLoop_rejection {builtEvent} getMe errorHandler pairs i self args.
Arguments dispatchLoop_gotMe {builtEvent} getMe errorHandler pairs i self args.




(** X15. A round asks for the own user ([getMe]) only while
    [_selfInputPeer] is unset.  When it is set the round never asks and
    leaves it as it is; when the request yields a user, the round asks
    once, whatever the number of handlers, and the user is stored for
    the rounds to come. *)
Theorem dispatch_asks_for_self_when_unset {builtEvent : Type} (getMe : option Z)
  (c : dispatcher builtEvent) (args : dispatchArgs) :
  let round := _dispatchUpdate getMe c args in
  (_selfInputPeer c <> None ->
     gotMeCount (snd (fst round)) = 0%nat /\
     _selfInputPeer (fst (fst round)) = _selfInputPeer c) /\
  (getMe <> None -> (gotMeCount (snd (fst round)) <= 1)%nat) /\
  ((0 < gotMeCount (snd (fst round)))%nat ->
     _selfInputPeer c = None /\ _selfInputPeer (fst (fst round)) = getMe).
Proof.
  unfold _dispatchUpdate.
  destruct (dispatchLoop getMe (_errorHandler c) 0 (_eventBuilders c) (_selfInputPeer c) args)
    as [[[pairs' self'] steps] r] eqn:E.
  cbn [fst snd _selfInputPeer].
  destruct (dispatchLoop_gotMe getMe _ _ _ _ _ _ _ _ _ E) as (H1 & H2 & H3 & H4).
  split; [|split]; auto.
Qed.

End EngineFacts.

(** ** The registry of event handlers *)

Module HandlersFacts.
Import Handlers.

Lemma remove_unrelated bs callback event :
  unrelated bs callback event -> removeEventHandler bs callback event = bs.
Proof.
  unfold unrelated, removeEventHandler, ref.
  induction 1 as [|item bs (Hf & Hs) Hbs IH]; [reflexivity|].
  apply Z.eqb_neq in Hf, Hs. simpl. rewrite Hf, Hs. simpl. now rewrite IH.
Qed.

Lemma remove_app bs1 bs2 callback event :
  removeEventHandler (bs1 ++ bs2) callback event =
  removeEventHandler bs1 callback event ++ removeEventHandler bs2 callback event.
Proof. apply filter_app. Qed.

(** X16. A handler that is added to a registry in which no handler
    has its builder or its callback is taken out again by
    [removeEventHandler], and the registry is as it was before. *)
Theorem remove_after_add (bs : registry) (callback event raw : ref) :
  unrelated bs callback event ->
  listEventHandlers
    (removeEventHandler (addEventHandler bs callback (Some event) raw) callback event)
  = listEventHandlers bs.
Proof.
  intros H. unfold listEventHandlers, addEventHandler.
  rewrite remove_app, (remove_unrelated _ _ _ H).
  unfold removeEventHandler, ref. simpl.
  rewrite !Z.eqb_refl. simpl. apply app_nil_r.
Qed.

Lemma remove_after_add_witness :
  listEventHandlers
    (removeEventHandler (addEventHandler [(1, 2); (3, 4)] 6 (Some 5) 0) 6 5)
  = listEventHandlers [(1, 2); (3, 4)].
Proof.
  apply (remove_after_add [(1, 2); (3, 4)] 6 5 0).
  repeat constructor; cbn; lia.
Defined.

(** X17. [removeEventHandler] keeps a handler only when both its
    builder and its callback differ from the ones given.  So it takes
    out more than the handler named: after two callbacks were added
    with one builder, removing one of them removes the other too; and
    after one callback was added with two builders, removing it with
    one builder removes it with the other too.  In both cases the
    registry is what the removal leaves of the registry before the two
    additions. *)
Theorem remove_takes_every_related_handler
  (bs : registry) (callback other event otherEvent raw : ref) :
  removeEventHandler
    (addEventHandler (addEventHandler bs other (Some event) raw) callback (Some event) raw)
    callback event
  = removeEventHandler bs callback event
  /\
  removeEventHandler
    (addEventHandler (addEventHandler bs callback (Some otherEvent) raw)
       callback (Some event) raw)
    callback event
  = removeEventHandler bs callback event
  /\
  (forall item, In item (removeEventHandler bs callback event) ->
     fst item <> event /\ snd item <> callback).
Proof.
  unfold addEventHandler. rewrite !remove_app.
  unfold removeEventHandler at 2 3 5 6. unfold ref in *. simpl.
  rewrite !Z.eqb_refl. simpl. rewrite ?andb_false_r, !app_nil_r.
  split; [reflexivity|]. split; [reflexivity|].
  intros item Hin. unfold removeEventHandler in Hin.
  apply filter_In in Hin. destruct Hin as (_ & Hin).
  apply andb_true_iff in Hin. destruct Hin as (H1 & H2).
  apply negb_true_iff in H1, H2. now apply Z.eqb_neq in H1, H2.
Qed.

End HandlersFacts.

(** ** [attempts] *)

Module AttemptsFacts.
Import Updates Attempts.

Lemma attemptsFrom_failures {A} (errs : list exn) : forall (tail : list (outcome A)) i times pause,
  i + Z.of_nat (length errs) < times ->
  attemptsFrom (map Raise errs ++ tail) i times pause =
  match attemptsFrom tail (i + Z.of_nat (length errs)) times pause with
  | Some (r, slept, rest) => Some (r, repeat pause (length errs) ++ slept, rest)
  | None => None
  end.
Proof.
  induction errs as [|err errs IH]; intros tail i times pause H.
  - cbn [map app length repeat]. rewrite Z.add_0_r.
    destruct (attemptsFrom tail i times pause) as [[[r slept] rest]|]; reflexivity.
  - cbn [map app attemptsFrom].
    cbn [length] in H. rewrite Nat2Z.inj_succ in H.
    replace (i <? times) with true by (symmetry; apply Z.ltb_lt; lia).
    replace (i =? times - 1) with false by (symmetry; apply Z.eqb_neq; lia).
    rewrite IH by lia.
    cbn [length]. rewrite Nat2Z.inj_succ.
    replace (i + 1 + Z.of_nat (length errs)) with (i + Z.succ (Z.of_nat (length errs))) by lia.
    destruct (attemptsFrom tail _ times pause) as [[[r slept] rest]|]; reflexivity.
Qed.

(** X18. [attempts] with a callback that fails some times in a row.
    When it then succeeds within the allowed number of calls, its value
    is returned, after one pause for each failure.  When it fails as
    often as calls are allowed, the error of the last call is thrown,
    not that of the first, and there is no pause after the last call.
    In both cases the callback is not called again. *)
Theorem attempts_retries {A : Type} (errs : list exn) (last_err : exn) (a : A)
  (rest : list (outcome A)) (times pause : Z) :
  (Z.of_nat (length errs) < times ->
   attempts (map Raise errs ++ Return a :: rest) times pause
   = Some (Return (Some a), repeat pause (length errs), rest))
  /\
  (times = Z.of_nat (length errs) + 1 ->
   attempts (map Raise errs ++ Raise last_err :: rest) times pause
   = Some (Raise last_err, repeat pause (length errs), rest))
  /\
  (times <= 0 ->
   attempts (map Raise errs ++ rest) times pause = Some (Return None, [], map Raise errs ++ rest)).
Proof.
  unfold attempts. split; [|split].
  - intros H. rewrite attemptsFrom_failures by lia.
    cbn [attemptsFrom]. replace (0 + Z.of_nat (length errs) <? times) with true
      by (symmetry; apply Z.ltb_lt; lia).
    now rewrite app_nil_r.
  - intros H. rewrite attemptsFrom_failures by lia.
    cbn [attemptsFrom]. replace (0 + Z.of_nat (length errs) <? times) with true
      by (symmetry; apply Z.ltb_lt; lia).
    replace (0 + Z.of_nat (length errs) =? times - 1) with true
      by (symmetry; apply Z.eqb_eq; lia).
    now rewrite app_nil_r.
  - intros H. destruct (map Raise errs ++ rest) as [|call calls]; cbn [attemptsFrom];
      replace (0 <? times) with false by (symmetry; apply Z.ltb_ge; lia); reflexivity.
Qed.

End AttemptsFacts.

(** ** More facts about the matcher *)

Module MatcherFacts.
Import Regex RegexFacts SchemaNotions.

Lemma suffix_refl s : suffix s s.
Proof. now exists []. Qed.

Lemma suffix_trans a b c : suffix a b -> suffix b c -> suffix a c.
Proof. intros (p & ->) (q & ->). exists (q ++ p). now rewrite app_assoc. Qed.

Lemma suffix_cons x s : suffix s (x :: s).
Proof. now exists [x]. Qed.

Lemma star_sound (body : cont -> cont) :
  (forall k s c v, body k s c = Some v ->
     exists s' c', suffix s' s /\ k s' c' = Some v) ->
  forall fuel k s c v, star fuel body k s c = Some v ->
  exists s' c', suffix s' s /\ k s' c' = Some v.
Proof.
  intros Hb. induction fuel as [|fuel IH]; intros k s c v H.
  - exists s, c. split; [apply suffix_refl|exact H].
  - rewrite star_S in H.
    destruct (body _ s c) as [v'|] eqn:E.
    + injection H as ->.
      destruct (Hb _ _ _ _ E) as (s1 & c1 & Hs1 & Hk).
      destruct (length s1 <? length s)%nat; [|discriminate].
      destruct (IH _ _ _ _ Hk) as (s2 & c2 & Hs2 & Hk2).
      exists s2, c2. split; [eapply suffix_trans; eassumption|exact Hk2].
    + exists s, c. split; [apply suffix_refl|exact H].
Qed.

(** Whenever a match succeeds, its continuation has succeeded on a rest
    of the input. *)
Lemma m_sound n r : forall k s c v,
  m n r k s c = Some v -> exists s' c', suffix s' s /\ k s' c' = Some v.
Proof.
  induction r as [|p|a IHa b IHb|a IHa b IHb|a IHa|i a IHa| |]; intros k s c v H.
  - exists s, c. split; [apply suffix_refl|exact H].
  - cbn [m] in H. destruct s as [|x s]; [discriminate|].
    destruct (p x); [|discriminate].
    exists s, c. split; [apply suffix_cons|exact H].
  - rewrite m_seq in H.
    destruct (IHa _ _ _ _ H) as (s1 & c1 & Hs1 & H1).
    destruct (IHb _ _ _ _ H1) as (s2 & c2 & Hs2 & H2).
    exists s2, c2. split; [eapply suffix_trans; eassumption|exact H2].
  - cbn [m] in H. destruct (m n a k s c) as [v'|] eqn:E.
    + injection H as Hv. subst v'. exact (IHa _ _ _ _ E).
    + exact (IHb _ _ _ _ H).
  - rewrite m_star in H.
    apply (star_sound (m n a) (fun k0 s0 c0 v0 => IHa k0 s0 c0 v0) _ _ _ _ _ H).
  - rewrite m_grp in H.
    destruct (IHa _ _ _ _ H) as (s1 & c1 & Hs1 & H1).
    exists s1, ((i, firstn (length s - length s1) s) :: c1). split; assumption.
  - cbn [m] in H. destruct (length s =? n)%nat; [|discriminate].
    exists s, c. split; [apply suffix_refl|exact H].
  - cbn [m] in H. destruct s; [|discriminate].
    exists [], c. split; [apply suffix_refl|exact H].
Qed.

(** A run over a character class: what the continuation gets follows a
    prefix of characters of the class. *)
Lemma m_cls_nil n p k c : m n (Cls p) k [] c = None.
Proof. reflexivity. Qed.

Lemma m_cls_false n p x k s c : p x = false -> m n (Cls p) k (x :: s) c = None.
Proof. intros H. cbn [m]. now rewrite H. Qed.

Lemma star_cls_sound n p : forall fuel k s c v,
  star fuel (m n (Cls p)) k s c = Some v ->
  exists w s', s = w ++ s' /\ allIn p w /\ k s' c = Some v.
Proof.
  induction fuel as [|fuel IH]; intros k s c v H.
  - exists [], s. repeat split; [constructor|exact H].
  - rewrite star_S in H.
    destruct s as [|x s].
    + rewrite m_cls_nil in H. exists [], []. repeat split; [constructor|exact H].
    + destruct (p x) eqn:Ex.
      * rewrite m_cls in H by exact Ex.
        destruct (length s <? length (x :: s))%nat.
        -- destruct (star fuel (m n (Cls p)) k s c) as [v'|] eqn:E.
           ++ injection H as ->.
              destruct (IH _ _ _ _ E) as (w & s' & -> & Hw & Hk).
              exists (x :: w), s'. repeat split; [now constructor|exact Hk].
           ++ exists [], (x :: s). repeat split; [constructor|exact H].
        -- exists [], (x :: s). repeat split; [constructor|exact H].
      * rewrite m_cls_false in H by exact Ex.
        exists [], (x :: s). repeat split; [constructor|exact H].
Qed.

Lemma plus_cls_sound n p k s c v :
  m n (Plus (Cls p)) k s c = Some v ->
  exists w s', s = w ++ s' /\ w <> [] /\ allIn p w /\ k s' c = Some v.
Proof.
  unfold Plus. rewrite m_seq. intros H.
  destruct s as [|x s]; [rewrite m_cls_nil in H; discriminate|].
  destruct (p x) eqn:Ex; [|rewrite m_cls_false in H by exact Ex; discriminate].
  rewrite m_cls in H by exact Ex. rewrite m_star in H.
  destruct (star_cls_sound _ _ _ _ _ _ _ H) as (w & s' & -> & Hw & Hk).
  exists (x :: w), s'. repeat split; [discriminate|now constructor|exact Hk].
Qed.

(** The search for a match goes over the positions of the input from
    left to right. *)
Lemma search_sound n r : forall s f,
  search n r s = Some f ->
  s = before f ++ matched f ++ after f /\
  m n r accept (matched f ++ after f) [] = Some (after f, groups f).
Proof.
  induction s as [|x s IH]; intros f H; cbn [search] in H.
  - destruct (m n r accept [] []) as [[s' c]|] eqn:E; [|discriminate].
    injection H as <-. cbn [before matched groups after].
    destruct (m_sound _ _ _ _ _ _ E) as (s1 & c1 & (pre & Hpre) & Hacc).
    injection Hacc as -> ->.
    destruct pre; [|discriminate]. cbn in Hpre. subst s'.
    cbn. split; [reflexivity|exact E].
  - destruct (m n r accept (x :: s) []) as [[s' c]|] eqn:E.
    + injection H as <-. cbn [before matched groups after].
      destruct (m_sound _ _ _ _ _ _ E) as (s1 & c1 & (pre & Hpre) & Hacc).
      injection Hacc as -> ->.
      assert (Hm : firstn (length (x :: s) - length s') (x :: s) = pre).
      { rewrite Hpre. apply firstn_app_sub. }
      change (match length s' with
              | O => S (length s)
              | S l => (length s - l)%nat
              end) with (length (x :: s) - length s')%nat.
      rewrite Hm. cbn [app]. rewrite <- Hpre. split; [reflexivity|exact E].
    + destruct (search n r s) as [f'|] eqn:Es; [|discriminate].
      injection H as <-. cbn [before matched groups after].
      destruct (IH _ eq_refl) as (Hs & Hm). split; [|exact Hm].
      cbn [app]. now rewrite <- Hs.
Qed.

(** Positions at which there is no match are passed over. *)
Lemma search_skip n r (u rest : str) :
  (forall u1 x u2, u = u1 ++ x :: u2 -> m n r accept (x :: u2 ++ rest) [] = None) ->
  search n r (u ++ rest) =
  match search n r rest with
  | Some f => Some (Found (u ++ before f) (matched f) (groups f) (after f))
  | None => None
  end.
Proof.
  induction u as [|x u IH]; intros H.
  - cbn [app]. destruct (search n r rest) as [[b mt g a]|]; reflexivity.
  - cbn [app search]. rewrite (H [] x u eq_refl).
    rewrite IH.
    + destruct (search n r rest); reflexivity.
    + intros u1 y u2 ->. apply (H (x :: u1) y u2). reflexivity.
Qed.

Lemma search_nowhere n r (s : str) :
  (forall s', suffix s' s -> m n r accept s' [] = None) -> search n r s = None.
Proof.
  induction s as [|x s IH]; intros H; cbn [search].
  - now rewrite (H [] (suffix_refl _)).
  - rewrite (H _ (suffix_refl _)). rewrite IH; [reflexivity|].
    intros s' Hs. apply H. eapply suffix_trans; [exact Hs|apply suffix_cons].
Qed.

End MatcherFacts.

(** ** More facts about the parser *)

Module SchemaFacts.
Import Regex RegexFacts Parser SchemaNotions MatcherFacts ParserFacts.

(** *** Lines that are no definitions *)

Lemma reLine_ends n t v : m n reLine accept t [] = Some v -> endsWith ";" t.
Proof.
  intros H. unfold reLine in H.
  assert (Hs : exists s c, suffix s t /\ m n (Seq (Chr ";") Eol) accept s c = Some v).
  { do 7 (rewrite m_seq in H; apply m_sound in H;
          destruct H as (? & ? & ? & H)).
    repeat match goal with
           | A : suffix ?a ?b, B : suffix ?b ?c |- _ =>
               pose proof (suffix_trans _ _ _ A B); clear A
           end.
    eauto. }
  destruct Hs as (s & c & (pre & ->) & Hm).
  exists pre. f_equal.
  rewrite m_seq in Hm.
  destruct s as [|x s]; [discriminate|].
  destruct (Ascii.eqb_spec ";" x) as [<-|Hx].
  - rewrite m_chr in Hm. destruct s; [reflexivity|discriminate].
  - rewrite m_chr_other in Hm by exact Hx. discriminate.
Qed.


(** X19. A line that does not end with ";" is no definition:
    [fromLine] throws, and the message carries the line. *)
Theorem fromLine_requires_semicolon (line : str) (isFunction : bool) :
  ~ endsWith ";" line ->
  fromLine line isFunction = Throw (s2l "Error: Cannot parse TLObject " ++ line).
Proof.
  intros Hno. unfold fromLine.
  destruct (exec reLine line) as [f|] eqn:E; [|reflexivity].
  exfalso. apply Hno. unfold exec in E.
  destruct (search_sound _ _ _ _ E) as (Hs & Hm).
  destruct (reLine_ends _ _ _ Hm) as (pre & Hpre).
  exists (before f ++ pre). now rewrite Hs, Hpre, app_assoc.
Qed.

Lemma fromLine_requires_semicolon_witness :
  fromLine (s2l "foo = Bar") false
  = Throw (s2l "Error: Cannot parse TLObject " ++ s2l "foo = Bar").
Proof.
  apply (fromLine_requires_semicolon (s2l "foo = Bar") false).
  intros (pre & H).
  apply (f_equal (fun l => last l " "%char)) in H.
  rewrite last_last in H. vm_compute in H. discriminate.
Defined.

(** *** Names *)

Lemma m_chr_accept n c x t :
  m n (Chr c) accept (x :: t) [] = if Ascii.eqb c x then Some (t, []) else None.
Proof. reflexivity. Qed.

Lemma search_chr_first n c : forall pre post,
  ~ In c pre -> search n (Chr c) (pre ++ c :: post) = Some (Found pre [c] [] post).
Proof.
  induction pre as [|x pre IH]; intros post Hno.
  - cbn [app search]. rewrite m_chr_accept, Ascii.eqb_refl.
    cbn [length]. now rewrite Nat.sub_succ_l, Nat.sub_diag by lia.
  - cbn [app search]. rewrite m_chr_accept.
    destruct (Ascii.eqb_spec c x) as [->|Hx]; [exfalso; apply Hno; now left|].
    rewrite IH; [reflexivity|]. intros Hin. apply Hno. now right.
Qed.

Lemma search_chr_none n c : forall s, ~ In c s -> search n (Chr c) s = None.
Proof.
  induction s as [|x s IH]; intros Hno; [reflexivity|].
  cbn [search]. rewrite m_chr_accept.
  destruct (Ascii.eqb_spec c x) as [->|Hx]; [exfalso; apply Hno; now left|].
  rewrite IH; [reflexivity|]. intros Hin. apply Hno. now right.
Qed.

Lemma first_occurrence (c : ascii) : forall s, In c s ->
  exists pre post, s = pre ++ c :: post /\ ~ In c pre.
Proof.
  induction s as [|x s IH]; intros Hin; [contradiction|].
  destruct (ascii_dec c x) as [->|Hx].
  - exists [], s. split; [reflexivity|intros []].
  - destruct Hin as [E|Hin]; [congruence|].
    destruct (IH Hin) as (pre & post & -> & Hno).
    exists (x :: pre), post. split; [reflexivity|].
    intros [E|H]; [congruence|contradiction].
Qed.

Lemma filter_absent (c : ascii) s :
  ~ In c s -> List.filter (fun x => negb (Ascii.eqb c x)) s = s.
Proof.
  induction s as [|x s IH]; intros Hno; [reflexivity|].
  cbn [List.filter]. destruct (Ascii.eqb_spec c x) as [->|Hx].
  - exfalso. apply Hno. now left.
  - cbn [negb]. rewrite IH; [reflexivity|]. intros H. apply Hno. now right.
Qed.

(** Replacing every occurrence of a character by nothing removes the
    character. *)
Lemma replaceFrom_chr n c : forall fuel s,
  (length s < fuel)%nat ->
  replaceFrom fuel n (Chr c) (fun _ => []) s = List.filter (fun x => negb (Ascii.eqb c x)) s.
Proof.
  induction fuel as [|fuel IH]; intros s Hf; [lia|].
  cbn [replaceFrom].
  destruct (in_dec ascii_dec c s) as [Hin|Hno].
  - destruct (first_occurrence c s Hin) as (pre & post & -> & Hpre).
    rewrite search_chr_first by exact Hpre.
    cbn [before matched after app].
    rewrite filter_app. cbn [List.filter]. rewrite Ascii.eqb_refl. cbn [negb].
    rewrite (filter_absent c pre Hpre). f_equal.
    apply IH. rewrite length_app in Hf. cbn [length] in Hf. lia.
  - rewrite search_chr_none by exact Hno. now rewrite filter_absent.
Qed.

Lemma replaceFrom_skip fuel n r (f : found -> str) x t :
  (forall b b' mt g a, f (Found b mt g a) = f (Found b' mt g a)) ->
  m n r accept (x :: t) [] = None ->
  replaceFrom (S fuel) n r f (x :: t) = x :: replaceFrom (S fuel) n r f t.
Proof.
  intros Hf H. cbn [replaceFrom search]. rewrite H.
  destruct (search n r t) as [[b mt g a]|]; [|reflexivity].
  cbn [before matched groups after app]. now rewrite (Hf (x :: b) b).
Qed.

Lemma replaceFrom_hit fuel n r (f : found -> str) (mt s' : str) c :
  mt <> [] ->
  m n r accept (mt ++ s') [] = Some (s', c) ->
  replaceFrom (S fuel) n r f (mt ++ s') = f (Found [] mt c s') ++ replaceFrom fuel n r f s'.
Proof.
  intros Hne H. cbn [replaceFrom].
  rewrite (search_hit _ _ _ _ _ H), firstn_app_sub.
  cbn [before matched after app].
  destruct mt; [contradiction|reflexivity].
Qed.

Lemma m_alt n a b k s c :
  m n (Alt a b) k s c =
  match m n a k s c with
  | Some v => Some v
  | None => m n b k s c
  end.
Proof. reflexivity. Qed.

Lemma m_bol n k s c : m n Bol k s c = if (length s =? n)%nat then k s c else None.
Proof. reflexivity. Qed.

Lemma m_grp_cls n i p x t c :
  m n (Grp i (Cls p)) accept (x :: t) c =
  if p x then Some (t, (i, [x]) :: c) else None.
Proof.
  rewrite m_grp. destruct (p x) eqn:E.
  - rewrite m_cls by exact E. unfold accept.
    pose proof (firstn_app_sub [x] t) as F. cbn [app] in F. now rewrite F.
  - now rewrite m_cls_false.
Qed.

Lemma m_grp_cls_nil n i p c : m n (Grp i (Cls p)) accept [] c = None.
Proof. reflexivity. Qed.

Lemma m_snake n s :
  m n reSnakeHead accept s [] =
  match (if (length s =? n)%nat then m n (Grp 1 (Cls isLower)) accept s [] else None) with
  | Some v => Some v
  | None => m n (Chr "_") (m n (Grp 1 (Cls isLower)) accept) s []
  end.
Proof. reflexivity. Qed.

Lemma m_snake_start n x t :
  isLower x = true -> length (x :: t) = n ->
  m n reSnakeHead accept (x :: t) [] = Some (t, [(1%nat, [x])]).
Proof.
  intros Hx <-. rewrite m_snake, Nat.eqb_refl, m_grp_cls, Hx. reflexivity.
Qed.

Lemma m_snake_under n y t :
  isLower y = true ->
  m n reSnakeHead accept ("_"%char :: y :: t) [] = Some (t, [(1%nat, [y])]).
Proof.
  intros Hy. rewrite m_snake, m_grp_cls, m_chr, m_grp_cls, Hy.
  change (isLower "_") with false.
  now destruct (length ("_"%char :: y :: t) =? n)%nat.
Qed.

Lemma m_snake_none n x t :
  (length (x :: t) <> n \/ isLower x = false) ->
  (x = "_"%char -> match t with y :: _ => isLower y = false | [] => True end) ->
  m n reSnakeHead accept (x :: t) [] = None.
Proof.
  intros Hstart Hunder. rewrite m_snake, m_grp_cls.
  match goal with
  | |- match ?e with _ => _ end = _ => assert (E1 : e = None)
  end.
  { destruct (Nat.eqb_spec (length (x :: t)) n) as [E|E]; [|reflexivity].
    destruct Hstart as [H|H]; [contradiction|now rewrite H]. }
  rewrite E1.
  destruct (Ascii.eqb_spec "_" x) as [<-|Hx].
  - rewrite m_chr. specialize (Hunder eq_refl).
    destruct t as [|y t]; [reflexivity|]. now rewrite m_grp_cls, Hunder.
  - now apply m_chr_other.
Qed.

Lemma m_snake_nil n : m n reSnakeHead accept [] [] = None.
Proof. rewrite m_snake. now destruct (length (@nil ascii) =? n)%nat. Qed.

Lemma splitChar_nonempty c s : exists h r, splitChar c s = h :: r.
Proof.
  induction s as [|x s (h & r & IH)]; cbn [splitChar]; [eauto|].
  destruct (Ascii.eqb x c); [eauto|]. rewrite IH. eauto.
Qed.

Lemma splitChar_sep c t : splitChar c (c :: t) = [] :: splitChar c t.
Proof. cbn [splitChar]. now rewrite Ascii.eqb_refl. Qed.

Lemma splitChar_other c x t :
  x <> c ->
  splitChar c (x :: t) = (x :: hd [] (splitChar c t)) :: tl (splitChar c t).
Proof.
  intros Hx. cbn [splitChar].
  destruct (Ascii.eqb_spec x c); [contradiction|].
  destruct (splitChar_nonempty c t) as (h & r & ->). reflexivity.
Qed.

Lemma capitalize_hd t :
  match t with y :: _ => isLower y = false | [] => True end ->
  capitalize (hd [] (splitChar "_" t)) = hd [] (splitChar "_" t).
Proof.
  destruct t as [|y t]; intros H; [reflexivity|].
  destruct (Ascii.eqb_spec y "_") as [->|Hy].
  - now rewrite splitChar_sep.
  - rewrite splitChar_other by exact Hy. cbn [hd capitalize]. now rewrite H.
Qed.

Lemma upper_not_underscore y :
  isLower y = true -> ascii_of_N (code y - 32) <> "_"%char.
Proof.
  unfold isLower, code. intros H E.
  apply andb_true_iff in H. destruct H as (H1 & H2).
  apply N.leb_le in H1, H2.
  apply (f_equal N_of_ascii) in E. rewrite N_ascii_embedding in E by lia.
  cbn in E. lia.
Qed.

Lemma lower_not_underscore y : isLower y = true -> y <> "_"%char.
Proof. intros H ->. discriminate. Qed.

Lemma split_parts t :
  splitChar "_" t = hd [] (splitChar "_" t) :: tl (splitChar "_" t).
Proof. destruct (splitChar_nonempty "_" t) as (h & r & ->). reflexivity. Qed.

(** The first replacement of [snakeToCamelCase], followed by the
    second, on a rest of the name. *)
Lemma snake_rest n : forall fuel s,
  (length s < fuel)%nat -> (length s <= n)%nat ->
  (length s <> n \/ match s with x :: _ => isLower x = false | [] => True end) ->
  List.filter (fun x => negb (Ascii.eqb "_" x))
    (replaceFrom fuel n reSnakeHead
       (fun x => toUpperCase (getOr (group 1 (groups x)))) s)
  = hd [] (splitChar "_" s) ++ concat (map capitalize (tl (splitChar "_" s))).
Proof.
  set (up := fun x : found => toUpperCase (getOr (group 1 (groups x)))).
  assert (Hup : forall b b' mt g a, up (Found b mt g a) = up (Found b' mt g a))
    by reflexivity.
  induction fuel as [|fuel IHf]; intros s Hfuel; [lia|].
  induction s as [|x t IHs]; intros Hn Hstart.
  - cbn [replaceFrom search].
    rewrite m_snake_nil. reflexivity.
  - cbn [length] in Hfuel, Hn.
    assert (IHt : List.filter (fun x => negb (Ascii.eqb "_" x))
                    (replaceFrom (S fuel) n reSnakeHead up t)
                  = hd [] (splitChar "_" t)
                    ++ concat (map capitalize (tl (splitChar "_" t)))).
    { apply IHs; [lia|lia|left; lia]. }
    destruct (Ascii.eqb_spec x "_") as [->|Hx].
    + destruct t as [|y t'].
      * rewrite replaceFrom_skip; [|exact Hup|].
        2:{ apply m_snake_none; [now right|auto]. }
        cbn [List.filter]. rewrite Ascii.eqb_refl. cbn [negb].
        rewrite IHt. reflexivity.
      * destruct (isLower y) eqn:Ey.
        -- change ("_"%char :: y :: t') with (["_"%char; y] ++ t').
           rewrite (replaceFrom_hit fuel n reSnakeHead up ["_"%char; y] t' [(1%nat, [y])]);
             [|discriminate|now apply m_snake_under].
           unfold up at 1. cbn [groups group Nat.eqb getOr toUpperCase map app].
           rewrite Ey. cbn [List.filter].
           destruct (Ascii.eqb_spec "_" (ascii_of_N (code y - 32))) as [E|_].
           { exfalso. symmetry in E. revert E. now apply upper_not_underscore. }
           cbn [negb]. fold up.
           rewrite IHf; [|cbn [length] in Hfuel; lia|cbn [length] in Hn; lia
                         |left; cbn [length] in Hn; lia].
           cbn [app]. rewrite splitChar_sep.
           rewrite (splitChar_other "_" y t') by now apply lower_not_underscore.
           cbn [hd tl map concat capitalize app]. now rewrite Ey.
        -- rewrite replaceFrom_skip; [|exact Hup|].
           2:{ apply m_snake_none; [now right|intros _; exact Ey]. }
           cbn [List.filter]. rewrite Ascii.eqb_refl. cbn [negb].
           rewrite IHt. rewrite splitChar_sep. cbn [hd tl app].
           rewrite (split_parts (y :: t')) at 3. cbn [map concat].
           rewrite capitalize_hd by exact Ey. reflexivity.
    + rewrite replaceFrom_skip; [|exact Hup|].
      2:{ apply m_snake_none; [exact Hstart|intros E; contradiction]. }
      cbn [List.filter].
      destruct (Ascii.eqb_spec "_" x) as [E|_]; [symmetry in E; contradiction|].
      cbn [negb]. rewrite IHt.
      rewrite (splitChar_other "_" x t) by exact Hx. reflexivity.
Qed.

(** X20. [snakeToCamelCase] written without regular expressions: the
    name is cut at its underscores, the first letter of every part is
    put in upper case when it is a lower-case letter, and the parts are
    put together again.  In particular no underscore is left in a name
    it returns. *)
Theorem snakeToCamelCase_capitalizes (name : str) :
  snakeToCamelCase name = concat (map capitalize (splitChar "_" name))
  /\ ~ In "_"%char (snakeToCamelCase name).
Proof.
  assert (E : snakeToCamelCase name
              = List.filter (fun x => negb (Ascii.eqb "_" x))
                  (replaceAll reSnakeHead
                     (fun x => toUpperCase (getOr (group 1 (groups x)))) name)).
  { unfold snakeToCamelCase, replaceAll at 1, reUnderscore.
    apply replaceFrom_chr. lia. }
  split.
  - rewrite E. unfold replaceAll.
    destruct name as [|x t]; [reflexivity|].
    destruct (isLower x) eqn:Ex.
    + change (x :: t) with ([x] ++ t) at 3.
      rewrite (replaceFrom_hit _ _ _ _ [x] t [(1%nat, [x])]);
        [|discriminate|now apply m_snake_start].
      cbn [groups group Nat.eqb getOr toUpperCase map app]. rewrite Ex.
      cbn [List.filter].
      destruct (Ascii.eqb_spec "_" (ascii_of_N (code x - 32))) as [E'|_].
      { exfalso. symmetry in E'. revert E'. now apply upper_not_underscore. }
      cbn [negb]. rewrite snake_rest; [|cbn [length]; lia..|left; cbn [length]; lia].
      rewrite (splitChar_other "_" x t) by now apply lower_not_underscore.
      cbn [map concat capitalize app]. now rewrite Ex.
    + rewrite snake_rest; [|cbn [length]; lia..|now right].
      rewrite (split_parts (x :: t)) at 3. cbn [map concat].
      now rewrite capitalize_hd.
  - rewrite E. intros Hin. apply filter_In in Hin. destruct Hin as (_ & Hin).
    rewrite Ascii.eqb_refl in Hin. discriminate.
Qed.

(** *** The fields of a line *)

(** Where [reArg] matches, a run of word characters stands before a
    colon, after at most an opening brace. *)
Lemma reArg_shape n s v :
  m n reArg accept s [] = Some v ->
  exists o w r, s = o ++ w ++ ":"%char :: r /\ (o = [] \/ o = ["{"%char]) /\
                w <> [] /\ allIn isWord w.
Proof.
  unfold reArg. rewrite m_seq. unfold Opt. rewrite m_alt.
  set (K := m n (Seq (Grp 2 (Plus (Cls isWord)))
                  (Seq (Chr ":") (Seq (Grp 3 (Plus (Cls isArgTypeChar)))
                                      (Alt (Chr "}") Eps)))) accept).
  assert (HK : forall s1 c1, K s1 c1 = Some v ->
            exists w r, s1 = w ++ ":"%char :: r /\ w <> [] /\ allIn isWord w).
  { intros s1 c1 H. unfold K in H. rewrite m_seq, m_grp in H.
    destruct (plus_cls_sound _ _ _ _ _ _ H) as (w & s2 & -> & Hw & Hall & Hk).
    rewrite m_seq in Hk.
    destruct s2 as [|y s2]; [discriminate|].
    destruct (Ascii.eqb_spec ":" y) as [<-|Hy].
    - now exists w, s2.
    - rewrite m_chr_other in Hk by exact Hy. discriminate. }
  intros H.
  destruct (m n (Grp 1 (Chr "{")) K s []) as [v'|] eqn:E.
  - injection H as ->. rewrite m_grp in E.
    destruct s as [|x s]; [discriminate|].
    destruct (Ascii.eqb_spec "{" x) as [<-|Hx].
    + rewrite m_chr in E. destruct (HK _ _ E) as (w & r & -> & Hw & Hall).
      exists ["{"%char], w, r. auto.
    + rewrite m_chr_other in E by exact Hx. discriminate.
  - change (K s [] = Some v) in H.
    destruct (HK _ _ H) as (w & r & -> & Hw & Hall).
    exists [], w, r. auto.
Qed.

Lemma reArg_no_colon n s : ~ In ":"%char s -> m n reArg accept s [] = None.
Proof.
  intros Hno. destruct (m n reArg accept s []) as [v|] eqn:E; [|reflexivity].
  exfalso. destruct (reArg_shape _ _ _ E) as (o & w & r & -> & _).
  apply Hno. apply in_or_app. right. apply in_or_app. right. now left.
Qed.

Lemma reArg_not_at n x rest :
  isWord x = false -> x <> "{"%char -> m n reArg accept (x :: rest) [] = None.
Proof.
  intros Hw Hb. destruct (m n reArg accept (x :: rest) []) as [v|] eqn:E; [|reflexivity].
  exfalso. destruct (reArg_shape _ _ _ E) as (o & w & r & Hs & [->| ->] & Hne & Hall).
  - destruct w as [|z w]; [contradiction|]. cbn in Hs. injection Hs as <- _.
    inversion Hall; subst. congruence.
  - cbn in Hs. injection Hs as -> _. contradiction.
Qed.

(** No match begins inside a text without colon and brace that a
    character follows which is neither a word character nor a colon. *)
Lemma reArg_dead n x u2 y rest :
  ~ In ":"%char (x :: u2) -> x <> "{"%char ->
  isWord y = false -> y <> ":"%char ->
  m n reArg accept (x :: u2 ++ y :: rest) [] = None.
Proof.
  intros Hno Hb Hy Hyc.
  destruct (m n reArg accept (x :: u2 ++ y :: rest) []) as [v|] eqn:E; [|reflexivity].
  exfalso. destruct (reArg_shape _ _ _ E) as (o & w & r & Hs & [->| ->] & Hne & Hall).
  - cbn [app] in Hs. change (x :: u2 ++ y :: rest) with ((x :: u2) ++ y :: rest) in Hs.
    apply app_eq_app in Hs. destruct Hs as (l & [(H1 & H2)|(H1 & H2)]).
    + destruct l as [|z l].
      * cbn in H2. injection H2 as <- _. contradiction.
      * cbn in H2. injection H2 as <- _. apply Hno. rewrite H1.
        apply in_or_app. right. now left.
    + destruct l as [|z l].
      * cbn in H2. injection H2 as -> _. contradiction.
      * cbn in H2. injection H2 as <- _.
        assert (Hin : In y w) by (rewrite H1; apply in_or_app; right; now left).
        unfold allIn in Hall. rewrite Forall_forall in Hall.
        specialize (Hall _ Hin). congruence.
  - cbn in Hs. injection Hs as -> _. contradiction.
Qed.

Lemma m_grp_chr n i x k rest c :
  m n (Grp i (Chr x)) k (x :: rest) c = k rest ((i, [x]) :: c).
Proof.
  rewrite m_grp, m_chr.
  pose proof (firstn_app_sub [x] rest) as F. cbn [app] in F. now rewrite F.
Qed.

(** The match of [reArg] on a field. *)
Lemma m_arg n f rest :
  wfField f ->
  m n reArg accept
    ((if fOpen f then s2l "{" else []) ++ fName f ++ ":"%char :: fType f
       ++ (if fClose f then s2l "}" else []) ++ " "%char :: rest) []
  = Some (" "%char :: rest,
          (3%nat, fType f) :: (2%nat, fName f)
            :: (if fOpen f then [(1%nat, s2l "{")] else [])).
Proof.
  intros (Hn & Hnw & Ht & Htw).
  assert (Hbody : forall c,
            m n (Seq (Grp 2 (Plus (Cls isWord)))
                   (Seq (Chr ":") (Seq (Grp 3 (Plus (Cls isArgTypeChar)))
                                       (Opt (Chr "}"))))) accept
              (fName f ++ ":"%char :: fType f
                 ++ (if fClose f then s2l "}" else []) ++ " "%char :: rest) c
            = Some (" "%char :: rest, (3%nat, fType f) :: (2%nat, fName f) :: c)).
  { intros c. rewrite m_seq. apply m_grp_plus_cls; auto using stops_cons.
    rewrite m_seq, m_chr, m_seq.
    apply m_grp_plus_cls; auto.
    { destruct (fClose f); apply stops_cons; reflexivity. }
    destruct (fClose f); cbn [s2l list_ascii_of_string app].
    - apply m_opt_take. now rewrite m_chr.
    - rewrite m_opt_skip; [reflexivity|]. apply m_chr_other. discriminate. }
  unfold reArg. rewrite m_seq.
  destruct (fOpen f); cbn [s2l list_ascii_of_string app].
  - apply m_opt_take. rewrite m_grp_chr. apply Hbody.
  - rewrite m_opt_skip; [apply Hbody|].
    rewrite m_grp.
    destruct (fName f) as [|x nm]; [contradiction|].
    cbn [app]. apply m_chr_other.
    inversion Hnw; subst. now apply (isWord_not x).
Qed.

Lemma fieldText_parts f :
  fieldText f =
  " "%char :: (if fOpen f then s2l "{" else []) ++ fName f ++ ":"%char :: fType f
    ++ (if fClose f then s2l "}" else []).
Proof.
  unfold fieldText. cbn [s2l list_ascii_of_string app].
  rewrite <- ?app_assoc. reflexivity.
Qed.

Lemma groups_of_field f :
  map (fun i => group i
                  ((3%nat, fType f) :: (2%nat, fName f)
                     :: (if fOpen f then [(1%nat, s2l "{")] else [])))
      (seq 1 3)
  = fieldGroups f.
Proof. unfold fieldGroups. destruct (fOpen f); reflexivity. Qed.

(** The successive matches of [reArg] in the fields of a line. *)
Lemma execAll_fields n tl : ~ In ":"%char tl ->
  forall fields, Forall wfField fields ->
  forall fuel, (length fields < fuel)%nat ->
  map (fun x => map (fun i => group i (groups x)) (seq 1 3))
      (execAll fuel n reArg (fieldsText fields ++ " "%char :: tl))
  = map fieldGroups fields.
Proof.
  intros Htl. induction 1 as [|f fields Hf Hfs IH]; intros fuel Hfuel.
  - destruct fuel as [|fuel]; [cbn in Hfuel; lia|].
    cbn [fieldsText map concat app execAll].
    rewrite search_nowhere; [reflexivity|].
    intros s' (pre & Hs'). apply reArg_no_colon.
    intros Hin. assert (Hin' : In ":"%char (" "%char :: tl)).
    { rewrite Hs'. apply in_or_app. now right. }
    destruct Hin' as [D|Hin']; [discriminate|contradiction].
  - destruct fuel as [|fuel]; [cbn in Hfuel; lia|].
    unfold fieldsText in *. cbn [map concat]. rewrite <- app_assoc.
    destruct (fields_head fields tl) as (r & Hr). unfold fieldsText in Hr.
    rewrite Hr, fieldText_parts. cbn [app execAll search].
    rewrite reArg_not_at by (reflexivity || discriminate).
    repeat first [rewrite <- app_assoc | progress cbn [app]].
    rewrite (search_hit _ _ _ _ _ (m_arg n f r Hf)).
    cbn [before matched groups after map]. rewrite groups_of_field.
    f_equal. rewrite <- Hr. apply IH. cbn [length] in Hfuel. lia.
Qed.

Lemma execAll_skip n r (u rest : str) fuel :
  (forall u1 x u2, u = u1 ++ x :: u2 -> m n r accept (x :: u2 ++ rest) [] = None) ->
  map (fun x => map (fun i => group i (groups x)) (seq 1 3))
      (execAll (S fuel) n r (u ++ rest))
  = map (fun x => map (fun i => group i (groups x)) (seq 1 3))
      (execAll (S fuel) n r rest).
Proof.
  intros H. cbn [execAll]. rewrite (search_skip _ _ _ _ H).
  destruct (search n r rest) as [[b mt g a]|]; reflexivity.
Qed.

Lemma no_colon_in (p : ascii -> bool) s :
  p ":"%char = false -> allIn p s -> ~ In ":"%char s.
Proof.
  intros Hp Hall Hin. unfold allIn in Hall. rewrite Forall_forall in Hall.
  specialize (Hall _ Hin). congruence.
Qed.

Lemma no_brace_in (p : ascii -> bool) s :
  p "{"%char = false -> allIn p s -> ~ In "{"%char s.
Proof.
  intros Hp Hall Hin. unfold allIn in Hall. rewrite Forall_forall in Hall.
  specialize (Hall _ Hin). congruence.
Qed.

Lemma fieldsText_length fields : (length fields <= length (fieldsText fields))%nat.
Proof.
  induction fields as [|f fields IH]; [apply Nat.le_refl|].
  unfold fieldsText in *. cbn [map concat]. rewrite length_app.
  set (rest := concat (map fieldText fields)) in *.
  unfold fieldText. rewrite length_app. cbn [s2l list_ascii_of_string length]. lia.
Qed.

(** [findAll] on a well-formed line: one entry for every field, in
    order. *)
Lemma findAll_line name id fields res :
  wfLine name id fields res ->
  findAll reArg 3 (lineText name id fields res) = map fieldGroups fields.
Proof.
  intros (Hn & Hnw & Hid & Hf & Hr & Hrw).
  unfold findAll, lineText.
  set (n := length (name ++ idText id ++ fieldsText fields ++ s2l " = " ++ res ++ s2l ";")).
  assert (Hfuel : (length fields < n)%nat).
  { unfold n. rewrite !length_app. cbn [s2l list_ascii_of_string length].
    pose proof (fieldsText_length fields). lia. }
  set (u := name ++ idText id).
  set (tl := "="%char :: " "%char :: res ++ s2l ";").
  assert (E : name ++ idText id ++ fieldsText fields ++ s2l " = " ++ res ++ s2l ";"
              = u ++ (fieldsText fields ++ " "%char :: tl)).
  { unfold u, tl. cbn [s2l list_ascii_of_string app]. now rewrite <- !app_assoc. }
  rewrite E.
  assert (Hu1 : ~ In ":"%char u).
  { unfold u. intros Hin. apply in_app_or in Hin. destruct Hin as [Hin|Hin].
    - revert Hin. now apply (no_colon_in isNameChar).
    - destruct id as [h|]; [|contradiction]. destruct Hid as (_ & Hh).
      destruct Hin as [D|Hin]; [discriminate|].
      revert Hin. now apply (no_colon_in isHex). }
  assert (Hu2 : ~ In "{"%char u).
  { unfold u. intros Hin. apply in_app_or in Hin. destruct Hin as [Hin|Hin].
    - revert Hin. now apply (no_brace_in isNameChar).
    - destruct id as [h|]; [|contradiction]. destruct Hid as (_ & Hh).
      destruct Hin as [D|Hin]; [discriminate|].
      revert Hin. now apply (no_brace_in isHex). }
  assert (Htl : ~ In ":"%char tl).
  { unfold tl. intros [D|[D|Hin]]; try discriminate.
    apply in_app_or in Hin. destruct Hin as [Hin|[D|[]]]; [|discriminate].
    revert Hin. now apply (no_colon_in isResultChar). }
  rewrite execAll_skip.
  - apply execAll_fields; auto; lia.
  - intros u1 x u2 Hu.
    destruct (fields_head fields tl) as (r & ->).
    apply reArg_dead; try reflexivity; try discriminate.
    + intros Hin. apply Hu1. rewrite Hu. apply in_or_app. now right.
    + intros ->. apply Hu2. rewrite Hu. apply in_or_app. right. now left.
Qed.

Lemma addArgs_fields fields : forall config,
  argsConfig (addArgs config (map fieldGroups fields))
  = fold_left (fun o f =>
                 if fOpen f then o
                 else setProp (variableSnakeToCamelCase (fName f))
                        (buildArgConfig (fName f) (fType f)) o)
              fields (argsConfig config).
Proof.
  unfold addArgs.
  induction fields as [|f fields IH]; intros config; [reflexivity|].
  cbn [map fold_left]. rewrite IH. unfold fieldGroups.
  destruct (fOpen f); reflexivity.
Qed.

Lemma finishName_argsConfig config def :
  finishName config = Ok def -> argsConfig def = argsConfig config.
Proof.
  unfold finishName.
  destruct (includes (s2l ".") (name config)).
  - destruct (nth 1 (split reDotRest 1 (name config)) None); [|discriminate].
    intros H; injection H as <-. reflexivity.
  - intros H; injection H as <-. reflexivity.
Qed.

(** X22. The arguments of a definition.  On a well-formed line
    [findAll] finds one entry for every field, in the order of the
    line.  Every definition [fromLine] returns for the line has, for
    every field written without an opening brace, the configuration
    [buildArgConfig] gives for its name and type, stored under the name
    as [variableSnakeToCamelCase] writes it; a field written with an
    opening brace is not stored. *)
Theorem fromLine_arguments (name : str) (id : option str) (fields : list field)
  (res : str) (isFunction : bool) :
  wfLine name id fields res ->
  findAll reArg 3 (lineText name id fields res) = map fieldGroups fields /\
  forall def, fromLine (lineText name id fields res) isFunction = Ok def ->
              argsConfig def = argsOf fields.
Proof.
  intros Hwf. split; [now apply findAll_line|].
  intros def H. rewrite (fromLine_wf _ _ _ _ _ Hwf) in H.
  rewrite (finishName_argsConfig _ _ H), (findAll_line _ _ _ _ Hwf), addArgs_fields.
  unfold argsOf. f_equal.
  unfold deriveId. destruct (falsy _); reflexivity.
Qed.

Lemma fromLine_arguments_witness :
  findAll reArg 3 (lineText (s2l "foo") (Some (s2l "1a2b3c4d"))
                     [mkField false (s2l "x") (s2l "int") false] (s2l "Bar"))
  = map fieldGroups [mkField false (s2l "x") (s2l "int") false] /\
  forall def,
    fromLine (lineText (s2l "foo") (Some (s2l "1a2b3c4d"))
                [mkField false (s2l "x") (s2l "int") false] (s2l "Bar")) false = Ok def ->
    argsConfig def = argsOf [mkField false (s2l "x") (s2l "int") false].
Proof.
  apply (fromLine_arguments (s2l "foo") (Some (s2l "1a2b3c4d"))
           [mkField false (s2l "x") (s2l "int") false] (s2l "Bar") false).
  exact sample_wfLine.
Defined.

(** *** The ids, the name and the namespace *)

Lemma crc32_range input : 0 <= Crc32.crc32 input < 2 ^ 32.
Proof.
  unfold Crc32.crc32, Crc32.ushr, Crc32.toUint32. rewrite Z.shiftr_0_r.
  apply Z.mod_pos_bound. lia.
Qed.

Lemma addArgs_rest l : forall config,
  subclassOfId (addArgs config l) = subclassOfId config /\
  result_ (addArgs config l) = result_ config /\
  isFunction (addArgs config l) = isFunction config /\
  namespace (addArgs config l) = namespace config.
Proof.
  unfold addArgs.
  induction l as [|a l IH]; intros config; [repeat split|].
  cbn [fold_left]. destruct (IH (match a with
       | [brace; name; argType] =>
           match brace with
           | None => withArg config (variableSnakeToCamelCase (getOr name))
                       (buildArgConfig (getOr name) (getOr argType))
           | Some _ => config
           end
       | _ => config
       end)) as (H1 & H2 & H3 & H4).
  rewrite H1, H2, H3, H4.
  destruct a as [|brace [|nm [|ty [|? ?]]]]; try (repeat split; reflexivity).
  destruct brace; repeat split; reflexivity.
Qed.

Lemma finishName_rest config def :
  finishName config = Ok def ->
  subclassOfId def = subclassOfId config /\ result_ def = result_ config /\
  isFunction def = isFunction config.
Proof.
  unfold finishName.
  destruct (includes (s2l ".") (name config)).
  - destruct (nth 1 (split reDotRest 1 (name config)) None); [|discriminate].
    intros H; injection H as <-. repeat split.
  - intros H; injection H as <-. repeat split.
Qed.

(** X24. What a definition takes from its line besides the
    arguments.  The result type is the one of the line, [isFunction] is
    the flag [fromLine] was given, and [subclassOfId] is the CRC32 of
    the result type: an unsigned 32-bit number that is the same for
    all definitions with one result type.  When the line has no id, the
    id of the definition is an unsigned 32-bit number too, and it is the
    same for every line with this name and this result type, whatever
    its fields are. *)
Theorem fromLine_ids (name : str) (id : option str) (fields : list field) (res : str)
  (isFunction : bool) (def : TlDefinition) :
  wfLine name id fields res ->
  fromLine (lineText name id fields res) isFunction = Ok def ->
  result_ def = res /\
  Parser.isFunction def = isFunction /\
  subclassOfId def = Crc32.crc32_str res /\
  0 <= subclassOfId def < 2 ^ 32 /\
  (id = None ->
   exists z, constructorId def = Int z /\ 0 <= z < 2 ^ 32 /\
     forall fields' isFunction' def',
       wfLine name None fields' res ->
       fromLine (lineText name None fields' res) isFunction' = Ok def' ->
       constructorId def' = Int z).
Proof.
  intros Hwf H.
  pose proof H as H0.
  rewrite (fromLine_wf _ _ _ _ _ Hwf) in H.
  destruct (finishName_rest _ _ H) as (H1 & H2 & H3).
  destruct (addArgs_rest (findAll reArg 3 (lineText name id fields res))
              (deriveId (initialConfig
                 (Found [] (lineText name id fields res) (lineCaps name id res) [])
                 isFunction))) as (A1 & A2 & A3 & _).
  rewrite A1 in H1. rewrite A2 in H2. rewrite A3 in H3.
  assert (D : forall cfg, subclassOfId (deriveId cfg) = subclassOfId cfg /\
                          result_ (deriveId cfg) = result_ cfg /\
                          Parser.isFunction (deriveId cfg) = Parser.isFunction cfg).
  { intros cfg. unfold deriveId. destruct (falsy _); repeat split. }
  destruct (D (initialConfig
                 (Found [] (lineText name id fields res) (lineCaps name id res) [])
                 isFunction)) as (D1 & D2 & D3).
  rewrite D1 in H1. rewrite D2 in H2. rewrite D3 in H3.
  unfold initialConfig in H1, H2, H3.
  cbn [subclassOfId result_ Parser.isFunction groups] in H1, H2, H3.
  rewrite group3_lineCaps in H1, H2. cbn [getOr] in H1, H2.
  split; [exact H2|]. split; [exact H3|]. split; [exact H1|].
  split; [rewrite H1; apply crc32_range|].
  intros ->.
  exists (Crc32.crc32 (Crc32.utf8 (normalize (name ++ s2l " = " ++ res)))).
  split; [exact (fromLine_derived_id _ _ _ _ _ Hwf H0)|].
  split; [apply crc32_range|].
  intros fields' isF' def' Hwf' H'.
  exact (fromLine_derived_id _ _ _ _ _ Hwf' H').
Qed.

Lemma fromLine_ids_witness :
  exists def,
    fromLine (lineText (s2l "foo") (Some (s2l "1a2b3c4d"))
                [mkField false (s2l "x") (s2l "int") false] (s2l "Bar")) false = Ok def /\
    (result_ def = s2l "Bar" /\
     Parser.isFunction def = false /\
     subclassOfId def = Crc32.crc32_str (s2l "Bar") /\
     0 <= subclassOfId def < 2 ^ 32 /\
     (Some (s2l "1a2b3c4d") = None ->
      exists z, constructorId def = Int z /\ 0 <= z < 2 ^ 32 /\
        forall fields' isFunction' def',
          wfLine (s2l "foo") None fields' (s2l "Bar") ->
          fromLine (lineText (s2l "foo") None fields' (s2l "Bar")) isFunction' = Ok def' ->
          constructorId def' = Int z)).
Proof.
  eexists. split; [vm_compute; reflexivity|].
  apply (fromLine_ids (s2l "foo") (Some (s2l "1a2b3c4d"))
           [mkField false (s2l "x") (s2l "int") false] (s2l "Bar") false).
  - exact sample_wfLine.
  - vm_compute. reflexivity.
Defined.

Lemma includes_chr c s : includes [c] s = true <-> In c s.
Proof.
  induction s as [|x s IH]; cbn [includes startsWith].
  - split; [discriminate|intros []].
  - rewrite andb_true_r, orb_true_iff, IH. split.
    + intros [H|H]; [left|now right]. apply Ascii.eqb_eq in H. congruence.
    + intros [H|H]; [left|now right]. apply Ascii.eqb_eq. congruence.
Qed.

Lemma m_dotRest_none n x rest : x <> "."%char -> m n reDotRest accept (x :: rest) [] = None.
Proof.
  intros Hx. unfold reDotRest. rewrite m_seq. apply m_chr_other. congruence.
Qed.

Lemma m_dotRest_hit n nm :
  nm <> [] -> allIn isAny nm ->
  m n reDotRest accept ("."%char :: nm) [] = Some ([], [(1%nat, nm)]).
Proof.
  intros Hne Hall. unfold reDotRest. rewrite m_seq, m_chr.
  rewrite <- (app_nil_r nm) at 1. apply m_grp_plus_cls; auto. exact I.
Qed.

Lemma splitFrom_dot n nm : nm <> [] -> allIn isAny nm ->
  forall ns2 ns1 fuel, ~ In "."%char ns2 -> (length ns2 < fuel)%nat ->
  splitFrom fuel n reDotRest 1 ((ns1 ++ ns2) ++ "."%char :: nm) (ns2 ++ "."%char :: nm)
  = [Some (ns1 ++ ns2); Some nm; Some []].
Proof.
  intros Hne Hall. induction ns2 as [|x ns2 IH]; intros ns1 fuel Hno Hfuel.
  - destruct fuel as [|fuel]; [cbn in Hfuel; lia|].
    cbn [app splitFrom]. rewrite m_dotRest_hit by assumption.
    replace (length (@nil ascii) =? length ((ns1 ++ []) ++ "."%char :: nm))%nat with false
      by (symmetry; apply Nat.eqb_neq; rewrite length_app; cbn; lia).
    rewrite firstn_app_sub. cbn [seq map group Nat.eqb app].
    destruct fuel; reflexivity.
  - destruct fuel as [|fuel]; [cbn in Hfuel; lia|].
    cbn [app splitFrom]. rewrite m_dotRest_none.
    + replace (ns1 ++ x :: ns2) with ((ns1 ++ [x]) ++ ns2) by now rewrite <- app_assoc.
      apply IH; [|cbn [length] in Hfuel; lia].
      intros Hin. apply Hno. now right.
    + intros ->. apply Hno. now left.
Qed.

Lemma splitFrom_lone_dot n :
  forall ns2 ns1 fuel, ~ In "."%char ns2 ->
  splitFrom fuel n reDotRest 1 ((ns1 ++ ns2) ++ ["."%char]) (ns2 ++ ["."%char])
  = [Some ((ns1 ++ ns2) ++ ["."%char])].
Proof.
  induction ns2 as [|x ns2 IH]; intros ns1 fuel Hno.
  - destruct fuel as [|fuel]; [reflexivity|].
    cbn [app splitFrom].
    assert (E : m n reDotRest accept ["."%char] [] = None) by reflexivity.
    rewrite E. destruct fuel; reflexivity.
  - destruct fuel as [|fuel]; [reflexivity|].
    cbn [app splitFrom]. rewrite m_dotRest_none.
    + replace (ns1 ++ x :: ns2) with ((ns1 ++ [x]) ++ ns2) by now rewrite <- app_assoc.
      apply IH. intros Hin. apply Hno. now right.
    + intros ->. apply Hno. now left.
Qed.

Lemma nameChars_any xs : allIn isNameChar xs -> allIn isAny xs.
Proof.
  unfold allIn. apply Forall_impl. intros a H.
  unfold isNameChar, isWord, oneOf, isAny, isDigit, isLower, isUpper in *.
  destruct (Ascii.eqb_spec a "010"); [subst; discriminate|].
  destruct (Ascii.eqb_spec a "013"); [subst; discriminate|].
  assert (Hc : forall k, a <> ascii_of_N k -> (k < 256)%N -> (code a =? k)%N = false).
  { intros k Hk Hlt. apply N.eqb_neq. intros E. apply Hk.
    unfold code in E. rewrite <- E. now rewrite ascii_N_embedding. }
  rewrite (Hc 10%N), (Hc 13%N); auto; reflexivity.
Qed.

(** X25. The name and the namespace of a definition.  A name without
    a dot is written in camel case and has no namespace.  A name with a
    dot is cut at its first dot: what stands before it is the
    namespace, what follows it is written in camel case and is the
    name.  When nothing follows the only dot of the name, [fromLine]
    throws a TypeError instead of returning a definition. *)
Theorem fromLine_name_and_namespace (name : str) (id : option str)
  (fields : list field) (res : str) (isFunction : bool) :
  wfLine name id fields res ->
  (~ In "."%char name ->
   exists def, fromLine (lineText name id fields res) isFunction = Ok def /\
               Parser.name def = snakeToCamelCase name /\ namespace def = None)
  /\
  (forall ns nm, name = ns ++ "."%char :: nm -> ~ In "."%char ns -> nm <> [] ->
   exists def, fromLine (lineText name id fields res) isFunction = Ok def /\
               Parser.name def = snakeToCamelCase nm /\ namespace def = Some ns)
  /\
  (forall ns, name = ns ++ ["."%char] -> ~ In "."%char ns ->
   fromLine (lineText name id fields res) isFunction = Throw typeErrorReplace).
Proof.
  intros Hwf.
  pose proof (fromLine_wf name id fields res isFunction Hwf) as E.
  set (cfg := addArgs
                (deriveId (initialConfig
                   (Found [] (lineText name id fields res) (lineCaps name id res) [])
                   isFunction))
                (findAll reArg 3 (lineText name id fields res))) in *.
  assert (Hname : Parser.name cfg = name).
  { unfold cfg. rewrite addArgs_name, deriveId_name. unfold initialConfig.
    cbn [Parser.name groups]. now rewrite group1_lineCaps. }
  assert (Hns : namespace cfg = None).
  { unfold cfg. destruct (addArgs_rest (findAll reArg 3 (lineText name id fields res))
      (deriveId (initialConfig
         (Found [] (lineText name id fields res) (lineCaps name id res) []) isFunction)))
      as (_ & _ & _ & ->).
    unfold deriveId. destruct (falsy _); reflexivity. }
  destruct Hwf as (Hn & Hnw & _).
  rewrite E. unfold finishName. rewrite Hname, Hns.
  split; [|split].
  - intros Hno.
    destruct (includes (s2l ".") name) eqn:Ei.
    { exfalso. apply Hno. now apply includes_chr. }
    eexists. split; [reflexivity|]. split; reflexivity.
  - intros ns nm -> Hno Hnm.
    assert (Ei : includes (s2l ".") (ns ++ "."%char :: nm) = true).
    { apply includes_chr. apply in_or_app. right. now left. }
    rewrite Ei.
    assert (Hany : allIn isAny nm).
    { apply nameChars_any. unfold allIn in *. apply Forall_app in Hnw.
      destruct Hnw as (_ & Hnw). now inversion Hnw. }
    assert (Es : split reDotRest 1 (ns ++ "."%char :: nm) = [Some ns; Some nm; Some []]).
    { unfold split. destruct (ns ++ "."%char :: nm) as [|x t] eqn:Ex.
      { destruct ns; discriminate. }
      rewrite <- Ex.
      apply (splitFrom_dot _ nm Hnm Hany ns [] _ Hno).
      rewrite length_app. cbn [length]. lia. }
    rewrite Es. cbn [nth]. eexists. split; [reflexivity|]. split; reflexivity.
  - intros ns -> Hno.
    assert (Ei : includes (s2l ".") (ns ++ ["."%char]) = true).
    { apply includes_chr. apply in_or_app. right. now left. }
    rewrite Ei.
    assert (Es : split reDotRest 1 (ns ++ ["."%char]) = [Some (ns ++ ["."%char])]).
    { unfold split. destruct (ns ++ ["."%char]) as [|x t] eqn:Ex.
      { destruct ns; discriminate. }
      rewrite <- Ex.
      apply (splitFrom_lone_dot _ ns [] _ Hno). }
    rewrite Es. reflexivity.
Qed.

(** *** Lines that are skipped, and the section marker *)

Lemma splitChar_app c a b :
  splitChar c (a ++ c :: b) = splitChar c a ++ splitChar c b.
Proof.
  induction a as [|x a IH]; cbn [app].
  - now rewrite splitChar_sep.
  - cbn [splitChar]. rewrite IH.
    destruct (Ascii.eqb x c); [reflexivity|].
    destruct (splitChar_nonempty c a) as (h & r & ->). reflexivity.
Qed.

Lemma splitChar_absent c s : ~ In c s -> splitChar c s = [s].
Proof.
  induction s as [|x s IH]; intros Hno; [reflexivity|].
  cbn [splitChar]. rewrite IH by (intros H; apply Hno; now right).
  destruct (Ascii.eqb_spec x c) as [->|_]; [|reflexivity].
  exfalso. apply Hno. now left.
Qed.

Lemma parseLines_skip blank : trim (stripComment blank) = [] ->
  forall pre post isF parsed,
  parseLines (pre ++ blank :: post) isF parsed = parseLines (pre ++ post) isF parsed.
Proof.
  intros Hb pre. induction pre as [|l pre IH]; intros post isF parsed.
  - cbn [app parseLines]. now rewrite Hb.
  - cbn [app parseLines].
    destruct (trim (stripComment l)) as [|a t]; [apply IH|].
    destruct (exec reSection (a :: t)); [apply IH|].
    destruct (fromLine (a :: t) isF) as [d|e].
    + destruct (has CORE_TYPES (constructorId d)); apply IH.
    + destruct (negb (includes (s2l "vector#1cb5c415") e)); [reflexivity|apply IH].
Qed.

(** X26. A line that is blank, or holds a comment only, changes
    nothing: a schema with such a line between two of its lines is
    parsed as the schema without it. *)
Theorem parseTl_skips_blank_and_comment_lines (above blank below : str) :
  ~ In "010"%char blank ->
  trim (stripComment blank) = [] ->
  parseTl (above ++ "010"%char :: blank ++ "010"%char :: below)
  = parseTl (above ++ "010"%char :: below).
Proof.
  intros Hnl Hb. unfold parseTl.
  rewrite !splitChar_app, (splitChar_absent "010" blank Hnl).
  cbn [app]. now rewrite parseLines_skip.
Qed.

Lemma parseTl_skips_blank_and_comment_lines_witness :
  parseTl (s2l "foo#1a2b3c4d x:int = Bar;" ++ "010"%char :: s2l "  // a comment"
             ++ "010"%char :: s2l "baz#2 = Bar;")
  = parseTl (s2l "foo#1a2b3c4d x:int = Bar;" ++ "010"%char :: s2l "baz#2 = Bar;").
Proof.
  apply (parseTl_skips_blank_and_comment_lines
           (s2l "foo#1a2b3c4d x:int = Bar;") (s2l "  // a comment") (s2l "baz#2 = Bar;")).
  - vm_compute. intuition discriminate.
  - reflexivity.
Defined.

Lemma m_lit n l : forall k rest c,
  m n (fold_right (fun x r => Seq (Chr x) r) Eps l) k (l ++ rest) c = k rest c.
Proof.
  induction l as [|x l IH]; intros k rest c; [reflexivity|].
  cbn [fold_right app]. rewrite m_seq, m_chr. apply IH.
Qed.

Lemma lit_sound n l : forall k s c v,
  m n (fold_right (fun x r => Seq (Chr x) r) Eps l) k s c = Some v ->
  exists rest, s = l ++ rest /\ k rest c = Some v.
Proof.
  induction l as [|x l IH]; intros k s c v H.
  - now exists s.
  - cbn [fold_right] in H. rewrite m_seq in H.
    destruct s as [|y s]; [discriminate|].
    destruct (Ascii.eqb_spec x y) as [<-|Hy].
    + rewrite m_chr in H. destruct (IH _ _ _ _ H) as (rest & -> & Hk).
      now exists rest.
    + rewrite m_chr_other in H by exact Hy. discriminate.
Qed.

Lemma m_section n w :
  w <> [] -> allIn isWord w ->
  m n reSection accept (s2l "---" ++ w ++ s2l "---") [] = Some ([], [(1%nat, w)]).
Proof.
  intros Hne Hall. unfold reSection, Lit. rewrite m_seq, m_lit, m_seq.
  apply m_grp_plus_cls; [exact Hne|exact Hall|reflexivity|reflexivity].
Qed.

Lemma stripComment_no_slash s : ~ In "/"%char s -> stripComment s = s.
Proof.
  induction s as [|x s IH]; intros Hno; [reflexivity|].
  cbn [stripComment startsWith s2l list_ascii_of_string].
  rewrite IH by (intros H; apply Hno; now right).
  destruct (Ascii.eqb_spec "/" x) as [<-|_]; [|reflexivity].
  exfalso. apply Hno. now left.
Qed.

Lemma word_no_slash w : allIn isWord w -> ~ In "/"%char w.
Proof.
  intros Hall Hin. unfold allIn in Hall. rewrite Forall_forall in Hall.
  specialize (Hall _ Hin). discriminate.
Qed.

Lemma word_no_newline w : allIn isWord w -> ~ In "010"%char w.
Proof.
  intros Hall Hin. unfold allIn in Hall. rewrite Forall_forall in Hall.
  specialize (Hall _ Hin). discriminate.
Qed.

Lemma parseLines_marker w rest isF parsed :
  w <> [] -> allIn isWord w ->
  parseLines ((s2l "---" ++ w ++ s2l "---") :: rest) isF parsed
  = parseLines rest (str_eqb w (s2l "functions")) parsed.
Proof.
  intros Hne Hall. cbn [parseLines].
  rewrite stripComment_no_slash.
  2:{ intros Hin. cbn [s2l list_ascii_of_string app] in Hin.
      destruct Hin as [D|[D|[D|Hin]]]; try discriminate.
      apply in_app_or in Hin. destruct Hin as [Hin|Hin].
      - revert Hin. now apply word_no_slash.
      - cbn in Hin. intuition discriminate. }
  assert (Ht : trim (s2l "---" ++ w ++ s2l "---") = s2l "---" ++ w ++ s2l "---").
  { unfold trim. cbn [s2l list_ascii_of_string app dropWhile].
    change (isSpace "-") with false. cbv iota.
    change ("-"%char :: "-"%char :: "-"%char :: w ++ ["-"%char; "-"%char; "-"%char])
      with (("-"%char :: "-"%char :: "-"%char :: w ++ ["-"%char; "-"%char]) ++ ["-"%char])
      || idtac.
    replace ("-"%char :: "-"%char :: "-"%char :: w ++ ["-"%char; "-"%char; "-"%char])
      with (("-"%char :: "-"%char :: "-"%char :: w ++ ["-"%char; "-"%char]) ++ ["-"%char]).
    - apply dropWhileEnd_last. reflexivity.
    - cbn [app]. rewrite <- app_assoc. reflexivity. }
  rewrite Ht.
  assert (E : exists a t, s2l "---" ++ w ++ s2l "---" = a :: t) by (cbn; eauto).
  destruct E as (a & t & E). rewrite E at 1. cbv iota.
  unfold exec.
  pose proof (m_section (length (s2l "---" ++ w ++ s2l "---")) w Hne Hall) as Hm.
  rewrite (search_hit _ _ _ _ _ Hm). cbn [groups group Nat.eqb getOr]. reflexivity.
Qed.

Lemma parseLines_line name id fields res rest isF parsed :
  wfLine name id fields res ->
  parseLines (lineText name id fields res :: rest) isF parsed =
  match fromLine (lineText name id fields res) isF with
  | Ok d => if has CORE_TYPES (constructorId d) then parseLines rest isF parsed
            else parseLines rest isF (parsed ++ [d])
  | Throw e => if negb (includes (s2l "vector#1cb5c415") e) then Throw e
               else parseLines rest isF parsed
  end.
Proof.
  intros Hwf. pose proof (line_plain _ _ _ _ Hwf) as Hp.
  cbn [parseLines]. rewrite stripComment_plain, trim_line by assumption.
  assert (Hne : exists a s, lineText name id fields res = a :: s).
  { destruct Hwf as (Hn & _). unfold lineText.
    destruct name as [|a nm]; [contradiction|]. cbn [app]. eauto. }
  destruct Hne as (a & s & E). rewrite E at 1. cbv iota.
  unfold exec. rewrite search_section_plain by exact Hp. reflexivity.
Qed.

Lemma patchAuthKey_isFunction d : isFunction (patchAuthKey d) = isFunction d.
Proof. unfold patchAuthKey. now destruct (has AUTH_KEY_TYPES (constructorId d)). Qed.

Lemma fromLine_isFunction name id fields res isF d :
  wfLine name id fields res ->
  fromLine (lineText name id fields res) isF = Ok d -> isFunction d = isF.
Proof.
  intros Hwf H. rewrite (fromLine_wf _ _ _ _ _ Hwf) in H.
  destruct (finishName_rest _ _ H) as (_ & _ & H3).
  destruct (addArgs_rest (findAll reArg 3 (lineText name id fields res))
              (deriveId (initialConfig
                 (Found [] (lineText name id fields res) (lineCaps name id res) [])
                 isF))) as (_ & _ & A3 & _).
  rewrite A3 in H3. rewrite H3. unfold deriveId. now destruct (falsy _).
Qed.

Lemma marker_no_newline w : allIn isWord w -> ~ In "010"%char (s2l "---" ++ w ++ s2l "---").
Proof.
  intros Hall Hin. cbn [s2l list_ascii_of_string app] in Hin.
  destruct Hin as [D|[D|[D|Hin]]]; try discriminate.
  apply in_app_or in Hin. destruct Hin as [Hin|Hin].
  - revert Hin. now apply word_no_newline.
  - cbn in Hin. intuition discriminate.
Qed.

Lemma splitChar_textOfLine l : wfSchemaLine l -> splitChar "010" (textOfLine l) = [textOfLine l].
Proof.
  destruct l as [w|name id fields res]; cbn [wfSchemaLine textOfLine].
  - intros (_ & Hall). apply splitChar_absent. now apply marker_no_newline.
  - intros Hwf. apply splitChar_plain. now apply line_plain.
Qed.

(** The lines [split("\n")] finds in a schema. *)
Lemma splitChar_schemaText ls :
  Forall wfSchemaLine ls -> ls <> [] ->
  splitChar "010" (schemaText ls) = map textOfLine ls.
Proof.
  induction 1 as [|l ls Hl Hls IH]; intros Hne; [contradiction|].
  cbn [schemaText]. destruct ls as [|l' ls].
  - now apply splitChar_textOfLine.
  - rewrite splitChar_app, (splitChar_textOfLine l Hl), IH by discriminate.
    reflexivity.
Qed.

(** The loop over lines that are markers and definitions, followed by
    further lines. *)
Lemma parseLines_schema ls : Forall wfSchemaLine ls ->
  forall rest isF parsed,
  parseLines (map textOfLine ls ++ rest) isF parsed
  = match parseLines (map textOfLine ls) isF parsed with
    | Ok above => parseLines rest (sectionAfter isF ls) above
    | Throw e => Throw e
    end.
Proof.
  induction 1 as [|l ls Hl Hls IH]; intros rest isF parsed; [reflexivity|].
  cbn [map app]. destruct l as [w|name id fields res];
    cbn [wfSchemaLine textOfLine] in *.
  - destruct Hl as (Hne & Hall).
    rewrite !parseLines_marker by assumption. apply IH.
  - rewrite !(parseLines_line _ _ _ _ _ _ _ Hl).
    destruct (fromLine (lineText name id fields res) isF) as [d|e].
    + destruct (has CORE_TYPES (constructorId d)); apply IH.
    + destruct (negb (includes (s2l "vector#1cb5c415") e)); [reflexivity|apply IH].
Qed.

Lemma parseTl_schemaText ls : Forall wfSchemaLine ls ->
  parseTl (schemaText ls)
  = match parseLines (map textOfLine ls) false [] with
    | Ok parsed => Ok (map patchAuthKey parsed)
    | Throw e => Throw e
    end.
Proof.
  intros Hwf. unfold parseTl. destruct ls as [|l ls]; [reflexivity|].
  now rewrite splitChar_schemaText by (auto; discriminate).
Qed.

(** X27. The section markers, in a schema of markers and well-formed
    definition lines of any length.  A definition line that follows
    the lines [above] is handed to [fromLine] with the flag that the
    last marker above it sets -- true for [---functions---], false for
    every other word, false when there is no marker above -- whatever
    the number of definitions between that marker and the line; the
    definitions of the lines above stay as they are, and the new one,
    which carries the flag as [isFunction], is put behind them, unless
    its id is one of the core ids.  A marker at the end adds no
    definition. *)
Theorem section_marker_sets_isFunction (above : list schemaLine)
  (name : str) (id : option str) (fields : list field) (res : str) :
  Forall wfSchemaLine above ->
  wfLine name id fields res ->
  parseTl (schemaText (above ++ [DefinitionLine name id fields res]))
  = match parseTl (schemaText above) with
    | Throw e => Throw e
    | Ok defs =>
        match fromLine (lineText name id fields res) (inFunctions above) with
        | Ok d => if has CORE_TYPES (constructorId d) then Ok defs
                  else Ok (defs ++ [patchAuthKey d])
        | Throw e => if negb (includes (s2l "vector#1cb5c415") e) then Throw e
                     else Ok defs
        end
    end
  /\
  (forall d, fromLine (lineText name id fields res) (inFunctions above) = Ok d ->
             isFunction (patchAuthKey d) = inFunctions above)
  /\
  (forall w, w <> [] -> allIn isWord w ->
             parseTl (schemaText (above ++ [MarkerLine w])) = parseTl (schemaText above)).
Proof.
  intros Habove Hwf. split; [|split].
  - rewrite !parseTl_schemaText.
    2: exact Habove.
    2: { apply Forall_app. split; [exact Habove|]. now constructor. }
    rewrite map_app. cbn [map textOfLine].
    rewrite (parseLines_schema above Habove).
    destruct (parseLines (map textOfLine above) false []) as [parsed|e]; [|reflexivity].
    rewrite (parseLines_line _ _ _ _ _ _ _ Hwf). fold (inFunctions above).
    destruct (fromLine (lineText name id fields res) (inFunctions above)) as [d|e].
    + destruct (has CORE_TYPES (constructorId d)); cbn [parseLines]; [reflexivity|].
      now rewrite map_app.
    + destruct (negb (includes (s2l "vector#1cb5c415") e)); reflexivity.
  - intros d H. rewrite patchAuthKey_isFunction.
    exact (fromLine_isFunction _ _ _ _ _ _ Hwf H).
  - intros w Hne Hall. rewrite !parseTl_schemaText.
    2: exact Habove.
    2: { apply Forall_app. split; [exact Habove|]. constructor; [|constructor].
         now split. }
    rewrite map_app. cbn [map textOfLine].
    rewrite (parseLines_schema above Habove).
    destruct (parseLines (map textOfLine above) false []) as [parsed|e]; [|reflexivity].
    now rewrite parseLines_marker by assumption.
Qed.

(** *** The configuration of an argument *)

Lemma m_grp_plus_cls_end n i p k xs c v :
  xs <> [] -> allIn p xs ->
  k [] ((i, xs) :: c) = Some v ->
  m n (Grp i (Plus (Cls p))) k xs c = Some v.
Proof.
  intros Hne Hall Hk.
  pose proof (m_grp_plus_cls n i p k xs [] c v Hne Hall I Hk) as H.
  now rewrite app_nil_r in H.
Qed.

Lemma search_bol_later n r : forall s, (length s < n)%nat -> search n (Seq Bol r) s = None.
Proof.
  induction s as [|x s IH]; intros H; cbn [search]; rewrite m_seq, m_bol.
  - replace (length (@nil ascii) =? n)%nat with false; [reflexivity|].
    symmetry. apply Nat.eqb_neq. cbn in *. lia.
  - replace (length (x :: s) =? n)%nat with false
      by (symmetry; apply Nat.eqb_neq; lia).
    rewrite IH; [reflexivity|]. cbn [length] in H. lia.
Qed.

(** Leading exclamation marks are removed; a type without one is left
    as it is. *)
Lemma no_bangs s :
  match s with x :: _ => x <> "!"%char | [] => True end ->
  replaceFirst reBangs (fun _ => []) s = s.
Proof.
  intros H. unfold replaceFirst, exec, reBangs.
  destruct s as [|x s]; [reflexivity|].
  cbn [search]. rewrite m_seq, m_bol, Nat.eqb_refl.
  unfold Plus at 1. rewrite m_seq, m_chr_other by congruence.
  now rewrite search_bol_later by (cbn [length]; lia).
Qed.

Lemma seq_chr_sound n x r k s c v :
  m n (Seq (Chr x) r) k s c = Some v -> exists t, s = x :: t.
Proof.
  rewrite m_seq. intros H. destruct s as [|y s]; [discriminate|].
  destruct (Ascii.eqb_spec x y) as [<-|Hy]; [now exists s|].
  rewrite m_chr_other in H by exact Hy. discriminate.
Qed.

Lemma reFlag_needs_question n s v :
  m n reFlag accept s [] = Some v -> In "?"%char s.
Proof.
  unfold reFlag. intros H.
  do 3 (rewrite m_seq in H; apply m_sound in H; destruct H as (? & ? & ? & H)).
  apply seq_chr_sound in H. destruct H as (t & ->).
  repeat match goal with
         | A : suffix ?a ?b, B : suffix ?b ?c |- _ =>
             pose proof (suffix_trans _ _ _ A B); clear A
         end.
  match goal with
  | A : suffix (_ :: _) s |- _ => destruct A as (pre & E)
  end.
  rewrite E. apply in_or_app. right. now left.
Qed.

Lemma exec_flag_none s : ~ In "?"%char s -> exec reFlag s = None.
Proof.
  intros Hno. unfold exec. apply search_nowhere.
  intros s' (pre & ->).
  destruct (m (length (pre ++ s')) reFlag accept s' []) as [v|] eqn:E; [|reflexivity].
  exfalso. apply Hno. apply in_or_app. right. exact (reFlag_needs_question _ _ _ E).
Qed.

Lemma reVector_needs_angle n s v :
  m n reVector accept s [] = Some v -> In "<"%char s.
Proof.
  unfold reVector. intros H.
  rewrite m_seq in H. apply m_sound in H. destruct H as (s1 & c1 & (pre & ->) & H).
  rewrite m_seq in H. unfold Lit in H.
  apply lit_sound in H. destruct H as (rest & -> & _).
  apply in_or_app. right. cbn. tauto.
Qed.

Lemma exec_vector_none s : ~ In "<"%char s -> exec reVector s = None.
Proof.
  intros Hno. unfold exec. apply search_nowhere.
  intros s' (pre & ->).
  destruct (m (length (pre ++ s')) reVector accept s' []) as [v|] eqn:E; [|reflexivity].
  exfalso. apply Hno. apply in_or_app. right. exact (reVector_needs_angle _ _ _ E).
Qed.

Lemma m_vector n (upper : bool) t :
  t <> [] -> allIn isVectorTypeChar t ->
  m n reVector accept ((if upper then s2l "Vector<" else s2l "vector<") ++ t ++ s2l ">") []
  = Some ([], [(1%nat, t)]).
Proof.
  intros Hne Hall. unfold reVector, Lit.
  destruct upper; cbn [s2l list_ascii_of_string app fold_right];
    rewrite m_seq, m_cls by reflexivity;
    rewrite !m_seq, !m_chr;
    (apply m_grp_plus_cls; [exact Hne|exact Hall|reflexivity|reflexivity]).
Qed.

Lemma exec_vector_hit (upper : bool) t :
  t <> [] -> allIn isVectorTypeChar t ->
  exec reVector ((if upper then s2l "Vector<" else s2l "vector<") ++ t ++ s2l ">")
  = Some (Found [] ((if upper then s2l "Vector<" else s2l "vector<") ++ t ++ s2l ">")
            [(1%nat, t)] []).
Proof.
  intros Hne Hall. unfold exec.
  rewrite (search_hit _ _ _ _ _ (m_vector _ upper t Hne Hall)).
  cbn [length]. rewrite Nat.sub_0_r. now rewrite firstn_all.
Qed.

Lemma test_one_lower p : test reOneLower (charAt0 p) = startsLower p.
Proof.
  destruct p as [|x p]; [reflexivity|].
  unfold test, exec, charAt0, startsLower, reOneLower.
  cbn -[isLower]. now destruct (isLower x).
Qed.

Lemma vectorChars_flag xs : allIn isVectorTypeChar xs -> allIn isFlagTypeChar xs.
Proof.
  unfold allIn. apply Forall_impl. intros a H.
  unfold isVectorTypeChar, isFlagTypeChar, oneOf in *. cbn [s2l list_ascii_of_string existsb] in *.
  apply orb_true_iff in H. destruct H as [H|H].
  - apply orb_true_iff in H. destruct H as [H|H]; [now rewrite H|].
    unfold isWord. now rewrite H.
  - rewrite orb_false_r in H. rewrite H. now rewrite !orb_true_r.
Qed.

Lemma vectorText_flagChars a :
  elem a <> [] -> allIn isVectorTypeChar (elem a) ->
  vectorText a <> [] /\ allIn isFlagTypeChar (vectorText a).
Proof.
  intros Hne Hall. pose proof (vectorChars_flag _ Hall) as Hf.
  unfold vectorText. destruct (vector a) as [upper|]; [|now split].
  split; [destruct upper; discriminate|].
  apply allIn_app; [destruct upper; repeat constructor|].
  apply allIn_app; [exact Hf|repeat constructor].
Qed.

Lemma exec_flag_hit sfx idx ty :
  allIn isDigit sfx -> idx <> [] -> allIn isDigit idx ->
  ty <> [] -> allIn isFlagTypeChar ty ->
  exec reFlag (s2l "flags" ++ sfx ++ s2l "." ++ idx ++ s2l "?" ++ ty)
  = Some (Found [] (s2l "flags" ++ sfx ++ s2l "." ++ idx ++ s2l "?" ++ ty)
            [(3%nat, ty); (2%nat, idx); (1%nat, s2l "flags" ++ sfx)] []).
Proof.
  intros Hsfx Hidx Hidxd Hty Htyc. unfold exec.
  set (s := s2l "flags" ++ sfx ++ s2l "." ++ idx ++ s2l "?" ++ ty).
  assert (Hm : m (length s) reFlag accept s []
               = Some ([], [(3%nat, ty); (2%nat, idx); (1%nat, s2l "flags" ++ sfx)])).
  { unfold reFlag. rewrite m_seq, m_grp, m_seq. unfold Lit, s.
    rewrite m_lit.
    set (rest := s2l "." ++ idx ++ s2l "?" ++ ty).
    assert (Hk : forall c,
              m (length s) (Seq (Cls isAny)
                 (Seq (Grp 2 (Plus (Cls isDigit)))
                    (Seq (Chr "?") (Grp 3 (Plus (Cls isFlagTypeChar)))))) accept rest c
              = Some ([], (3%nat, ty) :: (2%nat, idx) :: c)).
    { intros c. unfold rest. cbn [s2l list_ascii_of_string app].
      rewrite m_seq, m_cls by reflexivity. rewrite m_seq.
      apply m_grp_plus_cls; [exact Hidx|exact Hidxd|reflexivity|].
      rewrite m_seq, m_chr.
      apply m_grp_plus_cls_end; [exact Hty|exact Htyc|reflexivity]. }
    assert (Hcap : firstn (length (s2l "flags" ++ sfx ++ rest) - length rest)
                     (s2l "flags" ++ sfx ++ rest) = s2l "flags" ++ sfx).
    { rewrite app_assoc. apply firstn_app_sub. }
    destruct sfx as [|d sfx].
    - cbn [app]. rewrite m_opt_skip by reflexivity.
      cbn [app] in Hcap. fold s2l in *. rewrite Hcap. apply Hk.
    - apply m_opt_take. apply m_plus_cls; [discriminate|exact Hsfx|reflexivity|].
      rewrite Hcap. apply Hk. }
  rewrite (search_hit _ _ _ _ _ Hm). cbn [length]. rewrite Nat.sub_0_r.
  now rewrite firstn_all.
Qed.

Lemma vectorChar_facts x :
  isVectorTypeChar x = true ->
  x <> "#"%char /\ x <> "!"%char /\ x <> "?"%char /\ x <> "<"%char.
Proof.
  intros H. repeat split; intros ->; discriminate.
Qed.

Lemma elem_absent (c : ascii) t :
  isVectorTypeChar c = false -> allIn isVectorTypeChar t -> ~ In c t.
Proof.
  intros Hc Hall Hin. unfold allIn in Hall. rewrite Forall_forall in Hall.
  specialize (Hall _ Hin). congruence.
Qed.

Lemma vectorText_head a :
  elem a <> [] -> allIn isVectorTypeChar (elem a) ->
  exists x t, vectorText a = x :: t /\ x <> "#"%char /\ x <> "!"%char.
Proof.
  intros Hne Hall. unfold vectorText. destruct (vector a) as [[|]|].
  - eexists _, _. split; [reflexivity|]. split; discriminate.
  - eexists _, _. split; [reflexivity|]. split; discriminate.
  - destruct (elem a) as [|x t]; [contradiction|].
    inversion Hall as [|? ? Hx Ht]; subst. exists x, t. split; [reflexivity|].
    destruct (vectorChar_facts x Hx) as (G1 & G2 & _). now split.
Qed.

Lemma vectorText_no_question a :
  allIn isVectorTypeChar (elem a) -> ~ In "?"%char (vectorText a).
Proof.
  intros Hall. pose proof (elem_absent "?" _ eq_refl Hall) as Hno.
  unfold vectorText. destruct (vector a) as [upper|]; [|exact Hno].
  intros Hin. apply in_app_or in Hin. destruct Hin as [Hin|Hin].
  - destruct upper; cbn in Hin; intuition discriminate.
  - apply in_app_or in Hin. destruct Hin as [Hin|Hin]; [contradiction|].
    cbn in Hin. intuition discriminate.
Qed.

(** X23. [buildArgConfig] on the types of a schema.  For an element
    type, alone or in a vector, with or without a flag prefix: the
    argument is a vector when the type is written as one, with
    [useVectorId] telling whether "Vector" had a capital letter; it is
    a flag when there is a prefix, with the name of the flag field and
    the index read from the prefix; [type] is the element type
    ("FutureSalt" for "future_salt"); and [skipConstructorId] tells
    whether the last part of the element type starts with a lower-case
    letter.  The name of the argument plays no part. *)
Theorem buildArgConfig_of_shape (name : str) (a : argShape) :
  wfArgShape a ->
  buildArgConfig name (argTypeText a) = shapeConfig a.
Proof.
  intros (Hne & Hall & Hflag).
  destruct (vectorText_head a Hne Hall) as (x & t & Hx & Hx1 & Hx2).
  destruct (vectorText_flagChars a Hne Hall) as (Hvne & Hvall).
  pose proof (vectorText_no_question a Hall) as Hnq.
  assert (Hexec : exec reVector (vectorText a) =
            match vector a with
            | Some upper => Some (Found [] (vectorText a) [(1%nat, elem a)] [])
            | None => None
            end).
  { unfold vectorText. destruct (vector a) as [upper|].
    - now apply exec_vector_hit.
    - apply exec_vector_none. apply elem_absent; [reflexivity|exact Hall]. }
  assert (HV : match vector a with
               | Some upper => str_eqb (charAt0 (vectorText a)) (s2l "V") = upper
               | None => vectorText a = elem a
               end).
  { unfold vectorText. destruct (vector a) as [[|]|]; reflexivity. }
  unfold buildArgConfig, shapeConfig, argTypeText, flagText.
  destruct (flagged a) as [[sfx idx]|].
  - destruct Hflag as (Hsfx & Hidx & Hidxd).
    assert (E0 : str_eqb ((s2l "flags" ++ sfx ++ s2l "." ++ idx ++ s2l "?") ++ vectorText a)
                   (s2l "#") = false) by reflexivity.
    rewrite E0. cbn [negb].
    rewrite no_bangs by (cbn; discriminate).
    replace ((s2l "flags" ++ sfx ++ s2l "." ++ idx ++ s2l "?") ++ vectorText a)
      with (s2l "flags" ++ sfx ++ s2l "." ++ idx ++ s2l "?" ++ vectorText a)
      by now rewrite <- !app_assoc.
    cbn [type getOr]. rewrite exec_flag_hit by assumption.
    cbn [groups group Nat.eqb getOr isVector isFlag skipConstructorId flagName
         flagIndex flagIndicator useVectorId type].
    destruct (exec reVector (vectorText a)) as [f|] eqn:E;
      clear E; destruct (vector a) as [upper|]; try discriminate;
      [injection Hexec as ->; rewrite HV|rewrite !HV];
      cbn [groups group Nat.eqb getOr isVector isFlag skipConstructorId flagName
           flagIndex flagIndicator useVectorId type];
      rewrite test_one_lower;
      destruct (startsLower (last (splitChar "." (elem a)) []));
      cbn [type]; now destruct (str_eqb (elem a) (s2l "future_salt")).
  - cbn [app].
    assert (E0 : str_eqb (vectorText a) (s2l "#") = false).
    { destruct (str_eqb (vectorText a) (s2l "#")) eqn:E; [|reflexivity].
      apply BasicFacts.str_eqb_eq in E. rewrite Hx in E. injection E as -> _.
      contradiction. }
    rewrite E0. cbn [negb].
    rewrite no_bangs by (rewrite Hx; exact Hx2).
    cbn [type getOr].
    rewrite exec_flag_none by exact Hnq.
    cbn [groups group Nat.eqb getOr isVector isFlag skipConstructorId flagName
         flagIndex flagIndicator useVectorId type].
    destruct (exec reVector (vectorText a)) as [f|] eqn:E;
      clear E; destruct (vector a) as [upper|]; try discriminate;
      [injection Hexec as ->; rewrite HV|rewrite !HV];
      cbn [groups group Nat.eqb getOr isVector isFlag skipConstructorId flagName
           flagIndex flagIndicator useVectorId type];
      rewrite test_one_lower;
      destruct (startsLower (last (splitChar "." (elem a)) []));
      cbn [type]; now destruct (str_eqb (elem a) (s2l "future_salt")).
Qed.

(** *** Field names *)

Lemma m_variable_hit n x y t :
  oneOf "-_" x = true -> isLower y = true ->
  m n reVariableSnake accept (x :: y :: t) [] = Some (t, [(1%nat, [x; y])]).
Proof.
  intros Hx Hy. unfold reVariableSnake. rewrite m_grp, m_seq.
  rewrite m_cls by exact Hx. rewrite m_cls by exact Hy. unfold accept.
  pose proof (firstn_app_sub [x; y] t) as F. cbn [app] in F. now rewrite F.
Qed.

Lemma m_variable_none n x t :
  (oneOf "-_" x = false \/ match t with y :: _ => isLower y = false | [] => True end) ->
  m n reVariableSnake accept (x :: t) [] = None.
Proof.
  intros H. unfold reVariableSnake. rewrite m_grp, m_seq.
  destruct (oneOf "-_" x) eqn:Ex.
  - rewrite m_cls by exact Ex. destruct H as [H|H]; [discriminate|].
    destruct t as [|y t]; [reflexivity|]. now rewrite m_cls_false.
  - now rewrite m_cls_false.
Qed.

Lemma replaceFirst_lit_absent c s :
  ~ In c s -> replaceFirst (Lit (String c EmptyString)) (fun _ => []) s = s.
Proof.
  intros Hno. unfold replaceFirst, exec. rewrite search_nowhere; [reflexivity|].
  intros s' (pre & E). unfold Lit. cbn [s2l list_ascii_of_string fold_right].
  rewrite m_seq. destruct s' as [|x s']; [reflexivity|].
  apply m_chr_other. intros <-. apply Hno. rewrite E. apply in_or_app. right. now left.
Qed.

Lemma replaceFirst_lit_head c t :
  replaceFirst (Lit (String c EmptyString)) (fun _ => []) (c :: t) = t.
Proof.
  unfold replaceFirst, exec.
  assert (Hm : m (length (c :: t)) (Lit (String c EmptyString)) accept (c :: t) []
               = Some (t, [])).
  { unfold Lit. cbn [s2l list_ascii_of_string fold_right]. now rewrite m_seq, m_chr. }
  now rewrite (search_hit _ _ _ _ _ Hm).
Qed.

Lemma variable_replacement x y :
  (x = "_"%char \/ x = "-"%char) -> isLower y = true ->
  replaceFirst (Lit "_") (fun _ => [])
    (replaceFirst (Lit "-") (fun _ => []) (toUpperCase [x; y]))
  = [ascii_of_N (code y - 32)].
Proof.
  intros Hx Hy.
  assert (Hu : forall c, c = "_"%char \/ c = "-"%char -> c <> ascii_of_N (code y - 32)).
  { intros c Hc E.
    unfold isLower, code in Hy. apply andb_true_iff in Hy. destruct Hy as (H1 & H2).
    apply N.leb_le in H1, H2.
    apply (f_equal N_of_ascii) in E. unfold code in E.
    rewrite N_ascii_embedding in E by lia.
    destruct Hc as [-> | ->]; cbn in E; lia. }
  cbn [toUpperCase map]. rewrite Hy.
  destruct Hx as [-> | ->].
  - change (isLower "_") with false. cbv iota.
    rewrite (replaceFirst_lit_absent "-").
    + apply (replaceFirst_lit_head "_").
    + intros [D|[D|[]]]; [discriminate|]. symmetry in D. revert D. apply Hu. now right.
  - change (isLower "-") with false. cbv iota.
    rewrite (replaceFirst_lit_head "-").
    apply (replaceFirst_lit_absent "_").
    intros [D|[]]. symmetry in D. revert D. apply Hu. now left.
Qed.

Lemma camelPart_hd t :
  match t with y :: _ => isLower y = false | [] => True end ->
  camelPart (hd [] (splitChar "_" t)) = "_"%char :: hd [] (splitChar "_" t).
Proof.
  destruct t as [|y t]; intros H; [reflexivity|].
  destruct (Ascii.eqb_spec y "_") as [->|Hy].
  - now rewrite splitChar_sep.
  - rewrite splitChar_other by exact Hy. unfold camelPart. cbn [hd startsLower].
    now rewrite H.
Qed.

Lemma variable_rest n : forall fuel s,
  (length s < fuel)%nat -> ~ In "-"%char s ->
  replaceFrom fuel n reVariableSnake
    (fun x => replaceFirst (Lit "_") (fun _ => [])
                (replaceFirst (Lit "-") (fun _ => []) (toUpperCase (matched x)))) s
  = hd [] (splitChar "_" s) ++ concat (map camelPart (tl (splitChar "_" s))).
Proof.
  set (f := fun x : found =>
              replaceFirst (Lit "_") (fun _ => [])
                (replaceFirst (Lit "-") (fun _ => []) (toUpperCase (matched x)))).
  assert (Hf : forall b b' mt g a, f (Found b mt g a) = f (Found b' mt g a))
    by reflexivity.
  induction fuel as [|fuel IHf]; intros s Hfuel; [lia|].
  induction s as [|x t IHs]; intros Hno.
  - reflexivity.
  - cbn [length] in Hfuel.
    assert (Hnot : ~ In "-"%char t) by (intros H; apply Hno; now right).
    assert (IHt : replaceFrom (S fuel) n reVariableSnake f t
                  = hd [] (splitChar "_" t)
                    ++ concat (map camelPart (tl (splitChar "_" t)))).
    { apply IHs; [lia|exact Hnot]. }
    destruct (Ascii.eqb_spec x "_") as [->|Hx].
    + destruct t as [|y t'].
      * rewrite replaceFrom_skip; [|exact Hf|apply m_variable_none; now right].
        rewrite IHt. reflexivity.
      * destruct (isLower y) eqn:Ey.
        -- change ("_"%char :: y :: t') with (["_"%char; y] ++ t').
           rewrite (replaceFrom_hit fuel n reVariableSnake f ["_"%char; y] t'
                      [(1%nat, ["_"%char; y])]);
             [|discriminate|now apply m_variable_hit].
           unfold f at 1. cbn [matched].
           rewrite variable_replacement by (auto).
           rewrite IHf; [|cbn [length] in Hfuel; lia|intros H; apply Hnot; now right].
           cbn [app]. rewrite splitChar_sep.
           rewrite (splitChar_other "_" y t') by now apply lower_not_underscore.
           cbn [hd tl map concat app]. unfold camelPart. cbn [startsLower capitalize].
           rewrite !Ey. reflexivity.
        -- rewrite replaceFrom_skip; [|exact Hf|apply m_variable_none; now right].
           rewrite IHt. rewrite splitChar_sep. cbn [hd tl app].
           rewrite (split_parts (y :: t')) at 3. cbn [map concat].
           rewrite camelPart_hd by exact Ey. reflexivity.
    + rewrite replaceFrom_skip; [|exact Hf|].
      2:{ apply m_variable_none. left.
          unfold oneOf. cbn [s2l list_ascii_of_string existsb].
          destruct (Ascii.eqb_spec x "-") as [->|_]; [exfalso; apply Hno; now left|].
          destruct (Ascii.eqb_spec x "_") as [->|_]; [contradiction|reflexivity]. }
      rewrite IHt. rewrite (splitChar_other "_" x t) by exact Hx. reflexivity.
Qed.

(** X21. [variableSnakeToCamelCase] on a name without a hyphen,
    written without regular expressions: the name is cut at its
    underscores; of every part after the first one the first letter is
    put in upper case and the underscore before it is dropped, unless
    the part does not start with a lower-case letter, in which case the
    underscore stays.  A name without underscore is left as it is. *)
Theorem variableSnakeToCamelCase_parts (value : str) :
  ~ In "-"%char value ->
  variableSnakeToCamelCase value
  = hd [] (splitChar "_" value) ++ concat (map camelPart (tl (splitChar "_" value)))
  /\ (~ In "_"%char value -> variableSnakeToCamelCase value = value).
Proof.
  intros Hno.
  assert (E : variableSnakeToCamelCase value
              = hd [] (splitChar "_" value)
                ++ concat (map camelPart (tl (splitChar "_" value)))).
  { unfold variableSnakeToCamelCase, replaceAll. apply variable_rest; [lia|exact Hno]. }
  split; [exact E|].
  intros Hu. rewrite E, (splitChar_absent "_" value Hu). cbn. apply app_nil_r.
Qed.

Lemma variableSnakeToCamelCase_parts_witness :
  variableSnakeToCamelCase (s2l "access_hash")
  = hd [] (splitChar "_" (s2l "access_hash"))
    ++ concat (map camelPart (tl (splitChar "_" (s2l "access_hash"))))
  /\ (~ In "_"%char (s2l "access_hash") ->
      variableSnakeToCamelCase (s2l "access_hash") = s2l "access_hash").
Proof.
  apply (variableSnakeToCamelCase_parts (s2l "access_hash")).
  cbn. intuition discriminate.
Defined.

(** *** Samples *)

Lemma buildArgConfig_of_shape_witness :
  buildArgConfig (s2l "ids") (argTypeText sampleShape) = shapeConfig sampleShape.
Proof.
  apply (buildArgConfig_of_shape (s2l "ids") sampleShape).
  split; [discriminate|]. split; [repeat constructor|].
  split; [constructor|]. split; [discriminate|repeat constructor].
Defined.

Lemma dotted_wfLine :
  wfLine (s2l "auth.req_pq") (Some (s2l "60469778")) [sampleNonce] (s2l "ResPQ").
Proof.
  unfold wfLine.
  split; [discriminate|]. split; [repeat constructor|].
  split; [split; [discriminate|repeat constructor]|].
  split.
  - constructor; [|constructor]. unfold wfField, sampleNonce. cbn [fName fType].
    split; [discriminate|]. split; [repeat constructor|].
    split; [discriminate|repeat constructor].
  - split; [discriminate|repeat constructor].
Qed.

Lemma fromLine_name_and_namespace_witness :
  (~ In "."%char (s2l "auth.req_pq") ->
   exists def, fromLine (lineText (s2l "auth.req_pq") (Some (s2l "60469778"))
                           [sampleNonce] (s2l "ResPQ")) true = Ok def /\
               Parser.name def = snakeToCamelCase (s2l "auth.req_pq") /\
               namespace def = None)
  /\
  (forall ns nm, s2l "auth.req_pq" = ns ++ "."%char :: nm -> ~ In "."%char ns -> nm <> [] ->
   exists def, fromLine (lineText (s2l "auth.req_pq") (Some (s2l "60469778"))
                           [sampleNonce] (s2l "ResPQ")) true = Ok def /\
               Parser.name def = snakeToCamelCase nm /\ namespace def = Some ns)
  /\
  (forall ns, s2l "auth.req_pq" = ns ++ ["."%char] -> ~ In "."%char ns ->
   fromLine (lineText (s2l "auth.req_pq") (Some (s2l "60469778"))
               [sampleNonce] (s2l "ResPQ")) true = Throw typeErrorReplace).
Proof.
  apply (fromLine_name_and_namespace (s2l "auth.req_pq") (Some (s2l "60469778"))
           [sampleNonce] (s2l "ResPQ") true).
  exact dotted_wfLine.
Defined.

Lemma section_marker_sets_isFunction_witness :
  parseTl (schemaText ([MarkerLine (s2l "functions"); sampleLine]
                       ++ [DefinitionLine (s2l "auth.req_pq") (Some (s2l "60469778"))
                             [sampleNonce] (s2l "ResPQ")]))
  = match parseTl (schemaText [MarkerLine (s2l "functions"); sampleLine]) with
    | Throw e => Throw e
    | Ok defs =>
        match fromLine (lineText (s2l "auth.req_pq") (Some (s2l "60469778"))
                          [sampleNonce] (s2l "ResPQ"))
                (inFunctions [MarkerLine (s2l "functions"); sampleLine]) with
        | Ok d => if has CORE_TYPES (constructorId d) then Ok defs
                  else Ok (defs ++ [patchAuthKey d])
        | Throw e => if negb (includes (s2l "vector#1cb5c415") e) then Throw e
                     else Ok defs
        end
    end
  /\
  (forall d, fromLine (lineText (s2l "auth.req_pq") (Some (s2l "60469778"))
                         [sampleNonce] (s2l "ResPQ"))
               (inFunctions [MarkerLine (s2l "functions"); sampleLine]) = Ok d ->
             isFunction (patchAuthKey d)
             = inFunctions [MarkerLine (s2l "functions"); sampleLine])
  /\
  (forall w, w <> [] -> allIn isWord w ->
             parseTl (schemaText ([MarkerLine (s2l "functions"); sampleLine]
                                  ++ [MarkerLine w]))
             = parseTl (schemaText [MarkerLine (s2l "functions"); sampleLine])).
Proof.
  apply (section_marker_sets_isFunction [MarkerLine (s2l "functions"); sampleLine]
           (s2l "auth.req_pq") (Some (s2l "60469778")) [sampleNonce] (s2l "ResPQ")).
  - constructor; [|constructor; [exact sample_wfLine|constructor]].
    split; [discriminate|repeat constructor].
  - exact dotted_wfLine.
Defined.

End SchemaFacts.

(** ** The parser: lines that are no definition, and one-line schemas *)

Module SchemaErrors.
Import Regex RegexFacts Parser SchemaNotions MatcherFacts ParserFacts SchemaFacts.

Lemma reSection_needs_hyphen n s v :
  m n reSection accept s [] = Some v -> In "-"%char s.
Proof.
  unfold reSection, Lit. rewrite m_seq. intros H.
  apply lit_sound in H. destruct H as (rest & -> & _). now left.
Qed.

Lemma exec_section_none s : ~ In "-"%char s -> exec reSection s = None.
Proof.
  intros Hno. unfold exec. apply search_nowhere.
  intros s' (pre & ->).
  destruct (m (length (pre ++ s')) reSection accept s' []) as [v|] eqn:E; [|reflexivity].
  exfalso. apply Hno. apply in_or_app. right. exact (reSection_needs_hyphen _ _ _ E).
Qed.

Lemma includes_after_message line :
  includes (s2l "vector#1cb5c415") (s2l "Error: Cannot parse TLObject " ++ line)
  = includes (s2l "vector#1cb5c415") line.
Proof. reflexivity. Qed.

(** X29. A line that is no definition.  When a line of the schema,
    after its comment is cut off and it is trimmed, is not empty, is no
    section marker and is not matched by the expression of [fromLine],
    then [parseTl] throws for the whole schema, with a message that
    carries the line, whatever follows the line; unless the line
    contains "vector#1cb5c415": then the error is swallowed and the
    line is skipped. *)
Theorem parseTl_line_that_is_no_definition (l rest : str) :
  ~ In "010"%char l ->
  trim (stripComment l) <> [] ->
  ~ In "-"%char (trim (stripComment l)) ->
  exec reLine (trim (stripComment l)) = None ->
  (includes (s2l "vector#1cb5c415") (trim (stripComment l)) = false ->
   parseTl (l ++ "010"%char :: rest)
   = Throw (s2l "Error: Cannot parse TLObject " ++ trim (stripComment l)))
  /\
  (includes (s2l "vector#1cb5c415") (trim (stripComment l)) = true ->
   parseTl (l ++ "010"%char :: rest) = parseTl rest).
Proof.
  intros Hnl Hne Hhy Hex.
  assert (E : forall isF parsed,
            parseLines (l :: splitChar "010" rest) isF parsed
            = if negb (includes (s2l "vector#1cb5c415") (trim (stripComment l)))
              then Throw (s2l "Error: Cannot parse TLObject " ++ trim (stripComment l))
              else parseLines (splitChar "010" rest) isF parsed).
  { intros isF parsed. cbn [parseLines].
    destruct (trim (stripComment l)) as [|a t] eqn:Et; [contradiction|].
    rewrite (exec_section_none _ Hhy).
    unfold fromLine. rewrite Hex. now rewrite includes_after_message. }
  unfold parseTl. rewrite splitChar_app, (splitChar_absent "010" l Hnl).
  cbn [app]. rewrite E.
  split; intros ->; reflexivity.
Qed.

Lemma parseTl_line_that_is_no_definition_witness :
  (includes (s2l "vector#1cb5c415")
     (trim (stripComment (s2l "vector#1cb5c415 {t:Type} # [ t ] = Vector t;"))) = false ->
   parseTl (s2l "vector#1cb5c415 {t:Type} # [ t ] = Vector t;" ++ "010"%char
              :: s2l "foo#1a2b3c4d x:int = Bar;")
   = Throw (s2l "Error: Cannot parse TLObject "
              ++ trim (stripComment (s2l "vector#1cb5c415 {t:Type} # [ t ] = Vector t;"))))
  /\
  (includes (s2l "vector#1cb5c415")
     (trim (stripComment (s2l "vector#1cb5c415 {t:Type} # [ t ] = Vector t;"))) = true ->
   parseTl (s2l "vector#1cb5c415 {t:Type} # [ t ] = Vector t;" ++ "010"%char
              :: s2l "foo#1a2b3c4d x:int = Bar;")
   = parseTl (s2l "foo#1a2b3c4d x:int = Bar;")).
Proof.
  apply (parseTl_line_that_is_no_definition
           (s2l "vector#1cb5c415 {t:Type} # [ t ] = Vector t;")
           (s2l "foo#1a2b3c4d x:int = Bar;")).
  - vm_compute. intuition discriminate.
  - vm_compute. discriminate.
  - vm_compute. intuition discriminate.
  - vm_compute. reflexivity.
Defined.

Lemma config_eta (c : TlDefinition) :
  c = mkTlDefinition (name c) (constructorId c) (argsConfig c) (subclassOfId c)
        (result_ c) (isFunction c) (namespace c).
Proof. now destruct c. Qed.

(** The record [fromLine] has built before it deals with the name. *)
Lemma fromLine_config name h fields res isF :
  wfLine name (Some h) fields res ->
  0 < digitsValue 16 h < 2 ^ 53 ->
  addArgs
    (deriveId (initialConfig
       (Found [] (lineText name (Some h) fields res) (lineCaps name (Some h) res) []) isF))
    (findAll reArg 3 (lineText name (Some h) fields res))
  = mkTlDefinition name (Int (digitsValue 16 h)) (argsOf fields)
      (Crc32.crc32_str res) res isF None.
Proof.
  intros Hwf Hid.
  assert (Hh : h <> [] /\ allIn isHex h) by (destruct Hwf as (_ & _ & Hh & _); exact Hh).
  destruct Hh as (Hh1 & Hh2).
  assert (Ed : deriveId (initialConfig
                 (Found [] (lineText name (Some h) fields res)
                    (lineCaps name (Some h) res) []) isF)
               = mkTlDefinition name (Int (digitsValue 16 h)) [] (Crc32.crc32_str res)
                   res isF None).
  { unfold deriveId, initialConfig. cbn [groups constructorId].
    rewrite group1_lineCaps, group2_lineCaps, group3_lineCaps.
    rewrite parseInt16_hex by (auto; lia). cbn [falsy getOr].
    replace (digitsValue 16 h =? 0) with false by (symmetry; apply Z.eqb_neq; lia).
    reflexivity. }
  rewrite Ed, (findAll_line _ _ _ _ Hwf).
  rewrite (config_eta (addArgs _ _)).
  rewrite addArgs_name, addArgs_constructorId, addArgs_fields.
  destruct (addArgs_rest (map fieldGroups fields)
              (mkTlDefinition name (Int (digitsValue 16 h)) [] (Crc32.crc32_str res)
                 res isF None)) as (-> & -> & -> & ->).
  reflexivity.
Qed.

(** X30. [parseTl] on a schema of one well-formed line with an id.
    When the id is not zero, is below 2^53 and is none of the core ids,
    and the name has no dot, the result is one definition: its name is
    the name of the line in camel case, its id the id of the line, its
    arguments those of the fields (with "string" turned into "bytes"
    when the id is one of the ids of the authorization key exchange),
    [subclassOfId] the CRC32 of the result type; it is a constructor
    and has no namespace. *)
Theorem parseTl_one_definition (name h : str) (fields : list field) (res : str) :
  wfLine name (Some h) fields res ->
  0 < digitsValue 16 h < 2 ^ 53 ->
  ~ In "."%char name ->
  has CORE_TYPES (Int (digitsValue 16 h)) = false ->
  parseTl (lineText name (Some h) fields res)
  = Ok [mkTlDefinition (snakeToCamelCase name) (Int (digitsValue 16 h))
          (if has AUTH_KEY_TYPES (Int (digitsValue 16 h))
           then map (fun kv => (fst kv, retype (snd kv))) (argsOf fields)
           else argsOf fields)
          (Crc32.crc32_str res) res false None].
Proof.
  intros Hwf Hid Hdot Hcore.
  rewrite (parseTl_one_line _ _ _ _ Hwf), (fromLine_wf _ _ _ _ _ Hwf).
  rewrite (fromLine_config _ _ _ _ _ Hwf Hid).
  unfold finishName. cbn [Parser.name namespace].
  destruct (includes (s2l ".") name) eqn:Ei.
  { exfalso. apply Hdot. now apply includes_chr. }
  cbn [constructorId]. rewrite Hcore.
  unfold patchAuthKey. cbn [constructorId argsConfig Parser.name subclassOfId result_
                            isFunction namespace].
  now destruct (has AUTH_KEY_TYPES (Int (digitsValue 16 h))).
Qed.

Lemma parseTl_one_definition_witness :
  parseTl (lineText (s2l "foo") (Some (s2l "1a2b3c4d"))
             [mkField false (s2l "x") (s2l "int") false] (s2l "Bar"))
  = Ok [mkTlDefinition (snakeToCamelCase (s2l "foo")) (Int (digitsValue 16 (s2l "1a2b3c4d")))
          (if has AUTH_KEY_TYPES (Int (digitsValue 16 (s2l "1a2b3c4d")))
           then map (fun kv => (fst kv, retype (snd kv)))
                  (argsOf [mkField false (s2l "x") (s2l "int") false])
           else argsOf [mkField false (s2l "x") (s2l "int") false])
          (Crc32.crc32_str (s2l "Bar")) (s2l "Bar") false None].
Proof.
  apply (parseTl_one_definition (s2l "foo") (s2l "1a2b3c4d")
           [mkField false (s2l "x") (s2l "int") false] (s2l "Bar")).
  - exact sample_wfLine.
  - vm_compute. split; reflexivity.
  - cbn. intuition discriminate.
  - reflexivity.
Defined.

End SchemaErrors.

(** ** CRC32 *)

Module Crc32Facts.
Import Crc32.

Lemma toInt32_range z : - 2 ^ 31 <= toInt32 z < 2 ^ 31.
Proof.
  unfold toInt32. pose proof (Z.mod_pos_bound z (2 ^ 32) ltac:(lia)).
  destruct (z mod 2 ^ 32 <? 2 ^ 31) eqn:E.
  - apply Z.ltb_lt in E. lia.
  - apply Z.ltb_ge in E. lia.
Qed.

Lemma crcStep_range table crc b : - 2 ^ 31 <= crcStep table crc b < 2 ^ 31.
Proof. unfold crcStep, bxor. apply toInt32_range. Qed.

(** X28. [crc32] returns an unsigned 32-bit number for every input,
    0 for the empty one, although the register it works on is a signed
    32-bit number at every step (it starts at -1); and the table it
    uses has 256 entries. *)
Theorem crc32_unsigned (input : buffer) :
  0 <= crc32 input < 2 ^ 32 /\
  crc32 [] = 0 /\
  - 2 ^ 31 <= fold_left (crcStep makeCrcTable) input (-1) < 2 ^ 31 /\
  length makeCrcTable = 256%nat.
Proof.
  split; [|split; [|split]].
  - unfold crc32, ushr, toUint32. rewrite Z.shiftr_0_r.
    apply Z.mod_pos_bound. lia.
  - reflexivity.
  - induction input as [|b input IH] using rev_ind.
    + cbn. lia.
    + rewrite fold_left_app. cbn [fold_left]. apply crcStep_range.
  - unfold makeCrcTable. now rewrite length_map, length_seq.
Qed.

End Crc32Facts.

